(** * kube-restarter: staleness decision, registry digest lookup, reconcile walk

    A shallow embedding of [pkg/controller] and [pkg/registry].

    - Go strings are byte sequences: [string] (a list of [ascii] bytes).
    - Go [int] indices are [Z]; [strings.Index] answers [-1] when the
      substring is absent, as in Go.
    - An index or slice expression that is out of range panics in Go: pure
      code lives in the [option] monad, [None] standing for the panic.
    - Calls to the cluster API and to the HTTP client are answered by a
      [World], whose answers may depend on everything the program did
      before; the program threads the history of its calls. *)

From Stdlib Require Import ZArith Ascii String List Lia Bool.
From stdpp Require Import base option list strings gmap.

Local Open Scope string_scope.
Local Open Scope list_scope.
Local Open Scope Z_scope.

(** ** Go's [strings] package, on bytes *)

Module gostrings.

(** [len(s)] *)
Definition len (s : string) : Z := Z.of_nat (String.length s).

(** [s[lo:hi]]; panics unless [0 <= lo <= hi <= len(s)]. *)
Definition slice (s : string) (lo hi : Z) : option string :=
  if (0 <=? lo) && (lo <=? hi) && (hi <=? len s)
  then Some (substring (Z.to_nat lo) (Z.to_nat (hi - lo)) s)
  else None.

(** [s[lo:]] *)
Definition slice_from (s : string) (lo : Z) : option string := slice s lo (len s).

(** [s[:hi]] *)
Definition slice_to (s : string) (hi : Z) : option string := slice s 0 hi.

(** [a[i]] on a slice of values; panics when [i] is out of range. *)
Definition at_index {A} (a : list A) (i : Z) : option A :=
  if 0 <=? i then a !! Z.to_nat i else None.

Fixpoint HasPrefix (s prefix : string) {struct prefix} : bool :=
  match prefix, s with
  | EmptyString, _ => true
  | String _ _, EmptyString => false
  | String b p', String a s' => if Ascii.eqb a b then HasPrefix s' p' else false
  end.

(** Index of the first instance of [substr] in [s], or [-1]. *)
Fixpoint Index (s substr : string) : Z :=
  if HasPrefix s substr then 0
  else match s with
       | EmptyString => -1
       | String _ s' => let i := Index s' substr in if i <? 0 then -1 else i + 1
       end.

(** Index of the last instance of [substr] in [s], or [-1]. *)
Fixpoint LastIndex (s substr : string) : Z :=
  match s with
  | EmptyString => if HasPrefix EmptyString substr then 0 else -1
  | String _ s' =>
      let i := LastIndex s' substr in
      if 0 <=? i then i + 1 else if HasPrefix s substr then 0 else -1
  end.

Definition Contains (s substr : string) : bool := 0 <=? Index s substr.

(** [Split(s, sep)] for a one-byte separator, the only kind the program
    uses: all the pieces between separators, [[""]] for the empty string. *)
Fixpoint Split (s : string) (sep : ascii) : list string :=
  match s with
  | EmptyString => [EmptyString]
  | String c s' =>
      if Ascii.eqb c sep then EmptyString :: Split s' sep
      else match Split s' sep with
           | p :: ps => String c p :: ps
           | [] => [String c EmptyString]
           end
  end.

(** The text before and after the first [sep], if there is one. *)
Fixpoint cut (s : string) (sep : ascii) : option (string * string) :=
  match s with
  | EmptyString => None
  | String c s' =>
      if Ascii.eqb c sep then Some (EmptyString, s')
      else match cut s' sep with
           | Some (a, b) => Some (String c a, b)
           | None => None
           end
  end.

Fixpoint split_upto (k : nat) (s : string) (sep : ascii) : list string :=
  match k with
  | O => []
  | S O => [s]
  | S k' => match cut s sep with
            | Some (a, b) => a :: split_upto k' b sep
            | None => [s]
            end
  end.

(** [SplitN(s, sep, n)] for a one-byte separator: no piece when [n = 0],
    all of them when [n < 0], at most [n] otherwise, the last one being the
    unsplit remainder. *)
Definition SplitN (s : string) (sep : ascii) (n : Z) : list string :=
  if n =? 0 then []
  else if n <? 0 then Split s sep
  else split_upto (Z.to_nat n) s sep.

Definition TrimPrefix (s prefix : string) : string :=
  if HasPrefix s prefix
  then substring (String.length prefix) (String.length s - String.length prefix)%nat s
  else s.

Definition mem_byte (c : ascii) (cutset : string) : bool :=
  existsb (Ascii.eqb c) (list_ascii_of_string cutset).

Fixpoint trim_left_bytes (s cutset : string) : string :=
  match s with
  | EmptyString => EmptyString
  | String c s' => if mem_byte c cutset then trim_left_bytes s' cutset else s
  end.

Fixpoint trim_right_bytes (s cutset : string) : string :=
  match s with
  | EmptyString => EmptyString
  | String c s' =>
      match trim_right_bytes s' cutset with
      | EmptyString => if mem_byte c cutset then EmptyString else String c EmptyString
      | t => String c t
      end
  end.

(** [Trim(s, cutset)] for a cutset of ASCII bytes (the program's is the double quote):
    every leading and trailing byte of the cutset is removed. *)
Definition Trim (s cutset : string) : string :=
  trim_right_bytes (trim_left_bytes s cutset) cutset.

(** The UTF-8 encodings of the code points with Unicode's White_Space
    property, which is what [unicode.IsSpace] tests: U+0009..U+000D, U+0020,
    U+0085, U+00A0, U+1680, U+2000..U+200A, U+2028, U+2029, U+202F, U+205F,
    U+3000. *)
Definition byte (n : nat) : ascii := ascii_of_nat n.

Definition bytes (l : list nat) : string := string_of_list_ascii (map byte l).

Definition space_encodings : list string :=
  map bytes
    (concat
       [ [ [9]; [10]; [11]; [12]; [13]; [32]; [194; 133]; [194; 160]; [225; 154; 128] ];
         map (fun k => [226; 128; k])
             [128; 129; 130; 131; 132; 133; 134; 135; 136; 137; 138];
         [ [226; 128; 168]; [226; 128; 169]; [226; 128; 175]; [226; 129; 159];
           [227; 128; 128] ] ])%nat.

(** The length of the white-space rune [s] starts with, if it starts with one. *)
Definition leading_space (s : string) : option nat :=
  String.length <$> find (HasPrefix s) space_encodings.

Fixpoint trim_left_space (fuel : nat) (s : string) : string :=
  match fuel with
  | O => s
  | S fuel' =>
      match leading_space s with
      | Some n => trim_left_space fuel' (substring n (String.length s - n)%nat s)
      | None => s
      end
  end.

Definition rev_string (s : string) : string :=
  string_of_list_ascii (rev (list_ascii_of_string s)).

(** The length of the white-space rune [s] ends with, if it ends with one. *)
Definition trailing_space (s : string) : option nat :=
  String.length <$> find (fun e => HasPrefix (rev_string s) (rev_string e)) space_encodings.

Fixpoint trim_right_space (fuel : nat) (s : string) : string :=
  match fuel with
  | O => s
  | S fuel' =>
      match trailing_space s with
      | Some n => trim_right_space fuel' (substring 0 (String.length s - n)%nat s)
      | None => s
      end
  end.

(** [TrimSpace(s)]: all leading, then all trailing white-space runes are
    removed. Each removal takes at least one byte, so [len(s)] rounds are
    enough. *)
Definition TrimSpace (s : string) : string :=
  let t := trim_left_space (String.length s) s in
  trim_right_space (String.length t) t.

(** [Join(elems, sep)] *)
Fixpoint Join (elems : list string) (sep : string) : string :=
  match elems with
  | [] => EmptyString
  | [e] => e
  | e :: rest => e +:+ sep +:+ Join rest sep
  end.

End gostrings.

Import gostrings.

(** The panic of [parts[len(parts)-1]] and the like is [None]; [x ← e; k]
    is stdpp's bind of the [option] monad. *)

(** ** Errors

    Go's [error] values. The errors the program builds with [fmt.Errorf]
    keep their arguments; [External] is an error handed over by a library
    (transport, cluster API, JSON, base64). *)

Inductive error : Type :=
| External (msg : string)
| ListingDeployments (err : error)
| Head (url : string) (err : error)
| HeadAuthed (url : string) (err : error)
| FetchingBearerToken (err : error)
| UnexpectedStatus (status : Z) (url : string)
| NoDigestHeader (url : string)
| NoRealm (wwwAuth : string)
| ParsingTokenResponse (err : error)
| NoToken (tokenURL : string).

(** A Go result pair [(value, err)] with [err == nil] or not. *)
Inductive Result (A : Type) : Type :=
| Ok (a : A)
| Err (err : error).

Arguments Ok {A} a.
Arguments Err {A} err.

Definition is_ok {A} (r : Result A) : bool :=
  match r with Ok _ => true | Err _ => false end.

(** ** The Kubernetes objects the program reads *)

Module corev1.

Definition PullAlways : string := "Always".
Definition PodRunning : string := "Running".
Definition SecretTypeDockerConfigJson : string := "kubernetes.io/dockerconfigjson".
Definition DockerConfigJsonKey : string := ".dockerconfigjson".

Record Container : Type := {
  Container_Name : string;
  Image : string;
  ImagePullPolicy : string
}.

Record ContainerStatus : Type := {
  ImageID : string
}.

Record LocalObjectReference : Type := {
  Ref_Name : string
}.

Record PodSpec : Type := {
  Containers : list Container;
  ImagePullSecrets : list LocalObjectReference
}.

Record PodStatus : Type := {
  Phase : string;
  ContainerStatuses : list ContainerStatus
}.

Record Pod : Type := {
  Pod_Namespace : string;
  Pod_Name : string;
  Spec : PodSpec;
  Status : PodStatus
}.

(** [Data] maps a key to bytes. *)
Record Secret : Type := {
  Type_ : string;
  Data : gmap string string
}.

End corev1.

Module metav1.

Record LabelSelectorRequirement : Type := {
  Key : string;
  Operator : string;
  Values : list string
}.

Record LabelSelector : Type := {
  MatchLabels : gmap string string;
  MatchExpressions : list LabelSelectorRequirement
}.

End metav1.

Module appsv1.

(** [Selector] is a pointer in Go, [None] is nil. A missing key of
    [Annotations] reads as the empty string. *)
Record Deployment : Type := {
  Namespace : string;
  Name : string;
  Annotations : gmap string string;
  Selector : option metav1.LabelSelector
}.

End appsv1.

Import corev1.

(** [m[key]] on a Go map of strings: the zero value when the key is absent. *)
Definition map_get (m : gmap string string) (key : string) : string :=
  default EmptyString (m !! key).

(** ** HTTP messages

    Header keys are in canonical form, as [http.Header]'s [Set] and [Get]
    make them. *)

Module http.

Definition MethodHead : string := "HEAD".
Definition MethodGet : string := "GET".
Definition StatusOK : Z := 200.
Definition StatusUnauthorized : Z := 401.

Record Request : Type := {
  Method : string;
  URL : string;
  Header : gmap string string
}.

(** [Body] is what [io.ReadAll(resp.Body)] gives. *)
Record Response : Type := {
  StatusCode : Z;
  RespHeader : gmap string string;
  Body : Result string
}.

Definition Header_Set (req : Request) (key value : string) : Request :=
  {| Method := Method req; URL := URL req; Header := <[key := value]> (Header req) |}.

Definition Header_Get (h : gmap string string) (key : string) : string :=
  map_get h key.

End http.

Import http.

(** ** The registry configuration of a pull secret *)

Record dockerAuthEntry : Type := {
  Auth : string
}.

(** [Auths] lists the entries of the Go map in the order the [range] of
    [setAuth] visits them; Go leaves that order unspecified, and nothing here
    depends on which one it is. *)
Record dockerConfigJSON : Type := {
  Auths : list (string * dockerAuthEntry)
}.

Record tokenResponse : Type := {
  Token : string;
  AccessToken : string
}.

(** ** The world outside the program

    [Library] holds the pure functions of packages whose code is not part of
    this repository. [World] answers the calls to the cluster API and to the
    HTTP client; an answer may depend on the [History] of all calls made so
    far, so two identical calls need not get the same answer. *)

Inductive Event : Type :=
| ListDeployments (namespace : string)
| ListPods (namespace labelSelector : string)
| GetSecret (namespace name : string)
| DeletePod (namespace name : string)
| Do (req : Request).

Definition History : Type := list Event.

Record Library : Type := {
  (** [metav1.LabelSelectorAsSelector] followed by [String()] *)
  LabelSelectorAsSelector : option metav1.LabelSelector -> Result string;
  (** [json.Unmarshal] into a [dockerConfigJSON] *)
  Unmarshal_config : string -> Result dockerConfigJSON;
  (** [json.Unmarshal] into the token response *)
  Unmarshal_token : string -> Result tokenResponse;
  (** [base64.StdEncoding.DecodeString] *)
  DecodeString : string -> Result string;
  (** [base64.StdEncoding.EncodeToString] *)
  EncodeToString : string -> string;
  (** the error of [http.NewRequestWithContext] for a method and URL, if any *)
  NewRequest_error : string -> string -> option error
}.

Record World : Type := {
  Deployments_List : History -> string -> Result (list appsv1.Deployment);
  Pods_List : History -> string -> string -> Result (list Pod);
  Secrets_Get : History -> string -> string -> Result Secret;
  Pods_Delete : History -> string -> string -> option error;
  Client_Do : History -> Request -> Result Response
}.

(** What a loop body does next: go on with the following element, or leave
    the function with a value. *)
Inductive flow (R : Type) : Type :=
| Continue
| Return (r : R).

Arguments Continue {R}.
Arguments Return {R} r.

Definition quote : string := String (ascii_of_nat 34) EmptyString.

(** ** package controller: the pure helpers *)

Definition annotationKey : string := "kube-restarter.io/enabled".

Definition isLatestTag (image : string) : option bool :=
  if Contains image "@" then Some false
  else
    let parts := Split image ":" in
    if Z.of_nat (length parts) =? 1 then Some true
    else
      last ← at_index parts (Z.of_nat (length parts) - 1);
      Some (String.eqb last "latest").

Definition extractDigest (imageID : string) : option string :=
  let idx := Index imageID "sha256:" in
  if negb (idx =? -1) then slice_from imageID idx
  else Some EmptyString.

Definition short (digest : string) : option string :=
  if len digest >? 19 then
    d ← slice_to digest 19; Some (d +:+ "...")
  else Some digest.

(** ** package registry: the pure helpers *)

Definition parseImageRef (image : string) : option (string * string * string) :=
  let tag := "latest" in
  let ref := image in
  let atIdx := Index ref "@" in
  ref ← (if negb (atIdx =? -1) then slice_to ref atIdx else Some ref);
  let colonIdx := LastIndex ref ":" in
  '(tag, ref) ←
    (if negb (colonIdx =? -1) then
       candidate ← slice_from ref (colonIdx + 1);
       if negb (Contains candidate "/") then
         ref' ← slice_to ref colonIdx; Some (candidate, ref')
       else Some (tag, ref)
     else Some (tag, ref));
  let parts := SplitN ref "/" 2 in
  if Z.of_nat (length parts) =? 1 then
    p0 ← at_index parts 0;
    Some ("registry-1.docker.io", "library/" +:+ p0, tag)
  else
    first ← at_index parts 0;
    if Contains first "." || Contains first ":" || String.eqb first "localhost" then
      p1 ← at_index parts 1;
      Some (first, p1, tag)
    else
      Some ("registry-1.docker.io", ref, tag).

(** The body of the loop of [parseWWWAuth] over the parts of the header. *)
Definition parseWWWAuth_part (result : gmap string string) (part : string)
  : option (gmap string string) :=
  let part := TrimSpace part in
  let kv := SplitN part "=" 2 in
  if Z.of_nat (length kv) =? 2 then
    k ← at_index kv 0;
    v ← at_index kv 1;
    Some (<[k := Trim v quote]> result)
  else Some result.

Fixpoint parseWWWAuth_range (parts : list string) (result : gmap string string)
  : option (gmap string string) :=
  match parts with
  | [] => Some result
  | part :: rest =>
      result' ← parseWWWAuth_part result part;
      parseWWWAuth_range rest result'
  end.

Definition parseWWWAuth (header : string) : option (gmap string string) :=
  let result := (∅ : gmap string string) in
  let header := TrimPrefix header "Bearer " in
  let header := TrimPrefix header "bearer " in
  parseWWWAuth_range (Split header ",") result.

(** The token URL [fetchBearerToken] builds from the parsed challenge
    (its lines from [tokenURL := realm] to the scope parameter). *)
Definition tokenURL_of (realm : string) (params : gmap string string) : string :=
  let tokenURL := realm in
  let sep := "?" in
  let service := map_get params "service" in
  let '(tokenURL, sep) :=
    if negb (String.eqb service EmptyString)
    then (tokenURL +:+ sep +:+ "service=" +:+ service, "&")
    else (tokenURL, sep) in
  let scope := map_get params "scope" in
  if negb (String.eqb scope EmptyString)
  then tokenURL +:+ sep +:+ "scope=" +:+ scope
  else tokenURL.

Section Registry.

Variable lib : Library.

(** [req.SetBasicAuth(username, password)] *)
Definition SetBasicAuth (req : Request) (username password : string) : Request :=
  Header_Set req "Authorization"
    ("Basic " +:+ EncodeToString lib (username +:+ ":" +:+ password)).

(** The inner loop of [setAuth], over the entries of one configuration. *)
Fixpoint setAuth_auths (req : Request) (registryHost : string)
    (auths : list (string * dockerAuthEntry)) : option (flow Request) :=
  match auths with
  | [] => Some Continue
  | (host, entry) :: rest =>
      if Contains host registryHost && negb (String.eqb (Auth entry) EmptyString) then
        match DecodeString lib (Auth entry) with
        | Err _ => setAuth_auths req registryHost rest
        | Ok decoded =>
            let parts := SplitN decoded ":" 2 in
            if Z.of_nat (length parts) =? 2 then
              p0 ← at_index parts 0;
              p1 ← at_index parts 1;
              Some (Return (SetBasicAuth req p0 p1))
            else setAuth_auths req registryHost rest
        end
      else setAuth_auths req registryHost rest
  end.

(** [setAuth] changes [req] in place; here it gives the request back. *)
Fixpoint setAuth (req : Request) (registryHost : string) (pullSecrets : list Secret)
  : option Request :=
  match pullSecrets with
  | [] => Some req
  | secret :: rest =>
      if negb (String.eqb (Type_ secret) SecretTypeDockerConfigJson) then
        setAuth req registryHost rest
      else
        match Data secret !! DockerConfigJsonKey with
        | None => setAuth req registryHost rest
        | Some data =>
            match Unmarshal_config lib data with
            | Err _ => setAuth req registryHost rest
            | Ok cfg =>
                r ← setAuth_auths req registryHost (Auths cfg);
                match r with
                | Return req' => Some req'
                | Continue => setAuth req registryHost rest
                end
            end
        end
  end.

End Registry.

(** ** Effects

    A computation takes the history of the calls made so far and gives a
    value, or [None] when it panicked, and the history extended by its own
    calls. [log.Printf] is not modelled. *)

Definition M (A : Type) : Type := History -> option A * History.

#[global] Instance M_ret : MRet M := fun A (a : A) h => (Some a, h).

#[global] Instance M_bind : MBind M := fun A B (f : A -> M B) (m : M A) h =>
  match m h with
  | (Some a, h') => f a h'
  | (None, h') => (None, h')
  end.

(** Pure code, which may panic. *)
Definition pure_ {A} (o : option A) : M A := fun h => (o, h).

(** A call to the outside: the answer is the world's at the current
    history, and the call is recorded. *)
Definition call {A} (e : Event) (answer : History -> A) : M A :=
  fun h => (Some (answer h), (h ++ [e])%list).

(** A [for ... range] loop whose body never leaves the function. *)
Fixpoint for_range {A} (body : A -> M unit) (items : list A) : M unit :=
  match items with
  | [] => mret tt
  | item :: rest => _ ← body item; for_range body rest
  end.

Definition acceptedManifests : string :=
  Join [ "application/vnd.docker.distribution.manifest.v2+json";
         "application/vnd.oci.image.manifest.v1+json";
         "application/vnd.oci.image.index.v1+json";
         "application/vnd.docker.distribution.manifest.list.v2+json" ] ", ".

Section Program.

Variable lib : Library.
Variable w : World.

(** [http.NewRequestWithContext(ctx, method, url, nil)] *)
Definition NewRequestWithContext (method url : string) : Result Request :=
  match NewRequest_error lib method url with
  | Some err => Err err
  | None => Ok {| Method := method; URL := url; Header := ∅ |}
  end.

(** [http.DefaultClient.Do(req)] *)
Definition DefaultClient_Do (req : Request) : M (Result Response) :=
  call (Do req) (fun h => Client_Do w h req).

(** *** package registry *)

Definition fetchBearerToken (wwwAuth registryHost : string) (pullSecrets : list Secret)
  : M (Result string) :=
  params ← pure_ (parseWWWAuth wwwAuth);
  let realm := map_get params "realm" in
  if String.eqb realm EmptyString then mret (Err (NoRealm wwwAuth))
  else
    let tokenURL := tokenURL_of realm params in
    match NewRequestWithContext MethodGet tokenURL with
    | Err err => mret (Err err)
    | Ok req =>
        req ← pure_ (setAuth lib req registryHost pullSecrets);
        r ← DefaultClient_Do req;
        match r with
        | Err err => mret (Err err)
        | Ok resp =>
            match Body resp with
            | Err err => mret (Err err)
            | Ok body =>
                match Unmarshal_token lib body with
                | Err err => mret (Err (ParsingTokenResponse err))
                | Ok tokenResp =>
                    if negb (String.eqb (Token tokenResp) EmptyString)
                    then mret (Ok (Token tokenResp))
                    else if negb (String.eqb (AccessToken tokenResp) EmptyString)
                    then mret (Ok (AccessToken tokenResp))
                    else mret (Err (NoToken tokenURL))
                end
            end
        end
    end.

(** The end of [GetRemoteDigest], from the status check on. *)
Definition digestOf (url : string) (resp : Response) : Result string :=
  if negb (StatusCode resp =? StatusOK) then Err (UnexpectedStatus (StatusCode resp) url)
  else
    let digest := Header_Get (RespHeader resp) "Docker-Content-Digest" in
    if String.eqb digest EmptyString then Err (NoDigestHeader url)
    else Ok digest.

Definition manifestURL (reg repo tag : string) : string :=
  "https://" +:+ reg +:+ "/v2/" +:+ repo +:+ "/manifests/" +:+ tag.

(** The error of the second [NewRequestWithContext] is dropped
    ([req, _ = ...]): were there one, [req] would be nil and
    [req.Header.Set] would panic. *)
Definition GetRemoteDigest (image : string) (pullSecrets : list Secret)
  : M (Result string) :=
  '(reg, repo, tag) ← pure_ (parseImageRef image);
  let url := manifestURL reg repo tag in
  match NewRequestWithContext MethodHead url with
  | Err err => mret (Err err)
  | Ok req =>
      let req := Header_Set req "Accept" acceptedManifests in
      req ← pure_ (setAuth lib req reg pullSecrets);
      r ← DefaultClient_Do req;
      match r with
      | Err err => mret (Err (Head url err))
      | Ok resp =>
          if StatusCode resp =? StatusUnauthorized then
            t ← fetchBearerToken (Header_Get (RespHeader resp) "Www-Authenticate")
                  reg pullSecrets;
            match t with
            | Err err => mret (Err (FetchingBearerToken err))
            | Ok token =>
                req ← pure_ (match NewRequestWithContext MethodHead url with
                             | Ok req => Some req
                             | Err _ => None
                             end);
                let req := Header_Set req "Accept" acceptedManifests in
                let req := Header_Set req "Authorization" ("Bearer " +:+ token) in
                r ← DefaultClient_Do req;
                match r with
                | Err err => mret (Err (HeadAuthed url err))
                | Ok resp => mret (digestOf url resp)
                end
            end
          else mret (digestOf url resp)
      end
  end.

(** *** package controller *)

(** One round of the loop of [shouldDeletePod]; [short] is called for the
    log lines. *)
Definition shouldDeletePod_body (pod : Pod) (pullSecrets : list Secret)
    (i : Z) (container : Container) : M (flow bool) :=
  if negb (String.eqb (ImagePullPolicy container) PullAlways) then mret Continue
  else
    latest ← pure_ (isLatestTag (Image container));
    if negb latest then mret Continue
    else
      r ← GetRemoteDigest (Image container) pullSecrets;
      match r with
      | Err err => mret Continue
      | Ok remoteDigest =>
          if i >=? Z.of_nat (length (ContainerStatuses (Status pod))) then mret Continue
          else
            status ← pure_ (at_index (ContainerStatuses (Status pod)) i);
            runningDigest ← pure_ (extractDigest (ImageID status));
            if String.eqb runningDigest EmptyString then mret Continue
            else if negb (String.eqb remoteDigest runningDigest) then
              _ ← pure_ (short runningDigest);
              _ ← pure_ (short remoteDigest);
              mret (Return true)
            else
              _ ← pure_ (short runningDigest);
              mret Continue
      end.

Fixpoint shouldDeletePod_range (pod : Pod) (pullSecrets : list Secret)
    (i : Z) (containers : list Container) : M bool :=
  match containers with
  | [] => mret false
  | container :: rest =>
      f ← shouldDeletePod_body pod pullSecrets i container;
      match f with
      | Return b => mret b
      | Continue => shouldDeletePod_range pod pullSecrets (i + 1) rest
      end
  end.

Definition shouldDeletePod (pod : Pod) (pullSecrets : list Secret) : M bool :=
  shouldDeletePod_range pod pullSecrets 0 (Containers (Spec pod)).

Fixpoint gatherPullSecrets_range (pod : Pod) (refs : list LocalObjectReference)
    (secrets : list Secret) : M (list Secret) :=
  match refs with
  | [] => mret secrets
  | ref :: rest =>
      r ← call (GetSecret (Pod_Namespace pod) (Ref_Name ref))
               (fun h => Secrets_Get w h (Pod_Namespace pod) (Ref_Name ref));
      match r with
      | Err _ => gatherPullSecrets_range pod rest secrets
      | Ok secret => gatherPullSecrets_range pod rest (secrets ++ [secret])%list
      end
  end.

Definition gatherPullSecrets (pod : Pod) : M (list Secret) :=
  gatherPullSecrets_range pod (ImagePullSecrets (Spec pod)) [].

(** The body of the loop of [Reconcile] over the pods of a deployment. *)
Definition Reconcile_pod (pullSecrets : list Secret) (pod : Pod) : M unit :=
  if negb (String.eqb (Phase (Status pod)) PodRunning) then mret tt
  else
    stale ← shouldDeletePod pod pullSecrets;
    if (stale : bool) then
      _ ← call (DeletePod (Pod_Namespace pod) (Pod_Name pod))
               (fun h => Pods_Delete w h (Pod_Namespace pod) (Pod_Name pod));
      mret tt
    else mret tt.

(** The body of the loop of [Reconcile] over the deployments. *)
Definition Reconcile_deployment (deploy : appsv1.Deployment) : M unit :=
  if negb (String.eqb (map_get (appsv1.Annotations deploy) annotationKey) "true")
  then mret tt
  else
    match LabelSelectorAsSelector lib (appsv1.Selector deploy) with
    | Err _ => mret tt
    | Ok selector =>
        r ← call (ListPods (appsv1.Namespace deploy) selector)
                 (fun h => Pods_List w h (appsv1.Namespace deploy) selector);
        match r with
        | Err _ => mret tt
        | Ok pods =>
            pullSecrets ←
              (if Z.of_nat (length pods) >? 0 then
                 pod0 ← pure_ (at_index pods 0);
                 gatherPullSecrets pod0
               else mret []);
            for_range (Reconcile_pod pullSecrets) pods
        end
    end.

(** [Reconcile] answers [Some err] for a non-nil error, [None] for nil. *)
Definition Reconcile (namespace : string) : M (option error) :=
  r ← call (ListDeployments namespace) (fun h => Deployments_List w h namespace);
  match r with
  | Err err => mret (Some (ListingDeployments err))
  | Ok deployments =>
      _ ← for_range Reconcile_deployment deployments;
      mret None
  end.

End Program.

(** ** package main: the start of the process

    [main] reads its configuration, builds the client and the ticker, and
    then loops for ever over [Reconcile] and the ticker. What is embedded is
    the part before the loop; [Looping] stands for entering the loop with
    the period of the ticker, in nanoseconds, and the namespace. *)

Record Process : Type := {
  (** [os.Getenv] *)
  Getenv : string -> string;
  (** [strconv.Atoi]; its value is an [int], of 64 bits *)
  Atoi : string -> Result Z;
  (** the error of [rest.InClusterConfig], if any *)
  InClusterConfig_error : option error;
  (** the error of [kubernetes.NewForConfig], if any *)
  NewForConfig_error : option error
}.

(** How [main] fares before the loop: [log.Fatalf] with one of its three
    messages, the panic of [time.NewTicker] at a non-positive duration, or
    the loop. *)
Inductive Startup : Type :=
| FatalInterval (v : string) (err : error)
| FatalClusterConfig (err : error)
| FatalClient (err : error)
| TickerPanic
| Looping (period : Z) (namespace : string).

(** A product or conversion of 64-bit signed integers wraps around. *)
Definition wrap64 (x : Z) : Z := (x + 2 ^ 63) mod 2 ^ 64 - 2 ^ 63.

(** [time.Second], in nanoseconds. *)
Definition Second : Z := 1000000000.

Definition main_startup (p : Process) : Startup :=
  let interval := 21600 in
  let v := Getenv p "CHECK_INTERVAL" in
  match (if negb (String.eqb v EmptyString) then
           match Atoi p v with
           | Err err => inl (FatalInterval v err)
           | Ok n => inr n
           end
         else inr interval) with
  | inl fatal => fatal
  | inr interval =>
      let namespace := Getenv p "NAMESPACE" in
      match InClusterConfig_error p with
      | Some err => FatalClusterConfig err
      | None =>
          match NewForConfig_error p with
          | Some err => FatalClient err
          | None =>
              let d := wrap64 (wrap64 interval * Second) in
              if d <=? 0 then TickerPanic else Looping d namespace
          end
      end
  end.

(** * The notions of the statements *)

(** The three steps of [parseImageRef]: drop the digest, take the tag, split
    registry and repository. *)
Definition stripDigest (image : string) : option string :=
  let atIdx := Index image "@" in
  if negb (atIdx =? -1) then slice_to image atIdx else Some image.

Definition splitTag (ref : string) : option (string * string) :=
  let colonIdx := LastIndex ref ":" in
  if negb (colonIdx =? -1) then
    candidate ← slice_from ref (colonIdx + 1);
    if negb (Contains candidate "/") then
      ref' ← slice_to ref colonIdx; Some (candidate, ref')
    else Some ("latest", ref)
  else Some ("latest", ref).

Definition splitRepo (ref tag : string) : option (string * string * string) :=
  let parts := SplitN ref "/" 2 in
  if Z.of_nat (length parts) =? 1 then
    p0 ← at_index parts 0;
    Some ("registry-1.docker.io", "library/" +:+ p0, tag)
  else
    first ← at_index parts 0;
    if Contains first "." || Contains first ":" || String.eqb first "localhost" then
      p1 ← at_index parts 1;
      Some (first, p1, tag)
    else
      Some ("registry-1.docker.io", ref, tag).

(** The first segment of a reference is taken for a registry host. *)
Definition host_like (first : string) : bool :=
  Contains first "." || Contains first ":" || String.eqb first "localhost".

(** A parameter of a challenge, [key="value"], and the challenge with realm,
    service and scope. *)
Definition auth_param (key value : string) : string :=
  key +:+ "=" +:+ quote +:+ value +:+ quote.

Definition bearer_challenge (realm service scope : string) : string :=
  auth_param "realm" realm +:+ "," +:+ auth_param "service" service
  +:+ "," +:+ auth_param "scope" scope.

(** What a part of a challenge says: the key and the value of [key=value],
    the part without the white space around it and the value without the
    double quotes at its ends. A part without ['='] says nothing. *)
Definition part_pair (part : string) : option (string * string) :=
  match cut (TrimSpace part) "=" with
  | Some (k, v) => Some (k, Trim v quote)
  | None => None
  end.

Definition pair_value (key part : string) : option string :=
  match part_pair part with
  | Some (k, v) => if String.eqb k key then Some v else None
  | None => None
  end.

(** The value of the last of the parts that is a pair with the key [key]. *)
Definition last_value (key : string) (parts : list string) : option string :=
  last (omap (pair_value key) parts).

(** What is kept of a quoted scope value that is cut after [a]: the text
    [a] behind its opening quote, without white space at its end and without
    double quotes at its ends. *)
Definition scope_cut (a : string) : string := Trim (TrimSpace (quote +:+ a)) quote.

(** A header whose scope parameter comes first, behind one of the prefixes
    [parseWWWAuth] takes off, or behind nothing. *)
Definition scope_first (a rest : string) : list string :=
  map (fun pre => pre +:+ "scope=" +:+ quote +:+ a +:+ "," +:+ rest)
      ["Bearer "; "bearer "; EmptyString].

Section CredentialNotions.

Variable lib : Library.

(** The credential resolution of the specification: the entries of the
    secrets of the docker-config-json type whose JSON decodes, in order; an
    entry gives a credential when its host contains the registry host, its
    auth value is not empty, decodes from base64 and has a [':'], at the
    first of which it is split; the first credential found is the answer. *)
Definition secret_entries (secret : Secret) : list (string * dockerAuthEntry) :=
  if String.eqb (Type_ secret) SecretTypeDockerConfigJson then
    match Data secret !! DockerConfigJsonKey with
    | Some data =>
        match Unmarshal_config lib data with
        | Ok cfg => Auths cfg
        | Err _ => []
        end
    | None => []
    end
  else [].

Definition entry_credential (registryHost : string) (e : string * dockerAuthEntry)
  : option (string * string) :=
  if Contains (fst e) registryHost && negb (String.eqb (Auth (snd e)) EmptyString) then
    match DecodeString lib (Auth (snd e)) with
    | Ok decoded => cut decoded ":"
    | Err _ => None
    end
  else None.

Definition resolve (registryHost : string) (secrets : list Secret)
  : option (string * string) :=
  head (omap (entry_credential registryHost) (concat (map secret_entries secrets))).

Definition with_credential (req : Request) (credential : option (string * string))
  : Request :=
  match credential with
  | Some (username, password) => SetBasicAuth lib req username password
  | None => req
  end.

(** The first request for the manifest at [url]: HEAD, the accepted media
    types, and the basic credential of the registry if there is one. *)
Definition firstRequest (reg url : string) (pullSecrets : list Secret) : Request :=
  with_credential
    (Header_Set {| Method := MethodHead; URL := url; Header := ∅ |} "Accept" acceptedManifests)
    (resolve reg pullSecrets).

End CredentialNotions.

(** The request of the retry: the same, with the bearer token. *)
Definition retryRequest (url token : string) : Request :=
  Header_Set
    (Header_Set {| Method := MethodHead; URL := url; Header := ∅ |} "Accept" acceptedManifests)
    "Authorization" ("Bearer " +:+ token).

Definition is_head (url : string) (e : Event) : bool :=
  match e with
  | Do req => String.eqb (Method req) MethodHead && String.eqb (URL req) url
  | _ => false
  end.

(** The number of HEAD requests for [url] among some events. *)
Definition heads (url : string) (events : list Event) : nat :=
  length (List.filter (is_head url) events).

Definition is_do (e : Event) : bool :=
  match e with Do _ => true | _ => false end.

(** A container is looked up when its pull policy is Always and
    [isLatestTag] accepts its image. *)
Definition applicable (container : Container) : bool :=
  String.eqb (ImagePullPolicy container) PullAlways
  && match isLatestTag (Image container) with
     | Some latest => latest
     | None => false
     end.

(** Whether the status at [i] has a digest, and one other than [remoteDigest]. *)
Definition mismatch (pod : Pod) (i : nat) (remoteDigest : string) : bool :=
  match ContainerStatuses (Status pod) !! i with
  | Some status =>
      match extractDigest (ImageID status) with
      | Some runningDigest =>
          negb (String.eqb runningDigest EmptyString)
          && negb (String.eqb remoteDigest runningDigest)
      | None => false
      end
  | None => false
  end.

(** The deployment carries the annotation with the value "true". *)
Definition enabled (deploy : appsv1.Deployment) : bool :=
  String.eqb (map_get (appsv1.Annotations deploy) annotationKey) "true".

(** A secret of the docker-config-json type with the document [data]. *)
Definition config_secret (data : string) : Secret :=
  {| Type_ := SecretTypeDockerConfigJson; Data := {[ DockerConfigJsonKey := data ]} |}.

(** The events that ask for a deletion, as (namespace, name) pairs. *)
Definition deletions (events : list Event) : list (string * string) :=
  omap (fun e => match e with DeletePod ns name => Some (ns, name) | _ => None end) events.

Definition is_get_secret (e : Event) : bool :=
  match e with GetSecret _ _ => true | _ => false end.

Definition running (pod : Pod) : bool := String.eqb (Phase (Status pod)) PodRunning.

Section StalenessNotions.

Variable lib : Library.
Variable w : World.

(** The container at [i], met at history [h], has a confirmed digest
    mismatch: always-pull policy, latest or untagged image, a remote digest
    that was obtained, a status entry, and a running digest that is not empty
    and is not the remote one. *)
Definition stale_at (pod : Pod) (pullSecrets : list Secret) (i : nat) (h : History) : Prop :=
  exists container remoteDigest status runningDigest,
    Containers (Spec pod) !! i = Some container
    /\ ImagePullPolicy container = PullAlways
    /\ isLatestTag (Image container) = Some true
    /\ fst (GetRemoteDigest lib w (Image container) pullSecrets h) = Some (Ok remoteDigest)
    /\ ContainerStatuses (Status pod) !! i = Some status
    /\ extractDigest (ImageID status) = Some runningDigest
    /\ runningDigest <> EmptyString
    /\ remoteDigest <> runningDigest.

(** [reaches pod pullSecrets h0 i h]: started at history [h0], the loop
    comes to the container at [i] with history [h], all containers before
    it having been passed over. *)
Inductive reaches (pod : Pod) (pullSecrets : list Secret) (h0 : History)
  : nat -> History -> Prop :=
| reaches_first : reaches pod pullSecrets h0 O h0
| reaches_next (i : nat) (h h' : History) (container : Container) :
    reaches pod pullSecrets h0 i h ->
    Containers (Spec pod) !! i = Some container ->
    shouldDeletePod_body lib w pod pullSecrets (Z.of_nat i) container h = (Some Continue, h') ->
    reaches pod pullSecrets h0 (S i) h'.

(** The registry answers the lookups for the images of the pod in the same
    way at every history. *)
Definition steady (pod : Pod) (pullSecrets : list Secret) : Prop :=
  forall container h h',
    In container (Containers (Spec pod)) ->
    fst (GetRemoteDigest lib w (Image container) pullSecrets h)
    = fst (GetRemoteDigest lib w (Image container) pullSecrets h').

End StalenessNotions.

(** ** An example cluster and registry *)

(** A library that accepts every request and decodes nothing, and a world in
    which every call fails: the least one needs to run the program. *)
Definition plain_library : Library := {|
  LabelSelectorAsSelector := fun _ => Ok "app=web";
  Unmarshal_config := fun _ => Err (External "json");
  Unmarshal_token := fun _ => Err (External "json");
  DecodeString := fun _ => Err (External "base64");
  EncodeToString := fun s => s;
  NewRequest_error := fun _ _ => None
|}.

Definition silent_world : World := {|
  Deployments_List := fun _ _ => Err (External "unreachable");
  Pods_List := fun _ _ _ => Err (External "unreachable");
  Secrets_Get := fun _ _ _ => Err (External "unreachable");
  Pods_Delete := fun _ _ _ => Some (External "unreachable");
  Client_Do := fun _ _ => Err (External "unreachable")
|}.

(** The challenge of the example: realm, service and a scope with a comma. *)
Definition challenge_realm_service : string :=
  "Bearer realm=" +:+ quote +:+ "https://auth.x/token" +:+ quote
  +:+ ",service=" +:+ quote +:+ "registry.x" +:+ quote.

Definition challenge_pull_push : string :=
  challenge_realm_service
  +:+ ",scope=" +:+ quote +:+ "repository:a/b:pull" +:+ "," +:+ "push" +:+ quote.

(** A challenge whose scope value has a comma and, behind it, the text of a
    scope parameter. *)
Definition challenge_scope_twice : string :=
  "Bearer realm=" +:+ quote +:+ "https://auth.x/token" +:+ quote
  +:+ ",scope=" +:+ quote +:+ "repository:a/b:pull" +:+ "," +:+ "scope=evil" +:+ quote.

(** A library that takes the body of the token response for the token and
    rejects label selectors that have match expressions. *)
Definition token_library : Library := {|
  LabelSelectorAsSelector := fun selector =>
    match selector with
    | Some s => match metav1.MatchExpressions s with
                | [] => Ok "app=web"
                | _ :: _ => Err (External "not a valid selector operator")
                end
    | None => Ok EmptyString
    end;
  Unmarshal_config := fun _ => Err (External "json");
  Unmarshal_token := fun body => Ok {| Token := body; AccessToken := EmptyString |};
  DecodeString := fun _ => Err (External "base64");
  EncodeToString := fun s => s;
  NewRequest_error := fun _ _ => None
|}.

(** A registry that wants a bearer token and then serves [digest]; a cluster
    with the given deployments and pods, in which no secret can be read and
    no pod can be deleted. *)
Definition hub_world (digest : string) (deployments : list appsv1.Deployment)
    (pods : list Pod) : World := {|
  Deployments_List := fun _ _ => Ok deployments;
  Pods_List := fun _ _ _ => Ok pods;
  Secrets_Get := fun _ _ _ => Err (External "not found");
  Pods_Delete := fun _ _ _ => Some (External "forbidden");
  Client_Do := fun _ req =>
    if String.eqb (Method req) MethodGet then
      Ok {| StatusCode := 200; RespHeader := ∅; Body := Ok "token" |}
    else
      match Header req !! "Authorization" with
      | Some _ =>
          Ok {| StatusCode := 200;
                RespHeader := {[ "Docker-Content-Digest" := digest ]};
                Body := Ok EmptyString |}
      | None =>
          Ok {| StatusCode := 401;
                RespHeader := {[ "Www-Authenticate" := challenge_pull_push ]};
                Body := Ok EmptyString |}
      end
|}.

Definition running_aaa : ContainerStatus :=
  {| ImageID := "docker-pullable://nginx@sha256:aaa" |}.

(** A library whose one configuration document, "hub", has the entry that
    [docker login] writes for the default registry, and which decodes its
    auth value. *)
Definition docker_login_library : Library := {|
  LabelSelectorAsSelector := fun _ => Ok "app=web";
  Unmarshal_config := fun data =>
    if String.eqb data "hub"
    then Ok {| Auths := [ ("https://index.docker.io/v1/", {| Auth := "dXNlcjpwYXNz" |}) ] |}
    else if String.eqb data "mirror"
    then Ok {| Auths := [ ("ghcr.io.mirror.example.com", {| Auth := "dXNlcjpwYXNz" |}) ] |}
    else Err (External "invalid character");
  Unmarshal_token := fun _ => Err (External "json");
  DecodeString := fun s =>
    if String.eqb s "dXNlcjpwYXNz" then Ok "user:pass"
    else Err (External "illegal base64 data");
  EncodeToString := fun s => s;
  NewRequest_error := fun _ _ => None
|}.

(** A registry that answers 401 without any header. *)
Definition denying_world : World := {|
  Deployments_List := fun _ _ => Ok [];
  Pods_List := fun _ _ _ => Ok [];
  Secrets_Get := fun _ _ _ => Err (External "not found");
  Pods_Delete := fun _ _ _ => None;
  Client_Do := fun _ _ => Ok {| StatusCode := 401; RespHeader := ∅; Body := Ok EmptyString |}
|}.

(** A library that knows one configuration document, with an entry that is
    not base64, an empty one and a good one, and one credential. *)
Definition auth_library : Library := {|
  LabelSelectorAsSelector := fun _ => Ok "app=web";
  Unmarshal_config := fun data =>
    if String.eqb data "config"
    then Ok {| Auths := [ ("registry-1.docker.io:443", {| Auth := "not base64!" |});
                          ("registry-1.docker.io", {| Auth := EmptyString |});
                          ("https://registry-1.docker.io/v1/", {| Auth := "dXNlcjpwYTpzcw==" |});
                          ("registry-1.docker.io", {| Auth := "bGF0ZTpy" |}) ] |}
    else Err (External "invalid character");
  Unmarshal_token := fun _ => Err (External "json");
  DecodeString := fun s =>
    if String.eqb s "dXNlcjpwYTpzcw==" then Ok "user:pa:ss"
    else if String.eqb s "bGF0ZTpy" then Ok "late:r"
    else Err (External "illegal base64 data");
  EncodeToString := fun s => s;
  NewRequest_error := fun _ _ => None
|}.

(** A secret of another type, one whose document is malformed, and the one
    with the configuration. *)
Definition example_secrets : list Secret :=
  [ {| Type_ := "Opaque"; Data := {[ DockerConfigJsonKey := "config" ]} |};
    {| Type_ := SecretTypeDockerConfigJson; Data := {[ DockerConfigJsonKey := "{" ]} |};
    {| Type_ := SecretTypeDockerConfigJson; Data := {[ DockerConfigJsonKey := "config" ]} |} ].

Definition head_request (url : string) : Request :=
  {| Method := MethodHead; URL := url; Header := ∅ |}.

(** A running pod with one always-pull container of the given image, whose
    running digest is not the one the example registry serves. *)
Definition image_pod (image : string) : Pod := {|
  Pod_Namespace := "default";
  Pod_Name := "app-1";
  Spec := {| Containers := [ {| Container_Name := "app"; Image := image;
                                ImagePullPolicy := PullAlways |} ];
             ImagePullSecrets := [] |};
  Status := {| Phase := PodRunning; ContainerStatuses := [running_aaa] |}
|}.

Definition nginx_container : Container :=
  {| Container_Name := "web"; Image := "nginx:latest"; ImagePullPolicy := PullAlways |}.

Definition nginx_pod (name : string) (statuses : list ContainerStatus) : Pod := {|
  Pod_Namespace := "default";
  Pod_Name := name;
  Spec := {| Containers := [nginx_container]; ImagePullSecrets := [] |};
  Status := {| Phase := PodRunning; ContainerStatuses := statuses |}
|}.

Definition nginx_url : string :=
  "https://registry-1.docker.io/v2/library/nginx/manifests/latest".

Definition bad_deployment : appsv1.Deployment := {|
  appsv1.Namespace := "default";
  appsv1.Name := "bad";
  appsv1.Annotations := {[ annotationKey := "true" ]};
  appsv1.Selector :=
    Some {| metav1.MatchLabels := ∅;
            metav1.MatchExpressions :=
              [ {| metav1.Key := "app"; metav1.Operator := "Near"; metav1.Values := [] |} ] |}
|}.

Definition web_deployment : appsv1.Deployment := {|
  appsv1.Namespace := "default";
  appsv1.Name := "web";
  appsv1.Annotations := {[ annotationKey := "true" ]};
  appsv1.Selector :=
    Some {| metav1.MatchLabels := {[ "app" := "web" ]}; metav1.MatchExpressions := [] |}
|}.

(** A process in a cluster, with CHECK_INTERVAL set to [interval] and read
    as the number [n]. *)
Definition cluster_process (interval : string) (n : Z) : Process := {|
  Getenv := fun key => if String.eqb key "CHECK_INTERVAL" then interval else "apps";
  Atoi := fun _ => Ok n;
  InClusterConfig_error := None;
  NewForConfig_error := None
|}.

(** A deployment whose annotation is not the exact "true". *)
Definition shouting_deployment : appsv1.Deployment := {|
  appsv1.Namespace := "default";
  appsv1.Name := "loud";
  appsv1.Annotations := {[ annotationKey := "TRUE" ]};
  appsv1.Selector :=
    Some {| metav1.MatchLabels := {[ "app" := "loud" ]}; metav1.MatchExpressions := [] |}
|}.

(** A running pod with two nginx containers, both behind the registry. *)
Definition twin_pod : Pod := {|
  Pod_Namespace := "default";
  Pod_Name := "twin-1";
  Spec := {| Containers := [nginx_container; nginx_container]; ImagePullSecrets := [] |};
  Status := {| Phase := PodRunning; ContainerStatuses := [running_aaa; running_aaa] |}
|}.

(** A pod that is not running and names a pull secret. *)
Definition pending_pod : Pod := {|
  Pod_Namespace := "default";
  Pod_Name := "web-0";
  Spec := {| Containers := [nginx_container];
             ImagePullSecrets := [ {| Ref_Name := "regcred" |} ] |};
  Status := {| Phase := "Pending"; ContainerStatuses := [] |}
|}.

Definition pending_first_world : World :=
  hub_world "sha256:bbb" [web_deployment] [pending_pod; nginx_pod "web-1" [running_aaa]].

Definition example_world : World :=
  hub_world "sha256:bbb" [bad_deployment; web_deployment]
    [nginx_pod "web-1" [running_aaa]; nginx_pod "web-2" [running_aaa]].

Definition nginx_first : Request :=
  firstRequest token_library "registry-1.docker.io" nginx_url [].

Definition token_request : Request :=
  {| Method := MethodGet;
     URL := "https://auth.x/token?service=registry.x&scope=repository:a/b:pull";
     Header := ∅ |}.

Definition nginx_lookup : list Event :=
  [Do nginx_first; Do token_request; Do (retryRequest nginx_url "token")].

(** * Properties *)

(** ** The string functions *)

Section StringFacts.

Lemma len_nonneg (s : string) : 0 <= len s.
Proof. unfold len. lia. Qed.

Lemma len_String (c : ascii) (s : string) : len (String c s) = len s + 1.
Proof. unfold len. simpl. lia. Qed.

Lemma HasPrefix_len (s p : string) : HasPrefix s p = true -> len p <= len s.
Proof.
  revert s. induction p as [|b p IH]; intros s H.
  - apply len_nonneg.
  - destruct s as [|a s]; simpl in H; [discriminate|].
    destruct (Ascii.eqb a b); [|discriminate].
    rewrite !len_String. specialize (IH s H). lia.
Qed.

Lemma Index_range (s substr : string) :
  Index s substr = -1 \/ (0 <= Index s substr /\ Index s substr + len substr <= len s).
Proof.
  induction s as [|c s IH]; cbn [Index].
  - destruct substr; simpl; [right|left; reflexivity]. unfold len. simpl. lia.
  - destruct (HasPrefix (String c s) substr) eqn:E.
    + right. apply HasPrefix_len in E. lia.
    + rewrite len_String. destruct (Index s substr <? 0) eqn:L; [left; reflexivity|].
      right. apply Z.ltb_ge in L. lia.
Qed.

Lemma LastIndex_range (s substr : string) :
  LastIndex s substr = -1 \/ (0 <= LastIndex s substr /\ LastIndex s substr + len substr <= len s).
Proof.
  induction s as [|c s IH].
  - destruct substr; simpl; [right|left; reflexivity]. unfold len. simpl. lia.
  - cbn [LastIndex]. rewrite len_String.
    destruct (0 <=? LastIndex s substr) eqn:L.
    + right. apply Z.leb_le in L. lia.
    + destruct (HasPrefix (String c s) substr) eqn:E; [right|left; reflexivity].
      apply HasPrefix_len in E. rewrite len_String in E. lia.
Qed.

Lemma slice_is_Some (s : string) (lo hi : Z) :
  0 <= lo -> lo <= hi -> hi <= len s -> is_Some (slice s lo hi).
Proof.
  intros H1 H2 H3. unfold slice.
  rewrite (proj2 (Z.leb_le _ _) H1), (proj2 (Z.leb_le _ _) H2), (proj2 (Z.leb_le _ _) H3).
  simpl. eauto.
Qed.

Lemma Split_length (s : string) (sep : ascii) : (1 <= length (Split s sep))%nat.
Proof.
  induction s as [|c s IH]; simpl; [lia|].
  destruct (Ascii.eqb c sep); simpl; [lia|].
  destruct (Split s sep); simpl; lia.
Qed.

Lemma at_index_is_Some {A} (a : list A) (i : Z) :
  0 <= i < Z.of_nat (length a) -> is_Some (at_index a i).
Proof.
  intros [H1 H2]. unfold at_index. rewrite (proj2 (Z.leb_le _ _) H1).
  apply lookup_lt_is_Some. lia.
Qed.

(** [SplitN(s, sep, 2)] has one piece, [s] itself, or two. *)
Lemma SplitN_2 (s : string) (sep : ascii) :
  SplitN s sep 2 = match cut s sep with
                   | Some (a, b) => [a; b]
                   | None => [s]
                   end.
Proof.
  unfold SplitN. simpl. destruct (cut s sep) as [[a b]|]; reflexivity.
Qed.

End StringFacts.

(** ** No panic in the pure helpers *)

Section Totality.

Lemma isLatestTag_total (image : string) : is_Some (isLatestTag image).
Proof.
  unfold isLatestTag. destruct (Contains image "@"); [eauto|].
  destruct (Z.of_nat (length (Split image ":")) =? 1); [eauto|].
  pose proof (Split_length image ":") as L.
  destruct (at_index_is_Some (Split image ":") (Z.of_nat (length (Split image ":")) - 1))
    as [x ->]; [lia|]. simpl. eauto.
Qed.

Lemma extractDigest_total (imageID : string) : is_Some (extractDigest imageID).
Proof.
  unfold extractDigest.
  destruct (Index_range imageID "sha256:") as [->|[H1 H2]]; simpl; [eauto|].
  destruct (Index imageID "sha256:" =? -1); simpl; [eauto|].
  apply slice_is_Some; [lia| |lia]. pose proof (len_nonneg "sha256:"). lia.
Qed.

Lemma short_total (digest : string) : is_Some (short digest).
Proof.
  unfold short. destruct (len digest >? 19) eqn:E; [|eauto].
  apply Z.gtb_lt in E.
  destruct (slice_is_Some digest 0 19) as [d Hd]; [lia..|].
  unfold slice_to. rewrite Hd. simpl. eauto.
Qed.

End Totality.

(** ** Bytes of a string, and where the one-byte searches land *)

Section ByteSearch.

Lemma mem_byte_String (c a : ascii) (s : string) :
  mem_byte c (String a s) = Ascii.eqb a c || mem_byte c s.
Proof. unfold mem_byte. simpl. now rewrite (Ascii.eqb_sym c a). Qed.

Lemma append_nil (b : string) : EmptyString +:+ b = b.
Proof. reflexivity. Qed.

Lemma append_String (x : ascii) (a b : string) : String x a +:+ b = String x (a +:+ b).
Proof. reflexivity. Qed.

Lemma len_app (a b : string) : len (a +:+ b) = len a + len b.
Proof.
  induction a as [|x a IH]; [rewrite append_nil; unfold len; simpl; lia|].
  rewrite append_String, !len_String, IH. lia.
Qed.

Lemma HasPrefix_byte (c a : ascii) (s : string) :
  HasPrefix (String a s) (String c EmptyString) = Ascii.eqb a c.
Proof. simpl. now destruct (Ascii.eqb a c). Qed.

Lemma Index_byte_absent (c : ascii) (s : string) :
  mem_byte c s = false -> Index s (String c EmptyString) = -1.
Proof.
  induction s as [|a s IH]; intros H; [reflexivity|].
  rewrite mem_byte_String in H. apply orb_false_elim in H as [H1 H2].
  cbn [Index]. rewrite HasPrefix_byte, H1, (IH H2). reflexivity.
Qed.

Lemma Index_byte_first (c : ascii) (a b : string) :
  mem_byte c a = false -> Index (a +:+ String c b) (String c EmptyString) = len a.
Proof.
  induction a as [|x a IH]; intros H.
  - change (EmptyString +:+ String c b) with (String c b).
    cbn [Index]. rewrite HasPrefix_byte, Ascii.eqb_refl. reflexivity.
  - rewrite mem_byte_String in H. apply orb_false_elim in H as [H1 H2].
    change (String x a +:+ String c b) with (String x (a +:+ String c b)).
    cbn [Index]. rewrite HasPrefix_byte, H1, (IH H2), len_String.
    pose proof (len_nonneg a). destruct (len a <? 0) eqn:E; [lia|reflexivity].
Qed.

Lemma Contains_byte (c : ascii) (s : string) :
  Contains s (String c EmptyString) = mem_byte c s.
Proof.
  unfold Contains. induction s as [|a s IH]; [reflexivity|].
  rewrite mem_byte_String. cbn [Index]. rewrite HasPrefix_byte.
  destruct (Ascii.eqb a c); [reflexivity|]. simpl. rewrite <- IH.
  destruct (Index_range s (String c EmptyString)) as [->|[H _]]; [reflexivity|].
  destruct (Index s (String c EmptyString) <? 0) eqn:E; [lia|].
  apply Z.ltb_ge in E. destruct (0 <=? Index s (String c EmptyString)) eqn:F; lia.
Qed.

Lemma LastIndex_byte_absent (c : ascii) (s : string) :
  mem_byte c s = false -> LastIndex s (String c EmptyString) = -1.
Proof.
  induction s as [|a s IH]; intros H; [reflexivity|].
  rewrite mem_byte_String in H. apply orb_false_elim in H as [H1 H2].
  cbn [LastIndex]. rewrite HasPrefix_byte, H1, (IH H2). reflexivity.
Qed.

Lemma LastIndex_byte_last (c : ascii) (a b : string) :
  mem_byte c b = false -> LastIndex (a +:+ String c b) (String c EmptyString) = len a.
Proof.
  intros H. induction a as [|x a IH].
  - change (EmptyString +:+ String c b) with (String c b).
    cbn [LastIndex]. rewrite (LastIndex_byte_absent c b H), HasPrefix_byte, Ascii.eqb_refl.
    reflexivity.
  - change (String x a +:+ String c b) with (String x (a +:+ String c b)).
    cbn [LastIndex]. rewrite IH, len_String. pose proof (len_nonneg a).
    destruct (0 <=? len a) eqn:E; [reflexivity|lia].
Qed.

(** A string with the byte [c] splits at the last [c]. *)
Lemma split_at_last (c : ascii) (s : string) :
  mem_byte c s = true ->
  exists a b, s = a +:+ String c b /\ mem_byte c b = false.
Proof.
  induction s as [|x s IH]; intros H; [discriminate|].
  rewrite mem_byte_String in H.
  destruct (mem_byte c s) eqn:E.
  - destruct (IH eq_refl) as (a & b & -> & Hb). exists (String x a), b. split; [reflexivity|exact Hb].
  - rewrite orb_false_r in H. apply Ascii.eqb_eq in H as ->.
    exists EmptyString, s. split; [reflexivity|exact E].
Qed.

(** A string with the byte [c] splits at the first [c]. *)
Lemma split_at_first (c : ascii) (s : string) :
  mem_byte c s = true ->
  exists a b, s = a +:+ String c b /\ mem_byte c a = false.
Proof.
  induction s as [|x s IH]; intros H; [discriminate|].
  rewrite mem_byte_String in H.
  destruct (Ascii.eqb x c) eqn:E.
  - apply Ascii.eqb_eq in E as ->. exists EmptyString, s. split; reflexivity.
  - simpl in H. destruct (IH H) as (a & b & -> & Ha). exists (String x a), b.
    split; [reflexivity|]. rewrite mem_byte_String, E, Ha. reflexivity.
Qed.

Lemma substring_all (s : string) : substring 0 (String.length s) s = s.
Proof. induction s as [|a s IH]; simpl; [reflexivity|now rewrite IH]. Qed.

Lemma substring_none (s : string) : substring 0 0 s = EmptyString.
Proof. destruct s; reflexivity. Qed.

Lemma substring_app_l (a b : string) : substring 0 (String.length a) (a +:+ b) = a.
Proof.
  induction a as [|x a IH]; [apply substring_none|].
  rewrite append_String. simpl. now rewrite IH.
Qed.

Lemma substring_app_r (a b : string) :
  substring (String.length a) (String.length b) (a +:+ b) = b.
Proof.
  induction a as [|x a IH]; [apply substring_all|].
  rewrite append_String. simpl. exact IH.
Qed.

Lemma slice_to_app (a b : string) : slice_to (a +:+ b) (len a) = Some a.
Proof.
  unfold slice_to, slice. rewrite len_app.
  pose proof (len_nonneg a). pose proof (len_nonneg b).
  rewrite (proj2 (Z.leb_le 0 0)), (proj2 (Z.leb_le 0 (len a))),
    (proj2 (Z.leb_le (len a) (len a + len b))) by lia.
  simpl. unfold len. rewrite Z.sub_0_r, Nat2Z.id. now rewrite substring_app_l.
Qed.

Lemma slice_from_app (a b : string) : slice_from (a +:+ b) (len a) = Some b.
Proof.
  unfold slice_from, slice. rewrite len_app.
  pose proof (len_nonneg a). pose proof (len_nonneg b).
  rewrite (proj2 (Z.leb_le 0 (len a))), (proj2 (Z.leb_le (len a) (len a + len b))),
    (proj2 (Z.leb_le (len a + len b) (len a + len b))) by lia.
  simpl. replace (len a + len b - len a) with (len b) by lia.
  unfold len. rewrite !Nat2Z.id. now rewrite substring_app_r.
Qed.

Lemma app_String_shift (a : string) (c : ascii) (b : string) :
  a +:+ String c b = (a +:+ String c EmptyString) +:+ b.
Proof.
  induction a as [|x a IH]; [reflexivity|]. rewrite !append_String. now rewrite IH.
Qed.

Lemma slice_from_after (a : string) (c : ascii) (b : string) :
  slice_from (a +:+ String c b) (len a + 1) = Some b.
Proof.
  rewrite app_String_shift.
  replace (len a + 1) with (len (a +:+ String c EmptyString)).
  - apply slice_from_app.
  - rewrite len_app. reflexivity.
Qed.

End ByteSearch.

(** ** parseImageRef *)

Section ParseImageRef.

Lemma parseImageRef_steps (image : string) :
  parseImageRef image =
  ref ← stripDigest image; '(tag, ref) ← splitTag ref; splitRepo ref tag.
Proof. reflexivity. Qed.

Lemma append_nil_r (s : string) : s +:+ EmptyString = s.
Proof. induction s as [|x s IH]; [reflexivity|]. now rewrite append_String, IH. Qed.

(** Every string is a part without ['@'] followed by nothing or by a part
    that starts with ['@']. *)
Lemma digest_split (image : string) :
  exists ref rest, image = ref +:+ rest /\ mem_byte "@" ref = false
                   /\ (rest = EmptyString \/ HasPrefix rest "@" = true).
Proof.
  destruct (mem_byte "@" image) eqn:E.
  - destruct (split_at_first _ _ E) as (a & b & -> & Ha).
    exists a, (String "@" b). repeat split; [exact Ha|]. right.
    rewrite HasPrefix_byte. reflexivity.
  - exists image, EmptyString. rewrite append_nil_r. auto.
Qed.

Lemma stripDigest_spec (image ref rest : string) :
  image = ref +:+ rest -> mem_byte "@" ref = false ->
  rest = EmptyString \/ HasPrefix rest "@" = true ->
  stripDigest image = Some ref.
Proof.
  intros -> Href [->|Hrest]; unfold stripDigest.
  - rewrite append_nil_r, (Index_byte_absent _ _ Href). reflexivity.
  - destruct rest as [|c rest]; [discriminate|].
    rewrite HasPrefix_byte in Hrest. apply Ascii.eqb_eq in Hrest as ->.
    rewrite (Index_byte_first _ _ _ Href). pose proof (len_nonneg ref).
    destruct (len ref =? -1) eqn:E; [lia|]. simpl. apply slice_to_app.
Qed.

Lemma splitTag_untagged (ref : string) :
  mem_byte ":" ref = false -> splitTag ref = Some ("latest", ref).
Proof.
  intros H. unfold splitTag. rewrite (LastIndex_byte_absent _ _ H). reflexivity.
Qed.

Lemma splitTag_colon (a t : string) :
  mem_byte ":" t = false ->
  splitTag (a +:+ String ":" t) =
  Some (if mem_byte "/" t then ("latest", a +:+ String ":" t) else (t, a)).
Proof.
  intros H. unfold splitTag. rewrite (LastIndex_byte_last _ _ _ H).
  pose proof (len_nonneg a). destruct (len a =? -1) eqn:E; [lia|]. simpl.
  rewrite slice_from_after. simpl. rewrite Contains_byte.
  destruct (mem_byte "/" t); simpl; [reflexivity|].
  rewrite slice_to_app. reflexivity.
Qed.

Lemma splitTag_total (ref : string) : is_Some (splitTag ref).
Proof.
  destruct (mem_byte ":" ref) eqn:E.
  - destruct (split_at_last _ _ E) as (a & t & -> & Ht).
    rewrite (splitTag_colon _ _ Ht). eauto.
  - rewrite (splitTag_untagged _ E). eauto.
Qed.

Lemma splitRepo_total (ref tag : string) :
  exists reg repo, splitRepo ref tag = Some (reg, repo, tag).
Proof.
  unfold splitRepo. rewrite SplitN_2. destruct (cut ref "/") as [[a b]|]; simpl.
  - destruct (Contains a "." || Contains a ":" || String.eqb a "localhost"); simpl; eauto.
  - eauto.
Qed.

Lemma parseImageRef_is_Some (image : string) :
  exists reg repo tag, parseImageRef image = Some (reg, repo, tag).
Proof.
  rewrite parseImageRef_steps.
  destruct (digest_split image) as (ref & rest & E & Href & Hrest).
  rewrite (stripDigest_spec _ _ _ E Href Hrest). simpl.
  destruct (splitTag_total ref) as [[tag ref'] ->]. simpl.
  destruct (splitRepo_total ref' tag) as (reg & repo & ->). eauto.
Qed.

End ParseImageRef.

Section ParseImageRefTheorems.

Lemma mem_byte_app (c : ascii) (a b : string) :
  mem_byte c (a +:+ b) = mem_byte c a || mem_byte c b.
Proof.
  induction a as [|x a IH]; [reflexivity|].
  rewrite append_String, !mem_byte_String, IH. apply orb_assoc.
Qed.

Lemma mem_byte_self (c : ascii) (a b : string) : mem_byte c (a +:+ String c b) = true.
Proof.
  rewrite mem_byte_app, mem_byte_String, Ascii.eqb_refl. simpl. apply orb_true_r.
Qed.

(** The split at the last [c] is unique. *)
Lemma split_at_last_unique (c : ascii) (a a' t t' : string) :
  a +:+ String c t = a' +:+ String c t' ->
  mem_byte c t = false -> mem_byte c t' = false -> a = a' /\ t = t'.
Proof.
  revert a'. induction a as [|x a IH]; intros [|x' a'] E Ht Ht'.
  - rewrite !append_nil in E. injection E as ->. auto.
  - rewrite append_nil, append_String in E. injection E as _ ->.
    rewrite mem_byte_self in Ht. discriminate.
  - rewrite append_nil, append_String in E. injection E as _ <-.
    rewrite mem_byte_self in Ht'. discriminate.
  - rewrite !append_String in E. injection E as -> E.
    destruct (IH a' E Ht Ht') as [-> ->]. auto.
Qed.

(** C3. [parseImageRef] maps "nginx", "nginx:1.25", "myuser/myimage",
    "ghcr.io/org/app:v2" and "localhost:5000/app" to
    (registry-1.docker.io, library/nginx, latest),
    (registry-1.docker.io, library/nginx, 1.25),
    (registry-1.docker.io, myuser/myimage, latest), (ghcr.io, org/app, v2) and
    (localhost:5000, app, latest); the tag of "localhost:5000/app" is not
    "5000/app". *)
Theorem parseImageRef_examples :
  parseImageRef "nginx" = Some ("registry-1.docker.io", "library/nginx", "latest")
  /\ parseImageRef "nginx:1.25" = Some ("registry-1.docker.io", "library/nginx", "1.25")
  /\ parseImageRef "myuser/myimage" = Some ("registry-1.docker.io", "myuser/myimage", "latest")
  /\ parseImageRef "ghcr.io/org/app:v2" = Some ("ghcr.io", "org/app", "v2")
  /\ parseImageRef "localhost:5000/app" = Some ("localhost:5000", "app", "latest")
  /\ (forall reg repo, parseImageRef "localhost:5000/app" <> Some (reg, repo, "5000/app")).
Proof.
  repeat split; try (vm_compute; reflexivity).
  intros reg repo H. vm_compute in H. discriminate.
Qed.

(** C5. [parseImageRef] is total: whatever the input, the empty string and
    ":latest" included, no index or slice expression of it panics and it
    gives a (registry, repository, tag) triple. It is a function of its
    argument alone: it takes no history and makes no call. *)
Theorem parseImageRef_total :
  (forall image : string, exists reg repo tag, parseImageRef image = Some (reg, repo, tag))
  /\ parseImageRef EmptyString = Some ("registry-1.docker.io", "library/", "latest")
  /\ parseImageRef ":latest" = Some ("registry-1.docker.io", "library/", "latest").
Proof.
  split; [exact parseImageRef_is_Some|split; vm_compute; reflexivity].
Qed.

(** C4, as the claim states it, fails: "nginx:" gets the empty tag. *)
Lemma parseImageRef_bare_colon :
  parseImageRef "nginx:" = Some ("registry-1.docker.io", "library/nginx", EmptyString)
  /\ ~ (forall image reg repo tag,
          parseImageRef image = Some (reg, repo, tag) -> tag <> EmptyString).
Proof.
  split; [vm_compute; reflexivity|].
  intros H. apply (H "nginx:" "registry-1.docker.io" "library/nginx" EmptyString); reflexivity.
Qed.

(** C4, amended. Let [ref] be the input up to its first ['@']. If [ref] has
    no [':'], the tag is "latest". If [t] is the text after the last [':'] of
    [ref], the tag is "latest" when [t] has a ['/'] and [t] itself otherwise.
    So the tag is empty exactly when [ref] ends with a bare [':'], as in
    "nginx:", and non-empty for every other input. *)
Theorem parseImageRef_tag (image ref rest : string) :
  image = ref +:+ rest ->
  mem_byte "@" ref = false ->
  rest = EmptyString \/ HasPrefix rest "@" = true ->
  exists reg repo tag,
    parseImageRef image = Some (reg, repo, tag)
    /\ (mem_byte ":" ref = false -> tag = "latest")
    /\ (forall a t, ref = a +:+ ":" +:+ t -> mem_byte ":" t = false ->
          tag = if mem_byte "/" t then "latest" else t)
    /\ (tag = EmptyString <-> exists a, ref = a +:+ ":").
Proof.
  intros E Href Hrest. rewrite parseImageRef_steps, (stripDigest_spec _ _ _ E Href Hrest).
  simpl. clear E Href Hrest image rest.
  destruct (mem_byte ":" ref) eqn:C.
  - destruct (split_at_last _ _ C) as (a & t & -> & Ht).
    rewrite (splitTag_colon _ _ Ht).
    assert (U : forall a' t', a +:+ String ":" t = a' +:+ ":" +:+ t' ->
                mem_byte ":" t' = false -> a = a' /\ t = t').
    { intros a' t' E' Ht'. apply (split_at_last_unique ":" a a' t t'); assumption. }
    destruct (mem_byte "/" t) eqn:S; simpl.
    + destruct (splitRepo_total (a +:+ String ":" t) "latest") as (reg & repo & ->).
      exists reg, repo, "latest". split; [reflexivity|]. split; [discriminate|]. split.
      * intros a' t' E' Ht'. destruct (U a' t' E' Ht') as [_ <-]. now rewrite S.
      * split; [discriminate|]. intros [a' E'].
        destruct (U a' EmptyString E' eq_refl) as [_ ->]. discriminate.
    + destruct (splitRepo_total a t) as (reg & repo & ->).
      exists reg, repo, t. split; [reflexivity|]. split; [discriminate|]. split.
      * intros a' t' E' Ht'. destruct (U a' t' E' Ht') as [_ <-]. now rewrite S.
      * split; [intros ->; now exists a|]. intros [a' E'].
        destruct (U a' EmptyString E' eq_refl) as [_ ->]. reflexivity.
  - rewrite (splitTag_untagged _ C). simpl.
    destruct (splitRepo_total ref "latest") as (reg & repo & ->).
    exists reg, repo, "latest". split; [reflexivity|]. split; [reflexivity|]. split.
    + intros a t -> _. change (a +:+ ":" +:+ t) with (a +:+ String ":" t) in C.
      rewrite mem_byte_self in C. discriminate.
    + split; [discriminate|]. intros [a ->].
      change (a +:+ ":") with (a +:+ String ":" EmptyString) in C.
      rewrite mem_byte_self in C. discriminate.
Qed.

Lemma parseImageRef_tag_witness :
  exists reg repo tag,
    parseImageRef "ghcr.io/org/app:" = Some (reg, repo, tag)
    /\ (mem_byte ":" "ghcr.io/org/app:" = false -> tag = "latest")
    /\ (forall a t, "ghcr.io/org/app:" = a +:+ ":" +:+ t -> mem_byte ":" t = false ->
          tag = if mem_byte "/" t then "latest" else t)
    /\ (tag = EmptyString <-> exists a, "ghcr.io/org/app:" = a +:+ ":").
Proof.
  apply (parseImageRef_tag "ghcr.io/org/app:" "ghcr.io/org/app:" EmptyString).
  - reflexivity.
  - reflexivity.
  - left. reflexivity.
Defined.

End ParseImageRefTheorems.

(** ** parseWWWAuth and the token URL *)

Section Challenge.

Lemma Split_app (x y : string) (sep : ascii) :
  Split (x +:+ String sep y) sep = (Split x sep ++ Split y sep)%list.
Proof.
  induction x as [|c x IH].
  - rewrite append_nil. cbn [Split]. rewrite Ascii.eqb_refl. reflexivity.
  - rewrite append_String. cbn [Split]. rewrite IH.
    destruct (Ascii.eqb c sep); [reflexivity|].
    pose proof (Split_length x sep) as L.
    destruct (Split x sep) as [|p ps]; [simpl in L; lia|reflexivity].
Qed.

Lemma Split_no_sep (s : string) (sep : ascii) :
  mem_byte sep s = false -> Split s sep = [s].
Proof.
  induction s as [|c s IH]; intros H; [reflexivity|].
  rewrite mem_byte_String in H. apply orb_false_elim in H as [H1 H2].
  cbn [Split]. rewrite H1, (IH H2). reflexivity.
Qed.

Lemma HasPrefix_app_sep (x y p : string) (sep : ascii) :
  mem_byte sep p = false -> HasPrefix (x +:+ String sep y) p = HasPrefix x p.
Proof.
  revert x. induction p as [|b p IH]; intros x H; [reflexivity|].
  rewrite mem_byte_String in H. apply orb_false_elim in H as [H1 H2].
  destruct x as [|a x].
  - rewrite append_nil. simpl. rewrite Ascii.eqb_sym, H1. reflexivity.
  - rewrite append_String. simpl. destruct (Ascii.eqb a b); [apply IH; exact H2|reflexivity].
Qed.

Lemma HasPrefix_inv (s p : string) :
  HasPrefix s p = true -> exists r, s = p +:+ r.
Proof.
  revert s. induction p as [|b p IH]; intros s H; [exists s; reflexivity|].
  destruct s as [|a s]; [discriminate|]. simpl in H.
  destruct (Ascii.eqb a b) eqn:E; [|discriminate].
  apply Ascii.eqb_eq in E as ->. destruct (IH s H) as [r ->]. now exists r.
Qed.

Lemma HasPrefix_self (p r : string) : HasPrefix (p +:+ r) p = true.
Proof.
  induction p as [|b p IH]; [reflexivity|].
  rewrite append_String. simpl. now rewrite Ascii.eqb_refl.
Qed.

Lemma substring_drop (p r : string) :
  substring (String.length p) (String.length (p +:+ r) - String.length p)%nat (p +:+ r) = r.
Proof.
  induction p as [|b p IH].
  - rewrite append_nil. simpl. rewrite Nat.sub_0_r. apply substring_all.
  - rewrite append_String. simpl. exact IH.
Qed.

Lemma TrimPrefix_cancel (p r : string) : TrimPrefix (p +:+ r) p = r.
Proof. unfold TrimPrefix. rewrite HasPrefix_self. apply substring_drop. Qed.

Lemma append_assoc (a b c : string) : (a +:+ b) +:+ c = a +:+ (b +:+ c).
Proof. induction a as [|x a IH]; [reflexivity|]. now rewrite !append_String, IH. Qed.

Lemma TrimPrefix_app_sep (x y p : string) (sep : ascii) :
  mem_byte sep p = false ->
  TrimPrefix (x +:+ String sep y) p = TrimPrefix x p +:+ String sep y.
Proof.
  intros H. destruct (HasPrefix x p) eqn:E.
  - destruct (HasPrefix_inv _ _ E) as [r ->].
    rewrite append_assoc, !TrimPrefix_cancel. reflexivity.
  - unfold TrimPrefix. rewrite (HasPrefix_app_sep _ _ _ _ H), E. reflexivity.
Qed.

Lemma parseWWWAuth_range_app (l1 l2 : list string) (result : gmap string string) :
  parseWWWAuth_range (l1 ++ l2)%list result =
  (result' ← parseWWWAuth_range l1 result; parseWWWAuth_range l2 result').
Proof.
  revert result. induction l1 as [|part l1 IH]; intros result; [reflexivity|].
  simpl. destruct (parseWWWAuth_part result part) as [result'|]; simpl; [apply IH|reflexivity].
Qed.

(** The header is cut at every comma, whatever is around it. *)
Lemma parseWWWAuth_comma (x y : string) :
  parseWWWAuth (x +:+ String "," y) =
  (result ← parseWWWAuth x; parseWWWAuth_range (Split y ",") result).
Proof.
  unfold parseWWWAuth.
  rewrite !TrimPrefix_app_sep by reflexivity.
  rewrite Split_app. apply parseWWWAuth_range_app.
Qed.

Lemma parseWWWAuth_part_pair (result : gmap string string) (part k v : string) :
  TrimSpace part = part -> cut part "=" = Some (k, v) ->
  parseWWWAuth_part result part = Some (<[k := Trim v quote]> result).
Proof.
  intros T C. unfold parseWWWAuth_part. rewrite T, SplitN_2, C. reflexivity.
Qed.

Lemma parseWWWAuth_part_total (result : gmap string string) (part : string) :
  is_Some (parseWWWAuth_part result part).
Proof.
  unfold parseWWWAuth_part. rewrite SplitN_2.
  destruct (cut (TrimSpace part) "=") as [[k v]|]; simpl; eauto.
Qed.

Lemma parseWWWAuth_range_total (parts : list string) (result : gmap string string) :
  is_Some (parseWWWAuth_range parts result).
Proof.
  revert result. induction parts as [|part parts IH]; intros result; simpl; [eauto|].
  destruct (parseWWWAuth_part_total result part) as [r ->]. simpl. apply IH.
Qed.

Lemma parseWWWAuth_total (header : string) : is_Some (parseWWWAuth header).
Proof. apply parseWWWAuth_range_total. Qed.

End Challenge.

(** ** Running computations *)

Section Running.

Lemma run_bind {A B} (m : M A) (f : A -> M B) (h : History) :
  (m ≫= f) h = match m h with
               | (Some a, h') => f a h'
               | (None, h') => (None, h')
               end.
Proof. reflexivity. Qed.

Lemma run_ret {A} (a : A) (h : History) : (mret a : M A) h = (Some a, h).
Proof. reflexivity. Qed.

Lemma run_pure {A} (o : option A) (h : History) : pure_ o h = (o, h).
Proof. reflexivity. Qed.

Lemma run_call {A} (e : Event) (answer : History -> A) (h : History) :
  call e answer h = (Some (answer h), (h ++ [e])%list).
Proof. reflexivity. Qed.

End Running.

(** ** setAuth *)

Section Credentials.

Variable lib : Library.

Lemma setAuth_auths_first (req : Request) (registryHost : string)
    (auths : list (string * dockerAuthEntry)) :
  setAuth_auths lib req registryHost auths =
  Some (match head (omap (entry_credential lib registryHost) auths) with
        | Some (username, password) => Return (SetBasicAuth lib req username password)
        | None => Continue
        end).
Proof.
  induction auths as [|[host entry] auths IH]; [reflexivity|].
  cbn [setAuth_auths omap list_omap]. unfold entry_credential at 1. cbn [fst snd].
  destruct (Contains host registryHost && negb (String.eqb (Auth entry) EmptyString));
    [|exact IH].
  destruct (DecodeString lib (Auth entry)) as [decoded|err]; [|exact IH].
  rewrite SplitN_2. destruct (cut decoded ":") as [[username password]|]; [reflexivity|exact IH].
Qed.

Lemma head_app_list {A} (l1 l2 : list A) :
  head (l1 ++ l2)%list = match head l1 with Some x => Some x | None => head l2 end.
Proof. destruct l1; reflexivity. Qed.

Lemma setAuth_resolve (req : Request) (registryHost : string) (pullSecrets : list Secret) :
  setAuth lib req registryHost pullSecrets =
  Some (with_credential lib req (resolve lib registryHost pullSecrets)).
Proof.
  unfold resolve. induction pullSecrets as [|secret rest IH]; [reflexivity|].
  cbn [setAuth map concat]. rewrite omap_app, head_app_list.
  unfold secret_entries at 1.
  destruct (String.eqb (Type_ secret) SecretTypeDockerConfigJson); cbn [negb]; [|exact IH].
  destruct (Data secret !! DockerConfigJsonKey) as [data|]; [|exact IH].
  destruct (Unmarshal_config lib data) as [cfg|err]; [|exact IH].
  rewrite setAuth_auths_first.
  destruct (head (omap (entry_credential lib registryHost) (Auths cfg))) as [[u p]|];
    [reflexivity|exact IH].
Qed.

(** C7. [setAuth] resolves the credential as specified: only secrets of the
    docker-config-json type count; a host key matches when it contains the
    registry host; the first entry, in the order of the secrets and of the
    entries, whose non-empty auth value decodes from base64 and splits at its
    first [':'] into user and password is taken; a secret whose JSON is
    malformed and an entry whose base64 is malformed are passed over and the
    search goes on; when nothing matches the request is left as it is, and
    in no case is there a failure. At the example secrets, the secret of
    another type, the secret with malformed JSON, the entry with malformed
    base64 and the empty entry are passed over and "user:pa:ss" gives the
    user "user" and the password "pa:ss"; for a registry no entry matches the
    request stays without credential. *)
Theorem setAuth_credential (req : Request) (registryHost : string)
    (pullSecrets : list Secret) :
  setAuth lib req registryHost pullSecrets =
  Some (with_credential lib req (resolve lib registryHost pullSecrets))
  /\ setAuth auth_library (head_request nginx_url) "registry-1.docker.io" example_secrets =
     Some (Header_Set (head_request nginx_url) "Authorization" "Basic user:pa:ss")
  /\ setAuth auth_library (head_request nginx_url) "ghcr.io" example_secrets =
     Some (head_request nginx_url).
Proof.
  split; [apply setAuth_resolve|]. split; vm_compute; reflexivity.
Qed.

End Credentials.

(** ** The parts of a challenge *)

Section ChallengeParts.

Lemma parseWWWAuth_part_stores (result : gmap string string) (part : string) :
  parseWWWAuth_part result part =
  Some (match part_pair part with
        | Some (k, v) => <[k := v]> result
        | None => result
        end).
Proof.
  unfold parseWWWAuth_part, part_pair. rewrite SplitN_2.
  destruct (cut (TrimSpace part) "=") as [[k v]|]; reflexivity.
Qed.

Lemma last_value_cons (key part : string) (parts : list string) :
  last_value key (part :: parts) =
  match last_value key parts with
  | Some v => Some v
  | None => pair_value key part
  end.
Proof.
  unfold last_value. cbn [omap list_omap].
  destruct (pair_value key part) as [v|]; [|destruct (last _); reflexivity].
  rewrite last_cons. destruct (last _); reflexivity.
Qed.

(** The loop stores the pairs among the parts, a later one over an earlier
    one with the same key. *)
Lemma parseWWWAuth_range_lookup (parts : list string) (result : gmap string string) :
  exists params,
    parseWWWAuth_range parts result = Some params
    /\ forall key, params !! key = match last_value key parts with
                                   | Some v => Some v
                                   | None => result !! key
                                   end.
Proof.
  revert result. induction parts as [|part parts IH]; intros result.
  - exists result. split; reflexivity.
  - cbn [parseWWWAuth_range]. rewrite parseWWWAuth_part_stores. cbn [mbind option_bind].
    destruct (IH (match part_pair part with
                  | Some (k, v) => <[k := v]> result
                  | None => result
                  end)) as (params & E & L).
    exists params. split; [exact E|]. intros key.
    rewrite L, last_value_cons. destruct (last_value key parts); [reflexivity|].
    unfold pair_value. destruct (part_pair part) as [[k v]|]; [|reflexivity].
    destruct (String.eqb k key) eqn:K.
    + apply String.eqb_eq in K as ->. apply lookup_insert_eq.
    + apply String.eqb_neq in K. apply lookup_insert_ne. exact K.
Qed.

Lemma list_ascii_app (a b : string) :
  list_ascii_of_string (a +:+ b) = list_ascii_of_string a ++ list_ascii_of_string b.
Proof.
  induction a as [|c a IH]; [reflexivity|]. rewrite append_String. simpl. now rewrite IH.
Qed.

Lemma string_of_list_app (l1 l2 : list ascii) :
  string_of_list_ascii (l1 ++ l2) = string_of_list_ascii l1 +:+ string_of_list_ascii l2.
Proof.
  induction l1 as [|c l1 IH]; [reflexivity|]. simpl. now rewrite IH, append_String.
Qed.

Lemma rev_string_app (x y : string) :
  rev_string (x +:+ y) = rev_string y +:+ rev_string x.
Proof. unfold rev_string. now rewrite list_ascii_app, rev_app_distr, string_of_list_app. Qed.

Lemma rev_string_length (s : string) : String.length (rev_string s) = String.length s.
Proof.
  unfold rev_string.
  assert (L : forall l, String.length (string_of_list_ascii l) = length l).
  { induction l as [|c l IH]; simpl; congruence. }
  rewrite L, length_rev. induction s as [|c s IH]; simpl; congruence.
Qed.

Lemma find_ext_in {A} (f g : A -> bool) (l : list A) :
  (forall x, In x l -> f x = g x) -> find f l = find g l.
Proof.
  induction l as [|x l IH]; intros H; [reflexivity|]. simpl.
  rewrite <- (H x) by (left; reflexivity).
  destruct (f x); [reflexivity|]. apply IH. intros y Hy. apply H. right. exact Hy.
Qed.

(** No white-space rune is empty, none has the byte of the double quote. *)
Lemma space_encodings_quote (e : string) :
  In e space_encodings ->
  (1 <= String.length e)%nat /\ mem_byte (ascii_of_nat 34) (rev_string e) = false.
Proof.
  assert (F : forallb (fun e => (1 <=? String.length e)%nat
                                && negb (mem_byte (ascii_of_nat 34) (rev_string e)))
                space_encodings = true) by (vm_compute; reflexivity).
  intros H. pose proof (proj1 (forallb_forall _ _) F e H) as P.
  apply andb_true_iff in P as [P1 P2]. split.
  - apply Nat.leb_le. exact P1.
  - apply negb_true_iff. exact P2.
Qed.

(** The white space at the end of a text is that of what follows its last
    double quote. *)
Lemma trailing_space_after (y a : string) :
  trailing_space (y +:+ String (ascii_of_nat 34) a) = trailing_space a.
Proof.
  unfold trailing_space. f_equal. apply find_ext_in. intros e He.
  destruct (space_encodings_quote e He) as [_ Q].
  change (String (ascii_of_nat 34) a) with (quote +:+ a).
  rewrite !rev_string_app.
  change (rev_string quote) with quote.
  rewrite append_assoc.
  change (quote +:+ rev_string y) with (String (ascii_of_nat 34) (rev_string y)).
  apply HasPrefix_app_sep. exact Q.
Qed.

Lemma trailing_space_bound (a : string) (n : nat) :
  trailing_space a = Some n -> (1 <= n <= String.length a)%nat.
Proof.
  unfold trailing_space. intros H.
  destruct (find _ space_encodings) as [e|] eqn:F; [|discriminate].
  injection H as <-. apply find_some in F as [He P].
  destruct (space_encodings_quote e He) as [L _]. split; [exact L|].
  apply HasPrefix_len in P. unfold len in P. rewrite !rev_string_length in P. lia.
Qed.

Lemma substring_0_app (x s : string) (m : nat) :
  substring 0 (String.length x + m) (x +:+ s) = x +:+ substring 0 m s.
Proof.
  induction x as [|c x IH]; [reflexivity|].
  rewrite !append_String. simpl. now rewrite IH.
Qed.

Lemma substring_0_length (s : string) (m : nat) :
  (m <= String.length s)%nat -> String.length (substring 0 m s) = m.
Proof.
  revert m. induction s as [|c s IH]; intros [|m] H; simpl in *; try reflexivity; [lia|].
  rewrite IH; [reflexivity|lia].
Qed.

Lemma length_app_string (a b : string) :
  String.length (a +:+ b) = (String.length a + String.length b)%nat.
Proof. pose proof (len_app a b) as L. unfold len in L. lia. Qed.

(** Taking the white space off the end of a text stops at its last double
    quote. *)
Lemma trim_right_space_after (y : string) (f : nat) :
  forall (g : nat) (a : string),
    (String.length a <= f)%nat -> (String.length a <= g)%nat ->
    trim_right_space f (y +:+ String (ascii_of_nat 34) a)
    = y +:+ String (ascii_of_nat 34) (trim_right_space g a).
Proof.
  induction f as [|f IH]; intros g a Hf Hg.
  - destruct a as [|c a]; [|simpl in Hf; lia]. destruct g; reflexivity.
  - cbn [trim_right_space]. rewrite trailing_space_after.
    destruct (trailing_space a) as [n|] eqn:T.
    + destruct (trailing_space_bound a n T) as [N1 N2].
      destruct g as [|g]; [lia|]. cbn [trim_right_space]. rewrite T.
      replace (String.length (y +:+ String (ascii_of_nat 34) a) - n)%nat
        with (String.length (y +:+ quote) + (String.length a - n))%nat.
      2:{ rewrite !length_app_string. simpl. lia. }
      change (y +:+ String (ascii_of_nat 34) a) with (y +:+ quote +:+ a).
      rewrite <- append_assoc, substring_0_app, append_assoc.
      change (y +:+ quote +:+ substring 0 (String.length a - n) a)
        with (y +:+ String (ascii_of_nat 34) (substring 0 (String.length a - n) a)).
      apply IH; rewrite substring_0_length; lia.
    + destruct g as [|g]; [reflexivity|]. cbn [trim_right_space]. now rewrite T.
Qed.

Lemma TrimSpace_after (y a : string) :
  leading_space (y +:+ String (ascii_of_nat 34) a) = None ->
  TrimSpace (y +:+ String (ascii_of_nat 34) a)
  = y +:+ String (ascii_of_nat 34) (trim_right_space (String.length a) a).
Proof.
  intros L. unfold TrimSpace.
  assert (E : trim_left_space (String.length (y +:+ String (ascii_of_nat 34) a))
                (y +:+ String (ascii_of_nat 34) a) = y +:+ String (ascii_of_nat 34) a).
  { destruct (String.length _); simpl; [reflexivity|now rewrite L]. }
  rewrite E. apply trim_right_space_after; [|lia].
  rewrite length_app_string. simpl. lia.
Qed.

(** The scope part of a value that is cut after [a] is a pair: its key is
    scope and its value what is kept of [a]. *)
Lemma part_pair_scope (a : string) :
  part_pair ("scope=" +:+ quote +:+ a) = Some ("scope", scope_cut a).
Proof.
  unfold part_pair, scope_cut.
  change ("scope=" +:+ quote +:+ a) with ("scope=" +:+ String (ascii_of_nat 34) a).
  change (quote +:+ a) with (EmptyString +:+ String (ascii_of_nat 34) a).
  rewrite !TrimSpace_after by reflexivity. reflexivity.
Qed.

Lemma pair_value_scope (key a : string) :
  pair_value key ("scope=" +:+ quote +:+ a) =
  if String.eqb "scope" key then Some (scope_cut a) else None.
Proof. unfold pair_value. now rewrite part_pair_scope. Qed.

Lemma trim_right_bytes_none (s : string) (q : ascii) :
  mem_byte q s = false -> trim_right_bytes s (String q EmptyString) = s.
Proof.
  induction s as [|c s IH]; intros H; [reflexivity|].
  rewrite mem_byte_String in H. apply orb_false_elim in H as [H1 H2].
  cbn [trim_right_bytes]. rewrite (IH H2). destruct s as [|d s]; [|reflexivity].
  unfold mem_byte. simpl. now rewrite H1.
Qed.

(** Nothing is taken off a text without double quote and without white
    space at its end. *)
Lemma scope_cut_plain (a : string) :
  mem_byte (ascii_of_nat 34) a = false -> trailing_space a = None -> scope_cut a = a.
Proof.
  intros Q T. unfold scope_cut.
  change (quote +:+ a) with (EmptyString +:+ String (ascii_of_nat 34) a).
  rewrite TrimSpace_after by reflexivity. rewrite append_nil.
  assert (R : trim_right_space (String.length a) a = a).
  { destruct (String.length a); simpl; [reflexivity|now rewrite T]. }
  rewrite R. unfold Trim, quote. cbn [trim_left_bytes].
  change (mem_byte (ascii_of_nat 34) (String (ascii_of_nat 34) EmptyString)) with true.
  cbv iota.
  assert (L : trim_left_bytes a (String (ascii_of_nat 34) EmptyString) = a).
  { destruct a as [|c a]; [reflexivity|]. cbn [trim_left_bytes].
    rewrite mem_byte_String in Q. apply orb_false_elim in Q as [Q1 _].
    unfold mem_byte. simpl. now rewrite Q1. }
  rewrite L. apply trim_right_bytes_none. exact Q.
Qed.

(** A header that goes on, behind a comma, with a scope value cut after
    [a]. *)
Lemma parseWWWAuth_scope_behind (h0 a rest : string) :
  mem_byte "," a = false ->
  exists before params,
    parseWWWAuth h0 = Some before
    /\ parseWWWAuth (h0 +:+ "," +:+ "scope=" +:+ quote +:+ a +:+ "," +:+ rest) = Some params
    /\ forall key,
         params !! key = match last_value key (Split rest ",") with
                         | Some v => Some v
                         | None => <["scope" := scope_cut a]> before !! key
                         end.
Proof.
  intros Ha.
  assert (Hsep : mem_byte "," ("scope=" +:+ quote +:+ a) = false).
  { change ("scope=" +:+ quote +:+ a) with (("scope=" +:+ quote) +:+ a).
    rewrite mem_byte_app, Ha. reflexivity. }
  pose proof (pair_value_scope) as PV. specialize (fun key => PV key a).
  change (h0 +:+ "," +:+ "scope=" +:+ quote +:+ a +:+ "," +:+ rest)
    with (h0 +:+ String "," (("scope=" +:+ quote +:+ a) +:+ String "," rest)).
  set (part := "scope=" +:+ quote +:+ a) in *. clearbody part.
  rewrite parseWWWAuth_comma.
  destruct (parseWWWAuth_total h0) as [before B]. rewrite B. cbn [mbind option_bind].
  rewrite Split_app, (Split_no_sep _ _ Hsep). cbn [app].
  destruct (parseWWWAuth_range_lookup (part :: Split rest ",") before) as (params & E & L).
  exists before, params. split; [reflexivity|]. split; [exact E|].
  intros key. rewrite L, last_value_cons.
  destruct (last_value key (Split rest ",")); [reflexivity|].
  rewrite PV. destruct (String.eqb "scope" key) eqn:K.
  - apply String.eqb_eq in K as <-. now rewrite lookup_insert_eq.
  - apply String.eqb_neq in K. now rewrite lookup_insert_ne.
Qed.

(** A header that starts with a scope value cut after [a]. *)
Lemma parseWWWAuth_scope_first (a rest header : string) :
  In header (scope_first a rest) ->
  mem_byte "," a = false ->
  exists params,
    parseWWWAuth header = Some params
    /\ forall key,
         params !! key = match last_value key (Split rest ",") with
                         | Some v => Some v
                         | None =>
                             <["scope" := scope_cut a]> (∅ : gmap string string) !! key
                         end.
Proof.
  intros Hin Ha.
  assert (Hsep : mem_byte "," ("scope=" +:+ quote +:+ a) = false).
  { change ("scope=" +:+ quote +:+ a) with (("scope=" +:+ quote) +:+ a).
    rewrite mem_byte_app, Ha. reflexivity. }
  pose proof (pair_value_scope) as PV. specialize (fun key => PV key a).
  assert (B : forall p x, HasPrefix ("scope=" +:+ x) (String "b" p) = false) by reflexivity.
  assert (B' : forall p x, HasPrefix ("scope=" +:+ x) (String "B" p) = false) by reflexivity.
  assert (T : TrimPrefix (TrimPrefix header "Bearer ") "bearer "
              = ("scope=" +:+ quote +:+ a) +:+ String "," rest).
  { unfold scope_first in Hin. cbn [map In] in Hin.
    destruct Hin as [<-|[<-|[<-|[]]]].
    - rewrite TrimPrefix_cancel. unfold TrimPrefix. rewrite B. now rewrite !append_assoc.
    - unfold TrimPrefix at 2.
      change (HasPrefix ("bearer " +:+ "scope=" +:+ quote +:+ a +:+ "," +:+ rest) "Bearer ")
        with false.
      cbv iota. rewrite TrimPrefix_cancel. now rewrite !append_assoc.
    - rewrite append_nil. unfold TrimPrefix. rewrite B', B. now rewrite !append_assoc. }
  unfold parseWWWAuth. rewrite T.
  set (part := "scope=" +:+ quote +:+ a) in *. clearbody part.
  rewrite Split_app, (Split_no_sep _ _ Hsep). cbn [app].
  destruct (parseWWWAuth_range_lookup (part :: Split rest ",") ∅) as (params & E & L).
  exists params. split; [exact E|].
  intros key. rewrite L, last_value_cons.
  destruct (last_value key (Split rest ",")); [reflexivity|].
  rewrite PV. destruct (String.eqb "scope" key) eqn:K.
  - apply String.eqb_eq in K as <-. now rewrite lookup_insert_eq.
  - apply String.eqb_neq in K. now rewrite lookup_insert_ne.
Qed.

Lemma tokenURL_of_verbatim (realm : string) (params : gmap string string) :
  tokenURL_of realm params =
  realm
  +:+ (if String.eqb (map_get params "service") EmptyString then EmptyString
       else "?service=" +:+ map_get params "service")
  +:+ (if String.eqb (map_get params "scope") EmptyString then EmptyString
       else (if String.eqb (map_get params "service") EmptyString then "?" else "&")
            +:+ "scope=" +:+ map_get params "scope").
Proof.
  unfold tokenURL_of.
  destruct (String.eqb (map_get params "service") EmptyString);
    destruct (String.eqb (map_get params "scope") EmptyString); simpl;
    rewrite ?append_nil_r, ?append_assoc; reflexivity.
Qed.

(** The request of [fetchBearerToken] is a GET of the token URL. *)
Lemma fetchBearerToken_request (lib : Library) (w : World) (wwwAuth registryHost : string)
    (pullSecrets : list Secret) (h : History) (params : gmap string string) :
  parseWWWAuth wwwAuth = Some params ->
  map_get params "realm" <> EmptyString ->
  NewRequest_error lib MethodGet (tokenURL_of (map_get params "realm") params) = None ->
  snd (fetchBearerToken lib w wwwAuth registryHost pullSecrets h) =
  (h ++ [Do (with_credential lib
               {| Method := MethodGet;
                  URL := tokenURL_of (map_get params "realm") params;
                  Header := ∅ |}
               (resolve lib registryHost pullSecrets))])%list.
Proof.
  intros P R N. unfold fetchBearerToken. rewrite run_bind, run_pure, P.
  apply String.eqb_neq in R. rewrite R.
  unfold NewRequestWithContext. rewrite N.
  rewrite run_bind, run_pure, setAuth_resolve, run_bind.
  unfold DefaultClient_Do. rewrite run_call. cbn [snd].
  destruct (Client_Do w h _) as [resp|err]; [|reflexivity].
  destruct (Body resp) as [body|err]; [|reflexivity].
  destruct (Unmarshal_token lib body) as [tokenResp|err]; [|reflexivity].
  destruct (negb (String.eqb (Token tokenResp) EmptyString)); [reflexivity|].
  destruct (negb (String.eqb (AccessToken tokenResp) EmptyString)); reflexivity.
Qed.

End ChallengeParts.

Section ChallengeTheorems.

(** C10, as the claim states it, fails: a scope value that goes on, behind
    its first comma, with the text of a scope parameter is not parsed to its
    text before that comma but to the later value, and this value is what the
    token URL carries. White space just before the comma is lost as well. *)
Lemma challenge_scope_overwritten :
  parseWWWAuth challenge_scope_twice =
  Some (<["scope" := "evil"]> (<["realm" := "https://auth.x/token"]> ∅))
  /\ snd (fetchBearerToken plain_library silent_world challenge_scope_twice "registry.x" [] [])
     = [Do {| Method := MethodGet; URL := "https://auth.x/token?scope=evil"; Header := ∅ |}]
  /\ (exists params,
        parseWWWAuth ("Bearer realm=" +:+ quote +:+ "r" +:+ quote
                      +:+ "," +:+ "scope=" +:+ quote +:+ "x " +:+ "," +:+ "y" +:+ quote)
        = Some params
        /\ params !! "scope" = Some "x")
  /\ ~ (forall (h0 a b : string) (params : gmap string string),
          mem_byte "," a = false ->
          parseWWWAuth (h0 +:+ "," +:+ "scope=" +:+ quote +:+ a +:+ "," +:+ b +:+ quote)
          = Some params ->
          params !! "scope" = Some a).
Proof.
  assert (P : parseWWWAuth challenge_scope_twice =
              Some (<["scope" := "evil"]> (<["realm" := "https://auth.x/token"]> ∅)))
    by (vm_compute; reflexivity).
  split; [exact P|]. split; [vm_compute; reflexivity|]. split.
  - eexists. split; vm_compute; reflexivity.
  - intros H.
    specialize (H ("Bearer realm=" +:+ quote +:+ "https://auth.x/token" +:+ quote)
                  "repository:a/b:pull" "scope=evil" _ eq_refl P).
    vm_compute in H. discriminate H.
Qed.

(** C10, amended. [parseWWWAuth] cuts the header at every comma, quoted or
    not. Each part that, without the white space around it, reads
    [key=value] stores its value, without the double quotes at its ends,
    under its key; a part without ['='] stores nothing and a later part
    takes the place of an earlier one with the same key. So when the scope
    value has a comma, the scope part ends at the first comma of the value:
    it stores the value cut there, without white space at its end and
    without double quotes at its ends, which is the cut value itself when
    that has no double quote and no white space at its end. What follows
    the comma is read as parts of its own. The parsed scope is the cut value
    unless one of these parts has the key scope, and is the value of the
    last such part if one has. This holds for a scope parameter behind a
    comma and for one at the start of the header, behind "Bearer ",
    "bearer " or nothing. The challenge with scope "repository:a/b:pull,push"
    is parsed to the scope "repository:a/b:pull" and to no other key than
    realm, service and scope. [fetchBearerToken] builds the token URL by
    plain concatenation of the parsed values, nothing being
    percent-encoded, and requests it. *)
Theorem challenge_scope_comma :
  (forall x y : string,
      parseWWWAuth (x +:+ "," +:+ y) =
      (result ← parseWWWAuth x; parseWWWAuth_range (Split y ",") result))
  /\ (forall header : string,
        exists params,
          parseWWWAuth header = Some params
          /\ forall key,
               params !! key
               = last_value key
                   (Split (TrimPrefix (TrimPrefix header "Bearer ") "bearer ") ","))
  /\ (forall h0 a rest : string,
        mem_byte "," a = false ->
        exists before params,
          parseWWWAuth h0 = Some before
          /\ parseWWWAuth (h0 +:+ "," +:+ "scope=" +:+ quote +:+ a +:+ "," +:+ rest)
             = Some params
          /\ params !! "scope"
             = Some (default (scope_cut a) (last_value "scope" (Split rest ",")))
          /\ forall key,
               key <> "scope" ->
               params !! key = match last_value key (Split rest ",") with
                               | Some v => Some v
                               | None => before !! key
                               end)
  /\ (forall a rest header : string,
        In header (scope_first a rest) ->
        mem_byte "," a = false ->
        exists params,
          parseWWWAuth header = Some params
          /\ params !! "scope"
             = Some (default (scope_cut a) (last_value "scope" (Split rest ",")))
          /\ forall key,
               key <> "scope" -> params !! key = last_value key (Split rest ","))
  /\ (forall a : string,
        mem_byte (ascii_of_nat 34) a = false -> trailing_space a = None -> scope_cut a = a)
  /\ parseWWWAuth challenge_pull_push =
     Some (<["scope" := "repository:a/b:pull"]>
             (<["service" := "registry.x"]> (<["realm" := "https://auth.x/token"]> ∅)))
  /\ (forall (realm : string) (params : gmap string string),
        tokenURL_of realm params =
        realm
        +:+ (if String.eqb (map_get params "service") EmptyString then EmptyString
             else "?service=" +:+ map_get params "service")
        +:+ (if String.eqb (map_get params "scope") EmptyString then EmptyString
             else (if String.eqb (map_get params "service") EmptyString then "?" else "&")
                  +:+ "scope=" +:+ map_get params "scope"))
  /\ (forall (lib : Library) (w : World) (wwwAuth registryHost : string)
             (pullSecrets : list Secret) (h : History) (params : gmap string string),
        parseWWWAuth wwwAuth = Some params ->
        map_get params "realm" <> EmptyString ->
        NewRequest_error lib MethodGet (tokenURL_of (map_get params "realm") params) = None ->
        snd (fetchBearerToken lib w wwwAuth registryHost pullSecrets h) =
        (h ++ [Do (with_credential lib
                     {| Method := MethodGet;
                        URL := tokenURL_of (map_get params "realm") params;
                        Header := ∅ |}
                     (resolve lib registryHost pullSecrets))])%list).
Proof.
  split; [exact parseWWWAuth_comma|].
  split; [|split; [|split; [|split; [|split; [|split]]]]].
  - intros header. unfold parseWWWAuth.
    destruct (parseWWWAuth_range_lookup
                (Split (TrimPrefix (TrimPrefix header "Bearer ") "bearer ") ",") ∅)
      as (params & E & L).
    exists params. split; [exact E|]. intros key. rewrite L.
    destruct (last_value key _); [reflexivity|apply lookup_empty].
  - intros h0 a rest Ha.
    destruct (parseWWWAuth_scope_behind h0 a rest Ha) as (before & params & B & E & L).
    exists before, params. split; [exact B|]. split; [exact E|]. split.
    + rewrite L. destruct (last_value "scope" (Split rest ",")); [reflexivity|].
      now rewrite lookup_insert_eq.
    + intros key K. rewrite L. destruct (last_value key (Split rest ",")); [reflexivity|].
      apply lookup_insert_ne. congruence.
  - intros a rest header Hin Ha.
    destruct (parseWWWAuth_scope_first a rest header Hin Ha) as (params & E & L).
    exists params. split; [exact E|]. split.
    + rewrite L. destruct (last_value "scope" (Split rest ",")); [reflexivity|].
      now rewrite lookup_insert_eq.
    + intros key K. rewrite L. destruct (last_value key (Split rest ",")); [reflexivity|].
      rewrite lookup_insert_ne by congruence. apply lookup_empty.
  - exact scope_cut_plain.
  - vm_compute. reflexivity.
  - exact tokenURL_of_verbatim.
  - exact fetchBearerToken_request.
Qed.

Lemma challenge_scope_comma_witness :
  mem_byte "," "repository:a/b:pull" = false
  /\ mem_byte (ascii_of_nat 34) "repository:a/b:pull" = false
  /\ trailing_space "repository:a/b:pull" = None
  /\ last_value "scope" (Split ("push" +:+ quote) ",") = None
  /\ scope_cut "repository:a/b:pull" = "repository:a/b:pull"
  /\ (exists params,
        parseWWWAuth challenge_pull_push = Some params
        /\ params !! "scope" = Some "repository:a/b:pull")
  /\ (exists params,
        parseWWWAuth challenge_scope_twice = Some params
        /\ params !! "scope" = Some "evil")
  /\ (exists params,
        parseWWWAuth ("scope=" +:+ quote +:+ "repository:a/b:pull" +:+ "," +:+ "push" +:+ quote)
        = Some params
        /\ params !! "scope" = Some "repository:a/b:pull"
        /\ params !! "realm" = None)
  /\ snd (fetchBearerToken plain_library silent_world challenge_pull_push "registry.x" [] []) =
     [Do {| Method := MethodGet;
            URL := "https://auth.x/token?service=registry.x&scope=repository:a/b:pull";
            Header := ∅ |}].
Proof.
  destruct challenge_scope_comma as (_ & _ & Hbehind & Hfirst & Hplain & Hparsed & _ & Hurl).
  split; [reflexivity|]. split; [reflexivity|]. split; [reflexivity|].
  split; [reflexivity|]. split; [apply Hplain; reflexivity|]. split; [|split; [|split]].
  - destruct (Hbehind challenge_realm_service "repository:a/b:pull" ("push" +:+ quote) eq_refl)
      as (before & params & _ & E & S & _).
    exists params. split; [exact E|]. rewrite S. reflexivity.
  - destruct (Hbehind ("Bearer realm=" +:+ quote +:+ "https://auth.x/token" +:+ quote)
                "repository:a/b:pull" ("scope=evil" +:+ quote) eq_refl)
      as (before & params & _ & E & S & _).
    exists params. split; [exact E|]. rewrite S. reflexivity.
  - destruct (Hfirst "repository:a/b:pull" ("push" +:+ quote) _
                (or_intror (or_intror (or_introl eq_refl))) eq_refl)
      as (params & E & S & K).
    exists params. split; [exact E|]. split.
    + rewrite S. reflexivity.
    + rewrite K by discriminate. reflexivity.
  - apply (Hurl plain_library silent_world challenge_pull_push "registry.x" [] []
             _ Hparsed); [discriminate|reflexivity].
Defined.

End ChallengeTheorems.

(** ** GetRemoteDigest *)

Section Digest.

Variable lib : Library.
Variable w : World.

(** [fetchBearerToken] does not panic and sends at most one request, a GET. *)
Lemma fetchBearerToken_run (wwwAuth registryHost : string) (pullSecrets : list Secret)
    (h : History) :
  exists r new,
    fetchBearerToken lib w wwwAuth registryHost pullSecrets h = (Some r, h ++ new)
    /\ (new = [] \/ exists req, new = [Do req] /\ Method req = MethodGet).
Proof.
  unfold fetchBearerToken. rewrite run_bind, run_pure.
  destruct (parseWWWAuth_total wwwAuth) as [params ->].
  destruct (String.eqb (map_get params "realm") EmptyString).
  { exists (Err (NoRealm wwwAuth)), []. rewrite app_nil_r. auto. }
  unfold NewRequestWithContext.
  destruct (NewRequest_error lib MethodGet _) as [err|].
  { exists (Err err), []. rewrite app_nil_r. auto. }
  rewrite run_bind, run_pure, setAuth_resolve, run_bind.
  unfold DefaultClient_Do. rewrite run_call.
  set (req := with_credential lib _ _).
  assert (G : Method req = MethodGet).
  { unfold req, with_credential. destruct (resolve lib registryHost pullSecrets) as [[u p]|]; reflexivity. }
  assert (R : forall r : Result string,
             exists r0 new, (Some r, h ++ [Do req]) = (Some r0, h ++ new)
               /\ (new = [] \/ exists req0, new = [Do req0] /\ Method req0 = MethodGet)).
  { intros r. exists r, [Do req]. split; [reflexivity|]. right. eauto. }
  destruct (Client_Do w h req) as [resp|err]; [|apply R].
  destruct (Body resp) as [body|err]; [|apply R].
  destruct (Unmarshal_token lib body) as [tokenResp|err]; [|apply R].
  destruct (negb (String.eqb (Token tokenResp) EmptyString)); [apply R|].
  destruct (negb (String.eqb (AccessToken tokenResp) EmptyString)); apply R.
Qed.

(** [GetRemoteDigest], step by step. *)
Lemma GetRemoteDigest_steps (image : string) (pullSecrets : list Secret) (h : History)
    (reg repo tag : string) :
  parseImageRef image = Some (reg, repo, tag) ->
  GetRemoteDigest lib w image pullSecrets h =
  let url := manifestURL reg repo tag in
  match NewRequest_error lib MethodHead url with
  | Some err => (Some (Err err), h)
  | None =>
      let req := firstRequest lib reg url pullSecrets in
      match Client_Do w h req with
      | Err err => (Some (Err (Head url err)), h ++ [Do req])
      | Ok resp =>
          if StatusCode resp =? StatusUnauthorized then
            match fetchBearerToken lib w (Header_Get (RespHeader resp) "Www-Authenticate")
                    reg pullSecrets (h ++ [Do req]) with
            | (Some (Ok token), h1) =>
                let req2 := retryRequest url token in
                (Some (match Client_Do w h1 req2 with
                       | Err err => Err (HeadAuthed url err)
                       | Ok resp2 => digestOf url resp2
                       end), h1 ++ [Do req2])
            | (Some (Err err), h1) => (Some (Err (FetchingBearerToken err)), h1)
            | (None, h1) => (None, h1)
            end
          else (Some (digestOf url resp), h ++ [Do req])
      end
  end.
Proof.
  intros P. unfold GetRemoteDigest. rewrite run_bind, run_pure, P. cbv beta iota zeta.
  unfold NewRequestWithContext.
  destruct (NewRequest_error lib MethodHead (manifestURL reg repo tag)) as [err|];
    [reflexivity|].
  rewrite run_bind, run_pure, setAuth_resolve, run_bind.
  unfold DefaultClient_Do. rewrite run_call. fold (firstRequest lib reg (manifestURL reg repo tag) pullSecrets).
  destruct (Client_Do w h _) as [resp|err]; [|reflexivity].
  destruct (StatusCode resp =? StatusUnauthorized); [|reflexivity].
  rewrite run_bind.
  destruct (fetchBearerToken lib w _ reg pullSecrets _) as [[[token|err]|] h1]; try reflexivity.
  rewrite run_bind, run_pure, run_bind, run_call. fold (retryRequest (manifestURL reg repo tag) token).
  destruct (Client_Do w h1 _); reflexivity.
Qed.

Lemma heads_app (url : string) (a b : list Event) :
  heads url (a ++ b) = (heads url a + heads url b)%nat.
Proof. unfold heads. now rewrite List.filter_app, length_app. Qed.

Lemma heads_firstRequest (reg url : string) (pullSecrets : list Secret) :
  heads url [Do (firstRequest lib reg url pullSecrets)] = 1%nat.
Proof.
  unfold heads, firstRequest, with_credential. simpl.
  destruct (resolve lib reg pullSecrets) as [[u p]|]; simpl; now rewrite String.eqb_refl.
Qed.

Lemma heads_retryRequest (url token : string) : heads url [Do (retryRequest url token)] = 1%nat.
Proof. unfold heads. simpl. now rewrite String.eqb_refl. Qed.

Lemma heads_get (url : string) (new : list Event) :
  new = [] \/ (exists req, new = [Do req] /\ Method req = MethodGet) -> heads url new = 0%nat.
Proof.
  intros [->|(req & -> & G)]; [reflexivity|]. unfold heads. simpl. rewrite G. reflexivity.
Qed.

Lemma digestOf_status (url : string) (resp : Response) :
  StatusCode resp <> StatusOK ->
  digestOf url resp = Err (UnexpectedStatus (StatusCode resp) url).
Proof.
  intros H. unfold digestOf. apply Z.eqb_neq in H. rewrite H. reflexivity.
Qed.

Lemma digestOf_Ok (url : string) (resp : Response) (d : string) :
  digestOf url resp = Ok d <->
  StatusCode resp = StatusOK
  /\ Header_Get (RespHeader resp) "Docker-Content-Digest" = d /\ d <> EmptyString.
Proof.
  unfold digestOf. destruct (StatusCode resp =? StatusOK) eqn:S; simpl.
  - apply Z.eqb_eq in S.
    destruct (String.eqb (Header_Get (RespHeader resp) "Docker-Content-Digest") EmptyString) eqn:D.
    + apply String.eqb_eq in D. split; [discriminate|]. intros (_ & <- & N). contradiction.
    + apply String.eqb_neq in D. split.
      * intros [= <-]. auto.
      * intros (_ & <- & _). reflexivity.
  - apply Z.eqb_neq in S. split; [discriminate|]. intros (E & _). contradiction.
Qed.

(** C6. [GetRemoteDigest] never panics and sends at most two HEAD requests
    for the manifest. A transport failure of the first one is returned at
    once, nothing more being sent. An answer other than 401 is final. After a
    401 the token is fetched and, if that succeeds, the request is sent once
    more with the bearer token, which makes two HEAD requests, and that
    answer is final whatever its status, a second 401 included. A final
    status other than 200 is the error with that status and the URL; the
    result is a digest only when the final status is 200 and the
    Docker-Content-Digest header is not empty, and it is that header: the
    body of the response plays no part. *)
Theorem GetRemoteDigest_protocol (image : string) (pullSecrets : list Secret) (h : History) :
  exists reg repo tag,
    parseImageRef image = Some (reg, repo, tag) /\
    let url := manifestURL reg repo tag in
    let req := firstRequest lib reg url pullSecrets in
    let run := GetRemoteDigest lib w image pullSecrets h in
    is_Some (fst run)
    /\ (exists new, snd run = h ++ new /\ (heads url new <= 2)%nat)
    /\ (forall err, NewRequest_error lib MethodHead url = Some err ->
          run = (Some (Err err), h))
    /\ (NewRequest_error lib MethodHead url = None ->
        (forall err, Client_Do w h req = Err err ->
           run = (Some (Err (Head url err)), h ++ [Do req]))
        /\ (forall resp, Client_Do w h req = Ok resp ->
              StatusCode resp <> StatusUnauthorized ->
              run = (Some (digestOf url resp), h ++ [Do req]))
        /\ (forall resp, Client_Do w h req = Ok resp ->
              StatusCode resp = StatusUnauthorized ->
              exists t h1,
                fetchBearerToken lib w (Header_Get (RespHeader resp) "Www-Authenticate")
                  reg pullSecrets (h ++ [Do req]) = (Some t, h1)
                /\ match t with
                   | Err err => run = (Some (Err (FetchingBearerToken err)), h1)
                   | Ok token =>
                       let req2 := retryRequest url token in
                       run = (Some (match Client_Do w h1 req2 with
                                    | Err err => Err (HeadAuthed url err)
                                    | Ok resp2 => digestOf url resp2
                                    end), h1 ++ [Do req2])
                       /\ (exists new, snd run = h ++ new /\ heads url new = 2%nat)
                   end))
    /\ (forall resp, StatusCode resp <> StatusOK ->
          digestOf url resp = Err (UnexpectedStatus (StatusCode resp) url))
    /\ (forall resp d,
          digestOf url resp = Ok d <->
          StatusCode resp = StatusOK
          /\ Header_Get (RespHeader resp) "Docker-Content-Digest" = d /\ d <> EmptyString)
    /\ (forall resp body,
          digestOf url {| StatusCode := StatusCode resp; RespHeader := RespHeader resp;
                          Body := body |} = digestOf url resp)
    /\ (forall d, fst run = Some (Ok d) -> exists resp, digestOf url resp = Ok d).
Proof.
  destruct (parseImageRef_is_Some image) as (reg & repo & tag & P).
  exists reg, repo, tag. split; [exact P|]. intros url req run.
  pose proof (GetRemoteDigest_steps image pullSecrets h reg repo tag P) as E.
  cbv zeta in E. fold url in E. fold req in E. fold run in E.
  assert (H1 : heads url [Do req] = 1%nat) by apply heads_firstRequest.
  split; [|split; [|split; [|split; [|split; [|split; [|split]]]]]].
  - rewrite E. destruct (NewRequest_error lib MethodHead url); [simpl; eauto|].
    destruct (Client_Do w h req) as [resp|err]; [|simpl; eauto].
    destruct (StatusCode resp =? StatusUnauthorized); [|simpl; eauto].
    destruct (fetchBearerToken_run (Header_Get (RespHeader resp) "Www-Authenticate")
                reg pullSecrets (h ++ [Do req])) as (t & new & -> & _).
    destruct t; simpl; eauto.
  - rewrite E. destruct (NewRequest_error lib MethodHead url).
    { exists []. rewrite app_nil_r. split; [reflexivity|]. unfold heads. simpl. lia. }
    destruct (Client_Do w h req) as [resp|err];
      [|exists [Do req]; split; [reflexivity|rewrite H1; lia]].
    destruct (StatusCode resp =? StatusUnauthorized);
      [|exists [Do req]; split; [reflexivity|rewrite H1; lia]].
    destruct (fetchBearerToken_run (Header_Get (RespHeader resp) "Www-Authenticate")
                reg pullSecrets (h ++ [Do req])) as (t & new & -> & G).
    apply (heads_get url) in G. destruct t as [token|err]; cbn [snd].
    + exists ([Do req] ++ new ++ [Do (retryRequest url token)]).
      split; [now rewrite <- !app_assoc|].
      rewrite !heads_app, H1, G, heads_retryRequest. lia.
    + exists ([Do req] ++ new). split; [now rewrite <- app_assoc|].
      rewrite heads_app, H1, G. lia.
  - intros err N. rewrite E, N. reflexivity.
  - intros N. rewrite N in E. split; [|split].
    + intros err D. rewrite E, D. reflexivity.
    + intros resp D S. rewrite E, D. apply Z.eqb_neq in S. rewrite S. reflexivity.
    + intros resp D S. rewrite D in E. apply Z.eqb_eq in S. rewrite S in E.
      destruct (fetchBearerToken_run (Header_Get (RespHeader resp) "Www-Authenticate")
                  reg pullSecrets (h ++ [Do req])) as (t & new & F & G).
      exists t, ((h ++ [Do req]) ++ new). split; [exact F|].
      rewrite F in E. destruct t as [token|err]; [|exact E].
      split; [exact E|]. rewrite E. cbn [snd].
      exists ([Do req] ++ new ++ [Do (retryRequest url token)]).
      split; [now rewrite <- !app_assoc|].
      apply (heads_get url) in G. rewrite !heads_app, H1, G, heads_retryRequest. reflexivity.
  - intros resp. apply digestOf_status.
  - intros resp d. apply digestOf_Ok.
  - reflexivity.
  - intros d R. rewrite E in R.
    destruct (NewRequest_error lib MethodHead url); [discriminate|].
    destruct (Client_Do w h req) as [resp|err]; [|discriminate].
    destruct (StatusCode resp =? StatusUnauthorized).
    + destruct (fetchBearerToken lib w _ reg pullSecrets _) as [[[token|err]|] h1];
        try discriminate.
      cbn [fst] in R. destruct (Client_Do w h1 _) as [resp2|err]; [|discriminate].
      exists resp2. now injection R.
    + exists resp. now injection R.
Qed.

End Digest.

(** ** shouldDeletePod *)

Section Staleness.

Variable lib : Library.
Variable w : World.

(** [GetRemoteDigest] does not panic, and all it does is send requests. *)
Lemma GetRemoteDigest_returns (image : string) (pullSecrets : list Secret) (h : History) :
  exists r new,
    GetRemoteDigest lib w image pullSecrets h = (Some r, h ++ new)
    /\ forallb is_do new = true.
Proof.
  destruct (parseImageRef_is_Some image) as (reg & repo & tag & P).
  rewrite (GetRemoteDigest_steps lib w image pullSecrets h reg repo tag P). cbv zeta.
  destruct (NewRequest_error lib MethodHead _).
  { eexists _, []. rewrite app_nil_r. split; reflexivity. }
  destruct (Client_Do w h _) as [resp|err]; [|eexists _, [_]; split; reflexivity].
  destruct (StatusCode resp =? StatusUnauthorized); [|eexists _, [_]; split; reflexivity].
  match goal with |- context [fetchBearerToken lib w ?a ?b ?c ?d] =>
    destruct (fetchBearerToken_run lib w a b c d) as (t & new & -> & G) end.
  assert (D : forallb is_do new = true).
  { destruct G as [->|(req & -> & _)]; reflexivity. }
  destruct t as [token|err].
  - eexists _, ([_] ++ new ++ [_]). split; [now rewrite <- !app_assoc|].
    rewrite !forallb_app, D. reflexivity.
  - eexists _, ([_] ++ new). split; [now rewrite <- !app_assoc|].
    rewrite forallb_app, D. reflexivity.
Qed.

(** One round of the loop, step by step. *)
Lemma shouldDeletePod_body_steps (pod : Pod) (pullSecrets : list Secret) (i : nat)
    (container : Container) (h : History) :
  shouldDeletePod_body lib w pod pullSecrets (Z.of_nat i) container h =
  if applicable container then
    match GetRemoteDigest lib w (Image container) pullSecrets h with
    | (Some (Ok remoteDigest), h') =>
        (Some (if mismatch pod i remoteDigest then Return true else Continue), h')
    | (Some (Err _), h') => (Some Continue, h')
    | (None, h') => (None, h')
    end
  else (Some Continue, h).
Proof.
  unfold shouldDeletePod_body, applicable.
  destruct (String.eqb (ImagePullPolicy container) PullAlways); cbn [negb andb]; [|reflexivity].
  rewrite run_bind, run_pure.
  destruct (isLatestTag_total (Image container)) as [latest ->].
  destruct latest; cbn [negb]; [|reflexivity].
  rewrite run_bind.
  destruct (GetRemoteDigest lib w (Image container) pullSecrets h) as [[[remote|err]|] h'];
    try reflexivity.
  unfold mismatch.
  destruct (Z.of_nat i >=? Z.of_nat (length (ContainerStatuses (Status pod)))) eqn:G.
  - rewrite lookup_ge_None_2; [reflexivity|]. apply Z.geb_le in G. lia.
  - assert (L : (i < length (ContainerStatuses (Status pod)))%nat).
    { destruct (Z.geb_spec (Z.of_nat i) (Z.of_nat (length (ContainerStatuses (Status pod)))));
        [discriminate|lia]. }
    destruct (lookup_lt_is_Some_2 _ _ L) as [status S].
    rewrite run_bind, run_pure. unfold at_index.
    rewrite (proj2 (Z.leb_le 0 (Z.of_nat i))) by lia. rewrite Nat2Z.id, S.
    rewrite run_bind, run_pure.
    destruct (extractDigest_total (ImageID status)) as [running ->].
    destruct (String.eqb running EmptyString); cbn [negb andb]; [reflexivity|].
    destruct (String.eqb remote running); cbn [negb].
    + rewrite run_bind, run_pure. destruct (short_total running) as [? ->]. reflexivity.
    + rewrite run_bind, run_pure. destruct (short_total running) as [? ->].
      rewrite run_bind, run_pure. destruct (short_total remote) as [? ->]. reflexivity.
Qed.

Lemma mismatch_true (pod : Pod) (i : nat) (remoteDigest : string) :
  mismatch pod i remoteDigest = true <->
  exists status runningDigest,
    ContainerStatuses (Status pod) !! i = Some status
    /\ extractDigest (ImageID status) = Some runningDigest
    /\ runningDigest <> EmptyString
    /\ remoteDigest <> runningDigest.
Proof.
  unfold mismatch. split.
  - destruct (ContainerStatuses (Status pod) !! i) as [status|]; [|discriminate].
    destruct (extractDigest (ImageID status)) as [running|] eqn:E; [|discriminate].
    intros H. apply andb_true_iff in H as [H1 H2].
    apply negb_true_iff in H1, H2. apply String.eqb_neq in H1, H2.
    exists status, running. auto.
  - intros (status & running & -> & -> & H1 & H2).
    apply String.eqb_neq in H1, H2. now rewrite H1, H2.
Qed.

Lemma applicable_true (container : Container) :
  applicable container = true <->
  ImagePullPolicy container = PullAlways /\ isLatestTag (Image container) = Some true.
Proof.
  unfold applicable. rewrite andb_true_iff, String.eqb_eq.
  destruct (isLatestTag (Image container)) as [[|]|]; intuition congruence.
Qed.

(** A round either finds the container stale and answers true, or goes on. *)
Lemma shouldDeletePod_body_cases (pod : Pod) (pullSecrets : list Secret) (i : nat)
    (container : Container) (h : History) :
  Containers (Spec pod) !! i = Some container ->
  (stale_at lib w pod pullSecrets i h
   /\ exists h', shouldDeletePod_body lib w pod pullSecrets (Z.of_nat i) container h
                 = (Some (Return true), h'))
  \/ (~ stale_at lib w pod pullSecrets i h
      /\ exists h', shouldDeletePod_body lib w pod pullSecrets (Z.of_nat i) container h
                    = (Some Continue, h')).
Proof.
  intros C. rewrite shouldDeletePod_body_steps.
  destruct (applicable container) eqn:A.
  - apply applicable_true in A as [A1 A2].
    destruct (GetRemoteDigest_returns (Image container) pullSecrets h) as (r & new & G & _).
    rewrite G. destruct r as [remote|err].
    + destruct (mismatch pod i remote) eqn:Mm.
      * left. split; [|eauto]. apply mismatch_true in Mm as (status & running & S1 & S2 & S3 & S4).
        exists container, remote, status, running. rewrite G. auto 10.
      * right. split; [|eauto].
        intros (c' & remote' & status & running & C' & _ & _ & G' & S1 & S2 & S3 & S4).
        rewrite C in C'. injection C' as <-. rewrite G in G'. injection G' as <-.
        assert (Mt : mismatch pod i remote = true) by (apply mismatch_true; eauto 10).
        congruence.
    + right. split; [|eauto].
      intros (c' & remote' & status & running & C' & _ & _ & G' & _).
      rewrite C in C'. injection C' as <-. rewrite G in G'. discriminate.
  - right. split; [|eauto].
    intros (c' & remote' & status & running & C' & P1 & P2 & _).
    rewrite C in C'. injection C' as <-.
    assert (At : applicable container = true) by (apply applicable_true; auto).
    congruence.
Qed.

Lemma reaches_functional (pod : Pod) (pullSecrets : list Secret) (h0 : History)
    (i : nat) (h1 h2 : History) :
  reaches lib w pod pullSecrets h0 i h1 -> reaches lib w pod pullSecrets h0 i h2 -> h1 = h2.
Proof.
  intros R1. revert h2. induction R1 as [|i h h' c R1 IH C B]; intros h2 R2.
  - inversion R2. reflexivity.
  - inversion R2 as [|i' g g' c' R2' C' B']; subst.
    specialize (IH g R2'). subst g. rewrite C in C'. injection C' as <-.
    rewrite B in B'. now injection B'.
Qed.

(** Whatever is reached was reached through rounds that went on. *)
Lemma reaches_passed (pod : Pod) (pullSecrets : list Secret) (h0 : History)
    (k : nat) (h : History) :
  reaches lib w pod pullSecrets h0 k h ->
  forall i hi, (i < k)%nat -> reaches lib w pod pullSecrets h0 i hi ->
    ~ stale_at lib w pod pullSecrets i hi.
Proof.
  induction 1 as [|k h h' c R IH C B]; intros i hi L Ri; [lia|].
  destruct (decide (i = k)) as [->|N].
  - rewrite (reaches_functional _ _ _ _ _ _ Ri R).
    destruct (shouldDeletePod_body_cases pod pullSecrets k c h C) as [[_ [g E]]|[S _]];
      [rewrite B in E; discriminate|exact S].
  - apply (IH i hi); [lia|exact Ri].
Qed.

Lemma shouldDeletePod_range_spec (pod : Pod) (pullSecrets : list Secret) (h0 : History)
    (containers : list Container) (k : nat) (h : History) :
  reaches lib w pod pullSecrets h0 k h ->
  (forall j, containers !! j = Containers (Spec pod) !! (k + j)%nat) ->
  exists b h',
    shouldDeletePod_range lib w pod pullSecrets (Z.of_nat k) containers h = (Some b, h')
    /\ (b = true <->
        exists i hi, reaches lib w pod pullSecrets h0 i hi /\ stale_at lib w pod pullSecrets i hi).
Proof.
  revert k h. induction containers as [|c rest IH]; intros k h R Hcs.
  - exists false, h. split; [reflexivity|]. split; [discriminate|].
    intros (i & hi & Ri & S). exfalso.
    destruct (decide (i < k)%nat) as [L|L].
    + exact (reaches_passed _ _ _ _ _ R i hi L Ri S).
    + destruct S as (c & _ & _ & _ & C & _).
      assert (Hn : Containers (Spec pod) !! i = None).
      { replace i with (k + (i - k))%nat by lia. rewrite <- Hcs. reflexivity. }
      congruence.
  - assert (C : Containers (Spec pod) !! k = Some c).
    { rewrite <- (Nat.add_0_r k). rewrite <- Hcs. reflexivity. }
    cbn [shouldDeletePod_range]. rewrite run_bind.
    destruct (shouldDeletePod_body_cases pod pullSecrets k c h C) as [[St [h' B]]|[St [h' B]]];
      rewrite B.
    + exists true, h'. split; [reflexivity|]. split; [|reflexivity]. intros _. eauto.
    + replace (Z.of_nat k + 1) with (Z.of_nat (S k)) by lia.
      apply IH.
      * eapply reaches_next; eauto.
      * intros j. change (rest !! j) with ((c :: rest) !! Datatypes.S j).
        rewrite Hcs. f_equal. lia.
Qed.

Lemma stale_at_steady (pod : Pod) (pullSecrets : list Secret) (i : nat) (h h' : History) :
  steady lib w pod pullSecrets -> stale_at lib w pod pullSecrets i h -> stale_at lib w pod pullSecrets i h'.
Proof.
  intros St (c & remote & status & running & C & P & L & G & R).
  exists c, remote, status, running. repeat split; try tauto.
  rewrite <- G. apply St. apply list_elem_of_In. eapply list_elem_of_lookup_2; eauto.
Qed.

(** The loop comes to the container at [i] unless it found one stale before. *)
Lemma reaches_or_stale (pod : Pod) (pullSecrets : list Secret) (h0 : History) (i : nat) :
  (i <= length (Containers (Spec pod)))%nat ->
  (exists h, reaches lib w pod pullSecrets h0 i h)
  \/ (exists j hj, (j < i)%nat /\ reaches lib w pod pullSecrets h0 j hj
                   /\ stale_at lib w pod pullSecrets j hj).
Proof.
  induction i as [|i IH]; intros L; [left; exists h0; constructor|].
  destruct IH as [[h R]|(j & hj & Lj & R & St)]; [lia| |right; exists j, hj; split; [lia|auto]].
  destruct (lookup_lt_is_Some_2 (Containers (Spec pod)) i) as [c C]; [lia|].
  destruct (shouldDeletePod_body_cases pod pullSecrets i c h C) as [[St _]|[_ [h' B]]].
  - right. exists i, h. split; [lia|auto].
  - left. exists h'. eapply reaches_next; eauto.
Qed.

Lemma shouldDeletePod_body_events (pod : Pod) (pullSecrets : list Secret) (i : nat)
    (container : Container) (h : History) :
  exists f new,
    shouldDeletePod_body lib w pod pullSecrets (Z.of_nat i) container h = (Some f, h ++ new)
    /\ forallb is_do new = true
    /\ (applicable container = false -> new = []).
Proof.
  rewrite shouldDeletePod_body_steps. destruct (applicable container).
  - destruct (GetRemoteDigest_returns (Image container) pullSecrets h) as (r & new & -> & D).
    destruct r; eexists _, new; repeat split; auto; discriminate.
  - exists Continue, []. rewrite app_nil_r. auto.
Qed.

Lemma shouldDeletePod_range_events (pod : Pod) (pullSecrets : list Secret)
    (containers : list Container) (k : nat) (h : History) :
  exists b new,
    shouldDeletePod_range lib w pod pullSecrets (Z.of_nat k) containers h = (Some b, h ++ new)
    /\ forallb is_do new = true.
Proof.
  revert k h. induction containers as [|c rest IH]; intros k h.
  - exists false, []. rewrite app_nil_r. auto.
  - cbn [shouldDeletePod_range]. rewrite run_bind.
    destruct (shouldDeletePod_body_events pod pullSecrets k c h) as (f & new & -> & D & _).
    destruct f as [|b].
    + replace (Z.of_nat k + 1) with (Z.of_nat (S k)) by lia.
      destruct (IH (Datatypes.S k) (h ++ new)) as (b & new' & -> & D').
      exists b, (new ++ new'). rewrite app_assoc. split; [reflexivity|].
      rewrite forallb_app, D, D'. reflexivity.
    + exists b, new. auto.
Qed.

End Staleness.

Section StalenessTheorems.

Variable lib : Library.
Variable w : World.

Lemma Reconcile_pod_run (pullSecrets : list Secret) (pod : Pod) (h : History) :
  exists new,
    Reconcile_pod lib w pullSecrets pod h = (Some tt, h ++ new)
    /\ (In (DeletePod (Pod_Namespace pod) (Pod_Name pod)) new <->
        Phase (Status pod) = PodRunning
        /\ fst (shouldDeletePod lib w pod pullSecrets h) = Some true).
Proof.
  unfold Reconcile_pod.
  destruct (String.eqb (Phase (Status pod)) PodRunning) eqn:P; cbn [negb].
  - apply String.eqb_eq in P. rewrite run_bind. unfold shouldDeletePod.
    destruct (shouldDeletePod_range_events lib w pod pullSecrets (Containers (Spec pod)) O h)
      as (b & new & E & D).
    change (Z.of_nat 0) with 0 in E. rewrite E. cbn [fst].
    assert (N : ~ In (DeletePod (Pod_Namespace pod) (Pod_Name pod)) new).
    { intros I. rewrite forallb_forall in D. specialize (D _ I). discriminate. }
    destruct b.
    + rewrite run_bind, run_call. exists (new ++ [DeletePod (Pod_Namespace pod) (Pod_Name pod)]).
      rewrite app_assoc. split; [reflexivity|]. rewrite in_app_iff. simpl. tauto.
    + exists new. split; [reflexivity|]. split; [tauto|]. intros [_ F]. discriminate.
  - apply String.eqb_neq in P. exists []. rewrite app_nil_r.
    split; [reflexivity|]. simpl. tauto.
Qed.

(** C1. [shouldDeletePod] never panics, and it answers true exactly when
    the loop comes to a container with a confirmed digest mismatch: pull
    policy Always, an image [isLatestTag] accepts, a remote digest that was
    obtained, a status entry at the container's index, and a running digest
    that is not empty and differs, byte for byte, from the remote one. A
    container without all of that (its lookup failed, its status or its
    digest is missing) is passed over. When the registry answers the
    lookups of the pod alike at every history, the answer is true exactly
    when some container of the pod has such a mismatch. [Reconcile] asks for
    the deletion of a pod exactly when the pod is running and
    [shouldDeletePod] answers true. *)
Theorem shouldDeletePod_confirmed_mismatch (pod : Pod) (pullSecrets : list Secret)
    (h0 : History) :
  (exists b h',
      shouldDeletePod lib w pod pullSecrets h0 = (Some b, h')
      /\ (b = true <->
          exists i h, reaches lib w pod pullSecrets h0 i h
                      /\ stale_at lib w pod pullSecrets i h))
  /\ (forall i container h,
        Containers (Spec pod) !! i = Some container ->
        ~ stale_at lib w pod pullSecrets i h ->
        exists h', shouldDeletePod_body lib w pod pullSecrets (Z.of_nat i) container h
                   = (Some Continue, h'))
  /\ (steady lib w pod pullSecrets ->
      (fst (shouldDeletePod lib w pod pullSecrets h0) = Some true <->
       exists i, stale_at lib w pod pullSecrets i h0))
  /\ (exists new,
        Reconcile_pod lib w pullSecrets pod h0 = (Some tt, h0 ++ new)
        /\ (In (DeletePod (Pod_Namespace pod) (Pod_Name pod)) new <->
            Phase (Status pod) = PodRunning
            /\ fst (shouldDeletePod lib w pod pullSecrets h0) = Some true)).
Proof.
  assert (Sp : exists b h',
             shouldDeletePod lib w pod pullSecrets h0 = (Some b, h')
             /\ (b = true <->
                 exists i h, reaches lib w pod pullSecrets h0 i h
                             /\ stale_at lib w pod pullSecrets i h)).
  { apply (shouldDeletePod_range_spec lib w pod pullSecrets h0 (Containers (Spec pod)) O h0).
    - constructor.
    - reflexivity. }
  split; [exact Sp|]. split; [|split].
  - intros i c h C N.
    destruct (shouldDeletePod_body_cases lib w pod pullSecrets i c h C) as [[S _]|[_ E]];
      [contradiction|exact E].
  - intros St. destruct Sp as (b & h' & -> & I). cbn [fst]. split.
    + intros [= ->]. destruct (proj1 I eq_refl) as (i & h & _ & S).
      exists i. exact (stale_at_steady lib w pod pullSecrets i h h0 St S).
    + intros [i S]. f_equal. apply I.
      assert (L : (i <= length (Containers (Spec pod)))%nat).
      { destruct S as (c & _ & _ & _ & C & _). apply lookup_lt_Some in C. lia. }
      destruct (reaches_or_stale lib w pod pullSecrets h0 i L) as [[h R]|(j & hj & _ & R & Sj)].
      * exists i, h. split; [exact R|].
        exact (stale_at_steady lib w pod pullSecrets i h0 h St S).
      * exists j, hj. auto.
  - apply Reconcile_pod_run.
Qed.

(** C9. A container with pull policy Always and an image [isLatestTag]
    accepts, whose index has no entry among the container statuses, is
    passed over only after [GetRemoteDigest] has run: the round leaves the
    history [GetRemoteDigest] leaves, which, when the manifest URL is a valid
    one, has the HEAD request for it, and the loop goes on from there. *)
Theorem lookup_before_status_check (pod : Pod) (pullSecrets : list Secret) (i : nat)
    (container : Container) (rest : list Container) (h : History) :
  ImagePullPolicy container = PullAlways ->
  isLatestTag (Image container) = Some true ->
  (length (ContainerStatuses (Status pod)) <= i)%nat ->
  shouldDeletePod_body lib w pod pullSecrets (Z.of_nat i) container h =
    (Some Continue, snd (GetRemoteDigest lib w (Image container) pullSecrets h))
  /\ shouldDeletePod_range lib w pod pullSecrets (Z.of_nat i) (container :: rest) h =
     shouldDeletePod_range lib w pod pullSecrets (Z.of_nat i + 1) rest
       (snd (GetRemoteDigest lib w (Image container) pullSecrets h))
  /\ exists reg repo tag,
       parseImageRef (Image container) = Some (reg, repo, tag)
       /\ (NewRequest_error lib MethodHead (manifestURL reg repo tag) = None ->
           exists more,
             snd (GetRemoteDigest lib w (Image container) pullSecrets h) =
             h ++ Do (firstRequest lib reg (manifestURL reg repo tag) pullSecrets) :: more).
Proof.
  intros P L Len.
  assert (B : shouldDeletePod_body lib w pod pullSecrets (Z.of_nat i) container h =
              (Some Continue, snd (GetRemoteDigest lib w (Image container) pullSecrets h))).
  { rewrite shouldDeletePod_body_steps.
    rewrite (proj2 (applicable_true container) (conj P L)).
    destruct (GetRemoteDigest_returns lib w (Image container) pullSecrets h)
      as (r & new & -> & _).
    destruct r as [remote|err]; [|reflexivity].
    unfold mismatch. rewrite lookup_ge_None_2 by exact Len. reflexivity. }
  split; [exact B|]. split.
  - cbn [shouldDeletePod_range]. rewrite run_bind, B. reflexivity.
  - destruct (parseImageRef_is_Some (Image container)) as (reg & repo & tag & E).
    exists reg, repo, tag. split; [exact E|]. intros N.
    rewrite (GetRemoteDigest_steps lib w _ pullSecrets h reg repo tag E). cbv zeta. rewrite N.
    destruct (Client_Do w h _) as [resp|err]; [|exists []; reflexivity].
    destruct (StatusCode resp =? StatusUnauthorized); [|exists []; reflexivity].
    match goal with |- context [fetchBearerToken lib w ?a ?b ?c ?d] =>
      destruct (fetchBearerToken_run lib w a b c d) as (t & new & -> & _) end.
    destruct t as [token|err]; cbn [snd].
    + exists (new ++ [Do (retryRequest (manifestURL reg repo tag) token)]).
      rewrite <- !app_assoc. reflexivity.
    + exists new. rewrite <- app_assoc. reflexivity.
Qed.

End StalenessTheorems.

(** C2 at "localhost:5000/app", an untagged image on a registry with a
    port: [isLatestTag] rejects it, though [parseImageRef] reads its tag as
    "latest", so with pull policy Always the container is passed over and
    nothing is sent to the registry. At the example registry, whose digest
    is not the running one, the pod with this image is kept while the pod
    with "localhost:5000/app:latest" is found stale. *)
Theorem isLatestTag_registry_port :
  isLatestTag "localhost:5000/app" = Some false
  /\ parseImageRef "localhost:5000/app" = Some ("localhost:5000", "app", "latest")
  /\ (forall (lib : Library) (w : World) (pod : Pod) (pullSecrets : list Secret) (i : Z)
             (h : History),
        shouldDeletePod_body lib w pod pullSecrets i
          {| Container_Name := "app"; Image := "localhost:5000/app";
             ImagePullPolicy := PullAlways |} h
        = (Some Continue, h))
  /\ shouldDeletePod token_library example_world (image_pod "localhost:5000/app") [] []
     = (Some false, [])
  /\ fst (shouldDeletePod token_library example_world
            (image_pod "localhost:5000/app:latest") [] [])
     = Some true.
Proof.
  split; [vm_compute; reflexivity|]. split; [vm_compute; reflexivity|].
  split; [intros lib w pod pullSecrets i h; reflexivity|].
  split; vm_compute; reflexivity.
Qed.

(** ** Reconcile *)

Section Loops.

Context {A : Type} (body : A -> M unit).

Lemma for_range_cons (item : A) (rest : list A) (h : History) :
  for_range body (item :: rest) h =
  match body item h with
  | (Some _, h') => for_range body rest h'
  | (None, h') => (None, h')
  end.
Proof. reflexivity. Qed.

(** A body that always comes back makes a loop that always comes back. *)
Hypothesis body_returns : forall item h, exists new, body item h = (Some tt, h ++ new).

Lemma for_range_returns (items : list A) (h : History) :
  exists new, for_range body items h = (Some tt, h ++ new).
Proof.
  revert h. induction items as [|item rest IH]; intros h.
  - exists []. rewrite app_nil_r. reflexivity.
  - rewrite for_range_cons. destruct (body_returns item h) as [new ->].
    destruct (IH (h ++ new)) as [new' ->]. exists (new ++ new'). now rewrite app_assoc.
Qed.

(** Every element of the list gets its round, after the rounds of those
    before it and before the rounds of those after it. *)
Lemma for_range_each (before : list A) (item : A) (after : list A) (h : History) :
  exists new1 new2 new3,
    for_range body before h = (Some tt, h ++ new1)
    /\ body item (h ++ new1) = (Some tt, (h ++ new1) ++ new2)
    /\ for_range body (before ++ item :: after) h = (Some tt, ((h ++ new1) ++ new2) ++ new3).
Proof.
  revert h. induction before as [|x before IH]; intros h.
  - destruct (body_returns item h) as [new2 B].
    destruct (for_range_returns after (h ++ new2)) as [new3 F].
    exists [], new2, new3. rewrite !app_nil_r. cbn [app]. rewrite for_range_cons, B, F. auto.
  - destruct (body_returns x h) as [new0 B].
    destruct (IH (h ++ new0)) as (new1 & new2 & new3 & F1 & F2 & F3).
    exists (new0 ++ new1), new2, new3. cbn [app]. rewrite !for_range_cons, B, F1, F3.
    rewrite (app_assoc h new0 new1). auto.
Qed.

End Loops.

Section ReconcileTheorems.

Variable lib : Library.
Variable w : World.

Lemma Reconcile_pod_returns (pullSecrets : list Secret) (pod : Pod) (h : History) :
  exists new, Reconcile_pod lib w pullSecrets pod h = (Some tt, h ++ new).
Proof. destruct (Reconcile_pod_run lib w pullSecrets pod h) as (new & E & _). eauto. Qed.

Lemma gatherPullSecrets_range_returns (pod : Pod) (refs : list LocalObjectReference)
    (secrets : list Secret) (h : History) :
  exists secrets' new, gatherPullSecrets_range w pod refs secrets h = (Some secrets', h ++ new).
Proof.
  revert secrets h. induction refs as [|ref rest IH]; intros secrets h.
  - exists secrets, []. rewrite app_nil_r. reflexivity.
  - cbn [gatherPullSecrets_range]. rewrite run_bind, run_call.
    destruct (Secrets_Get w h _ _) as [secret|err].
    + destruct (IH (secrets ++ [secret]) (h ++ [GetSecret (Pod_Namespace pod) (Ref_Name ref)]))
        as (s' & new & ->).
      exists s', ([GetSecret (Pod_Namespace pod) (Ref_Name ref)] ++ new).
      now rewrite app_assoc.
    + destruct (IH secrets (h ++ [GetSecret (Pod_Namespace pod) (Ref_Name ref)]))
        as (s' & new & ->).
      exists s', ([GetSecret (Pod_Namespace pod) (Ref_Name ref)] ++ new).
      now rewrite app_assoc.
Qed.

(** The pull secrets [Reconcile] gathers for a list of pods, and the history
    after that. *)
Lemma pullSecrets_returns (pods : list Pod) (h : History) :
  exists pullSecrets new,
    (if Z.of_nat (length pods) >? 0
     then pod0 ← pure_ (at_index pods 0); gatherPullSecrets w pod0
     else mret []) h = (Some pullSecrets, h ++ new).
Proof.
  destruct pods as [|pod0 pods].
  - exists [], []. rewrite app_nil_r. reflexivity.
  - replace (Z.of_nat (length (pod0 :: pods)) >? 0) with true
      by (symmetry; apply Z.gtb_lt; simpl; lia).
    rewrite run_bind, run_pure. cbn [at_index Z.leb Z.compare Z.to_nat lookup list_lookup].
    apply gatherPullSecrets_range_returns.
Qed.

(** [Reconcile_deployment], step by step. *)
Lemma Reconcile_deployment_steps (deploy : appsv1.Deployment) (h : History) :
  Reconcile_deployment lib w deploy h =
  if enabled deploy then
    match LabelSelectorAsSelector lib (appsv1.Selector deploy) with
    | Err _ => (Some tt, h)
    | Ok selector =>
        let h1 := h ++ [ListPods (appsv1.Namespace deploy) selector] in
        match Pods_List w h (appsv1.Namespace deploy) selector with
        | Err _ => (Some tt, h1)
        | Ok pods =>
            match (if Z.of_nat (length pods) >? 0
                   then pod0 ← pure_ (at_index pods 0); gatherPullSecrets w pod0
                   else mret []) h1 with
            | (Some pullSecrets, h2) => for_range (Reconcile_pod lib w pullSecrets) pods h2
            | (None, h2) => (None, h2)
            end
        end
    end
  else (Some tt, h).
Proof.
  unfold Reconcile_deployment, enabled.
  destruct (String.eqb (map_get (appsv1.Annotations deploy) annotationKey) "true");
    cbn [negb]; [|reflexivity].
  destruct (LabelSelectorAsSelector lib (appsv1.Selector deploy)) as [selector|err];
    [|reflexivity].
  rewrite run_bind, run_call. cbv zeta.
  destruct (Pods_List w h (appsv1.Namespace deploy) selector) as [pods|err]; [|reflexivity].
  rewrite run_bind. reflexivity.
Qed.

Lemma Reconcile_deployment_returns (deploy : appsv1.Deployment) (h : History) :
  exists new, Reconcile_deployment lib w deploy h = (Some tt, h ++ new).
Proof.
  rewrite Reconcile_deployment_steps.
  destruct (enabled deploy); [|exists []; now rewrite app_nil_r].
  destruct (LabelSelectorAsSelector lib (appsv1.Selector deploy)) as [selector|err];
    [|exists []; now rewrite app_nil_r].
  cbv zeta.
  destruct (Pods_List w h (appsv1.Namespace deploy) selector) as [pods|err]; [|eauto].
  destruct (pullSecrets_returns pods (h ++ [ListPods (appsv1.Namespace deploy) selector]))
    as (pullSecrets & new & ->).
  destruct (for_range_returns (Reconcile_pod lib w pullSecrets)
              (Reconcile_pod_returns pullSecrets) pods
              ((h ++ [ListPods (appsv1.Namespace deploy) selector]) ++ new)) as [new' ->].
  exists ([ListPods (appsv1.Namespace deploy) selector] ++ new ++ new').
  now rewrite !app_assoc.
Qed.

End ReconcileTheorems.

Section Isolation.

Variable lib : Library.
Variable w : World.

(** C8. [Reconcile] returns an error only when the deployments cannot be
    listed. Otherwise it returns nil, without panic, and every deployment of
    the list gets its round whatever happened in the rounds before it: a
    selector that does not parse ends that round only, and so does a pod
    listing that fails. Within a round every listed pod is handled in turn,
    and the deletion of a stale running pod is asked for and its outcome
    ignored, so the pods after it are handled as well. *)
Theorem Reconcile_isolation (namespace : string) (h : History) :
  let h0 := h ++ [ListDeployments namespace] in
  (forall err,
      Deployments_List w h namespace = Err err ->
      Reconcile lib w namespace h = (Some (Some (ListingDeployments err)), h0))
  /\ (forall deployments,
        Deployments_List w h namespace = Ok deployments ->
        (exists new, Reconcile lib w namespace h = (Some None, h0 ++ new))
        /\ forall before deploy after,
             deployments = before ++ deploy :: after ->
             exists new1 new2 new3,
               for_range (Reconcile_deployment lib w) before h0 = (Some tt, h0 ++ new1)
               /\ Reconcile_deployment lib w deploy (h0 ++ new1)
                  = (Some tt, (h0 ++ new1) ++ new2)
               /\ Reconcile lib w namespace h = (Some None, ((h0 ++ new1) ++ new2) ++ new3))
  /\ (forall deploy h1 err,
        enabled deploy = true ->
        LabelSelectorAsSelector lib (appsv1.Selector deploy) = Err err ->
        Reconcile_deployment lib w deploy h1 = (Some tt, h1))
  /\ (forall deploy h1 selector err,
        enabled deploy = true ->
        LabelSelectorAsSelector lib (appsv1.Selector deploy) = Ok selector ->
        Pods_List w h1 (appsv1.Namespace deploy) selector = Err err ->
        Reconcile_deployment lib w deploy h1
        = (Some tt, h1 ++ [ListPods (appsv1.Namespace deploy) selector]))
  /\ (forall deploy h1 selector pods,
        enabled deploy = true ->
        LabelSelectorAsSelector lib (appsv1.Selector deploy) = Ok selector ->
        Pods_List w h1 (appsv1.Namespace deploy) selector = Ok pods ->
        forall before pod after,
          pods = before ++ pod :: after ->
          exists pullSecrets new0 new1 new2 new3,
            let h2 := (h1 ++ [ListPods (appsv1.Namespace deploy) selector]) ++ new0 in
            for_range (Reconcile_pod lib w pullSecrets) before h2 = (Some tt, h2 ++ new1)
            /\ Reconcile_pod lib w pullSecrets pod (h2 ++ new1)
               = (Some tt, (h2 ++ new1) ++ new2)
            /\ Reconcile_deployment lib w deploy h1
               = (Some tt, ((h2 ++ new1) ++ new2) ++ new3))
  /\ (forall pullSecrets pod h2 h3,
        Phase (Status pod) = PodRunning ->
        shouldDeletePod lib w pod pullSecrets h2 = (Some true, h3) ->
        Reconcile_pod lib w pullSecrets pod h2
        = (Some tt, h3 ++ [DeletePod (Pod_Namespace pod) (Pod_Name pod)])).
Proof.
  intros h0. split; [|split; [|split; [|split; [|split]]]].
  - intros err L. unfold Reconcile. rewrite run_bind, run_call, L. reflexivity.
  - intros deployments L.
    assert (E : forall r, for_range (Reconcile_deployment lib w) deployments h0 = (Some tt, r) ->
                Reconcile lib w namespace h = (Some None, r)).
    { intros r F. unfold Reconcile. rewrite run_bind, run_call, L, run_bind.
      fold h0. rewrite F. reflexivity. }
    split.
    + destruct (for_range_returns _ (Reconcile_deployment_returns lib w) deployments h0)
        as [new F]. exists new. apply E, F.
    + intros before deploy after ->.
      destruct (for_range_each _ (Reconcile_deployment_returns lib w) before deploy after h0)
        as (new1 & new2 & new3 & F1 & F2 & F3).
      exists new1, new2, new3. auto.
  - intros deploy h1 err En S. rewrite Reconcile_deployment_steps, En, S. reflexivity.
  - intros deploy h1 selector err En S L.
    rewrite Reconcile_deployment_steps, En, S. cbv zeta. rewrite L. reflexivity.
  - intros deploy h1 selector pods En S L before pod after ->.
    rewrite Reconcile_deployment_steps, En, S. cbv zeta. rewrite L.
    destruct (pullSecrets_returns w (before ++ pod :: after)
                (h1 ++ [ListPods (appsv1.Namespace deploy) selector]))
      as (pullSecrets & new0 & ->).
    destruct (for_range_each _ (Reconcile_pod_returns lib w pullSecrets) before pod after
                ((h1 ++ [ListPods (appsv1.Namespace deploy) selector]) ++ new0))
      as (new1 & new2 & new3 & F1 & F2 & F3).
    exists pullSecrets, new0, new1, new2, new3. auto.
  - intros pullSecrets pod h2 h3 P D. unfold Reconcile_pod.
    apply String.eqb_eq in P. rewrite P. cbn [negb].
    rewrite run_bind, D, run_bind, run_call. reflexivity.
Qed.

End Isolation.

(** ** The theorems at the example cluster *)

(** The whole pass at the example: the first deployment is skipped for its
    selector, both pods of the second are found stale, and the second
    deletion is asked for although the first one failed. *)
Example Reconcile_example :
  Reconcile token_library example_world EmptyString [] =
  (Some None,
   [ListDeployments EmptyString; ListPods "default" "app=web"]
   ++ nginx_lookup ++ [DeletePod "default" "web-1"]
   ++ nginx_lookup ++ [DeletePod "default" "web-2"]).
Proof. vm_compute. reflexivity. Qed.

Lemma shouldDeletePod_confirmed_mismatch_witness :
  stale_at token_library example_world (nginx_pod "web-1" [running_aaa]) [] 0 []
  /\ steady token_library example_world (nginx_pod "web-1" [running_aaa]) []
  /\ fst (shouldDeletePod token_library example_world (nginx_pod "web-1" [running_aaa]) [] [])
     = Some true.
Proof.
  assert (St : steady token_library example_world (nginx_pod "web-1" [running_aaa]) []).
  { intros c h h' [<-|[]]. reflexivity. }
  assert (S : stale_at token_library example_world (nginx_pod "web-1" [running_aaa]) [] 0 []).
  { exists nginx_container, "sha256:bbb", running_aaa, "sha256:aaa".
    repeat split; try (vm_compute; reflexivity); apply String.eqb_neq; reflexivity. }
  split; [exact S|]. split; [exact St|].
  destruct (shouldDeletePod_confirmed_mismatch token_library example_world
              (nginx_pod "web-1" [running_aaa]) [] []) as (_ & _ & I & _).
  apply (I St). exists O. exact S.
Defined.

Lemma lookup_before_status_check_witness :
  ImagePullPolicy nginx_container = PullAlways
  /\ isLatestTag (Image nginx_container) = Some true
  /\ (length (ContainerStatuses (Status (nginx_pod "web-1" []))) <= 0)%nat
  /\ shouldDeletePod_body token_library example_world (nginx_pod "web-1" []) []
       (Z.of_nat 0) nginx_container []
     = (Some Continue,
        snd (GetRemoteDigest token_library example_world (Image nginx_container) [] [])).
Proof.
  assert (P : ImagePullPolicy nginx_container = PullAlways) by reflexivity.
  assert (L : isLatestTag (Image nginx_container) = Some true) by reflexivity.
  assert (N : (length (ContainerStatuses (Status (nginx_pod "web-1" []))) <= 0)%nat)
    by (simpl; lia).
  split; [exact P|]. split; [exact L|]. split; [exact N|].
  exact (proj1 (lookup_before_status_check token_library example_world
                  (nginx_pod "web-1" []) [] O nginx_container [] [] P L N)).
Defined.

Lemma GetRemoteDigest_protocol_witness :
  NewRequest_error token_library MethodHead nginx_url = None
  /\ (exists resp, Client_Do example_world [] nginx_first = Ok resp
                   /\ StatusCode resp = StatusUnauthorized)
  /\ exists new,
       snd (GetRemoteDigest token_library example_world "nginx:latest" [] []) = [] ++ new
       /\ heads nginx_url new = 2%nat.
Proof.
  split; [reflexivity|]. split; [eexists; split; reflexivity|].
  destruct (GetRemoteDigest_protocol token_library example_world "nginx:latest" [] [])
    as (reg & repo & tag & P & T).
  vm_compute in P. injection P as P1 P2 P3. subst reg repo tag.
  cbv zeta in T. destruct T as (_ & _ & _ & T & _).
  destruct (T eq_refl) as (_ & _ & T401).
  destruct (T401 _ eq_refl eq_refl) as (t & h1 & F & R).
  vm_compute in F. injection F as F1 F2. subst t h1.
  destruct R as [_ R]. exact R.
Defined.

Lemma Reconcile_isolation_witness :
  Deployments_List example_world [] EmptyString = Ok [bad_deployment; web_deployment]
  /\ enabled bad_deployment = true
  /\ is_ok (LabelSelectorAsSelector token_library (appsv1.Selector bad_deployment)) = false
  /\ exists new1 new2 new3,
       for_range (Reconcile_deployment token_library example_world) [bad_deployment]
         [ListDeployments EmptyString]
       = (Some tt, [ListDeployments EmptyString] ++ new1)
       /\ Reconcile_deployment token_library example_world web_deployment
            ([ListDeployments EmptyString] ++ new1)
          = (Some tt, ([ListDeployments EmptyString] ++ new1) ++ new2)
       /\ Reconcile token_library example_world EmptyString []
          = (Some None, (([ListDeployments EmptyString] ++ new1) ++ new2) ++ new3).
Proof.
  split; [reflexivity|]. split; [reflexivity|]. split; [reflexivity|].
  pose proof (Reconcile_isolation token_library example_world EmptyString []) as T.
  cbv zeta in T. destruct T as (_ & H & _).
  destruct (H _ eq_refl) as [_ H2].
  exact (H2 [bad_deployment] web_deployment [] eq_refl).
Defined.

(** * Further properties of the helpers *)

(** ** More on the string functions *)

Section MoreStrings.

Lemma HasPrefix_app_l (a b p : string) :
  HasPrefix a p = true -> HasPrefix (a +:+ b) p = true.
Proof.
  intros H. destruct (HasPrefix_inv _ _ H) as [r ->].
  rewrite append_assoc. apply HasPrefix_self.
Qed.

(** Where [Index] lands, the substring starts, and not before. *)
Lemma Index_found (s substr : string) :
  0 <= Index s substr ->
  exists pre rest,
    s = pre +:+ rest /\ len pre = Index s substr /\ HasPrefix rest substr = true
    /\ (substr <> EmptyString -> Index pre substr = -1).
Proof.
  induction s as [|c s IH]; cbn [Index].
  - destruct (HasPrefix EmptyString substr) eqn:E; [|lia]. intros _.
    exists EmptyString, EmptyString. repeat split; auto.
    intros N. destruct substr; [contradiction|discriminate].
  - destruct (HasPrefix (String c s) substr) eqn:E.
    + intros _. exists EmptyString, (String c s). repeat split; auto.
      intros N. destruct substr; [contradiction|reflexivity].
    + destruct (Index s substr <? 0) eqn:L; [lia|]. intros _.
      apply Z.ltb_ge in L. destruct (IH L) as (pre & rest & -> & P & R & M).
      exists (String c pre), rest. rewrite append_String, len_String, P.
      repeat split; auto.
      intros N. cbn [Index].
      destruct (HasPrefix (String c pre) substr) eqn:F.
      * apply (HasPrefix_app_l _ rest) in F. rewrite append_String in F. congruence.
      * rewrite (M N). reflexivity.
Qed.

Lemma Contains_false (s substr : string) : Contains s substr = false -> Index s substr = -1.
Proof.
  unfold Contains. intros H. apply Z.leb_gt in H.
  destruct (Index_range s substr) as [E|[E _]]; [exact E|lia].
Qed.

(** A string splits at every length up to its own. *)
Lemma split_at_length (s : string) (n : nat) :
  (n <= String.length s)%nat ->
  exists p r, s = p +:+ r /\ String.length p = n.
Proof.
  revert s. induction n as [|n IH]; intros s L.
  - exists EmptyString, s. auto.
  - destruct s as [|c s]; [simpl in L; lia|]. simpl in L.
    destruct (IH s) as (p & r & -> & E); [lia|].
    exists (String c p), r. simpl. auto.
Qed.

(** The last piece of a split. *)
Lemma at_index_last {A} (l : list A) (x : A) :
  at_index (l ++ [x]) (Z.of_nat (length (l ++ [x])) - 1) = Some x.
Proof.
  unfold at_index. rewrite length_app. simpl.
  replace (Z.of_nat (length l + 1) - 1) with (Z.of_nat (length l)) by lia.
  rewrite (proj2 (Z.leb_le 0 (Z.of_nat (length l)))) by lia.
  rewrite Nat2Z.id. rewrite lookup_app_r by lia. now rewrite Nat.sub_diag.
Qed.

Lemma cut_absent (s : string) (sep : ascii) : mem_byte sep s = false -> cut s sep = None.
Proof.
  induction s as [|c s IH]; intros H; [reflexivity|].
  rewrite mem_byte_String in H. apply orb_false_elim in H as [H1 H2].
  cbn [cut]. rewrite H1, (IH H2). reflexivity.
Qed.

Lemma cut_first (a b : string) (sep : ascii) :
  mem_byte sep a = false -> cut (a +:+ String sep b) sep = Some (a, b).
Proof.
  induction a as [|c a IH]; intros H.
  - rewrite append_nil. cbn [cut]. now rewrite Ascii.eqb_refl.
  - rewrite mem_byte_String in H. apply orb_false_elim in H as [H1 H2].
    rewrite append_String. cbn [cut]. rewrite H1, (IH H2). reflexivity.
Qed.

End MoreStrings.

(** ** extractDigest, short, isLatestTag *)

Section Helpers.

(** X1. [extractDigest] never panics. Without "sha256:" in the image id it
    gives the empty string; otherwise it gives the image id from its first
    "sha256:" on, so the result starts with "sha256:" and what is dropped in
    front has no "sha256:". Applied to its own result it changes nothing. *)
Theorem extractDigest_suffix (imageID : string) :
  exists digest,
    extractDigest imageID = Some digest
    /\ (Contains imageID "sha256:" = false -> digest = EmptyString)
    /\ (Contains imageID "sha256:" = true ->
        HasPrefix digest "sha256:" = true
        /\ exists pre, imageID = pre +:+ digest /\ Contains pre "sha256:" = false)
    /\ extractDigest digest = Some digest.
Proof.
  unfold extractDigest at 1.
  destruct (Contains imageID "sha256:") eqn:C.
  - assert (I : 0 <= Index imageID "sha256:") by (apply Z.leb_le; exact C).
    destruct (Index_found _ _ I) as (pre & rest & E & P & R & M).
    destruct (Index imageID "sha256:" =? -1) eqn:N; [apply Z.eqb_eq in N; lia|].
    cbn [negb]. subst imageID. rewrite <- P, slice_from_app.
    exists rest. split; [reflexivity|]. split; [discriminate|]. split.
    + intros _. split; [exact R|]. exists pre. split; [reflexivity|].
      unfold Contains. rewrite M by discriminate. reflexivity.
    + unfold extractDigest.
      assert (Z0 : Index rest "sha256:" = 0).
      { destruct rest as [|c rest]; [discriminate|]. cbn [Index]. now rewrite R. }
      rewrite Z0. cbn [negb Z.eqb]. change 0 with (len EmptyString).
      rewrite <- (append_nil rest) at 1. apply slice_from_app.
  - rewrite (Contains_false _ _ C). cbn [negb Z.eqb].
    exists EmptyString. split; [reflexivity|]. split; [reflexivity|].
    split; [discriminate|reflexivity].
Qed.

(** X2. [short] never panics. A digest of at most 19 bytes is left as it
    is; a longer one is cut to its first 19 bytes followed by "...", so the
    result never has more than 22 bytes. *)
Theorem short_bound (digest : string) :
  exists r,
    short digest = Some r
    /\ len r <= 22
    /\ (len digest <= 19 -> r = digest)
    /\ (19 < len digest ->
        exists p rest, digest = p +:+ rest /\ len p = 19 /\ r = p +:+ "...").
Proof.
  unfold short. destruct (len digest >? 19) eqn:G.
  - apply Z.gtb_lt in G.
    destruct (split_at_length digest 19) as (p & rest & E & L); [unfold len in G; lia|].
    assert (Lp : len p = 19) by (unfold len; lia).
    subst digest.
    assert (S19 : slice_to (p +:+ rest) 19 = Some p) by (rewrite <- Lp; apply slice_to_app).
    rewrite S19. cbn.
    exists (p +:+ "..."). split; [reflexivity|]. split.
    + rewrite len_app, Lp. reflexivity.
    + split; [rewrite len_app in *; pose proof (len_nonneg rest); lia|].
      intros _. exists p, rest. auto.
  - exists digest. assert (L : len digest <= 19).
    { destruct (Z.gtb_spec (len digest) 19); [discriminate|lia]. }
    split; [reflexivity|]. split; [lia|]. split; [reflexivity|lia].
Qed.

(** What [isLatestTag] accepts. *)
Lemma isLatestTag_true_iff (image : string) :
  isLatestTag image = Some true <->
  mem_byte "@" image = false
  /\ (mem_byte ":" image = false \/ exists a, image = a +:+ ":latest").
Proof.
  unfold isLatestTag. rewrite Contains_byte.
  destruct (mem_byte "@" image); [split; [discriminate|intros [? _]; discriminate]|].
  destruct (mem_byte ":" image) eqn:C.
  - destruct (split_at_last _ _ C) as (a & t & -> & Ht).
    rewrite Split_app, (Split_no_sep t ":" Ht).
    pose proof (Split_length a ":") as La.
    destruct (Z.of_nat (length (Split a ":" ++ [t])) =? 1) eqn:L.
    { apply Z.eqb_eq in L. rewrite length_app in L. simpl in L. lia. }
    rewrite at_index_last. cbn. split.
    + intros [= E]. apply String.eqb_eq in E as ->. split; [reflexivity|]. right. now exists a.
    + intros [_ [F|[a' E]]]; [discriminate|].
      change (a' +:+ ":latest") with (a' +:+ String ":" "latest") in E.
      destruct (split_at_last_unique ":" a a' t "latest" E Ht eq_refl) as [_ ->].
      reflexivity.
  - rewrite (Split_no_sep image ":" C). cbn. split; auto.
Qed.

(** X3. [isLatestTag] never panics, and it accepts exactly the references
    without ['@'] that have no [':'] at all or end with ":latest". *)
Theorem isLatestTag_accepts (image : string) :
  (exists b, isLatestTag image = Some b)
  /\ (isLatestTag image = Some true <->
      mem_byte "@" image = false
      /\ (mem_byte ":" image = false \/ exists a, image = a +:+ ":latest")).
Proof.
  split; [apply isLatestTag_total|apply isLatestTag_true_iff].
Qed.

End Helpers.

(** ** More on parseImageRef *)

Section MoreParseImageRef.

Lemma cut_inv (s : string) (sep : ascii) (a b : string) :
  cut s sep = Some (a, b) -> s = a +:+ String sep b /\ mem_byte sep a = false.
Proof.
  revert a. induction s as [|c s IH]; intros a H; [discriminate|].
  cbn [cut] in H. destruct (Ascii.eqb c sep) eqn:E.
  - apply Ascii.eqb_eq in E as ->. injection H as <- <-. auto.
  - destruct (cut s sep) as [[a' b']|]; [|discriminate]. injection H as <- <-.
    destruct (IH a' eq_refl) as [-> M]. split; [reflexivity|].
    rewrite mem_byte_String, E, M. reflexivity.
Qed.

Lemma stripDigest_plain (image : string) :
  mem_byte "@" image = false -> stripDigest image = Some image.
Proof.
  intros H. apply (stripDigest_spec image image EmptyString); auto.
  now rewrite append_nil_r.
Qed.

Lemma splitRepo_host (reg repo tag : string) :
  mem_byte "/" reg = false -> host_like reg = true ->
  splitRepo (reg +:+ String "/" repo) tag = Some (reg, repo, tag).
Proof.
  intros S H. unfold splitRepo. rewrite SplitN_2, (cut_first _ _ _ S). unfold host_like in H.
  change (Z.of_nat (length [reg; repo]) =? 1) with false.
  change (at_index [reg; repo] 0) with (Some reg).
  change (at_index [reg; repo] 1) with (Some repo).
  cbn [mbind option_bind]. rewrite H. reflexivity.
Qed.

Lemma splitRepo_hub (user repo tag : string) :
  mem_byte "/" user = false -> host_like user = false ->
  splitRepo (user +:+ String "/" repo) tag
  = Some ("registry-1.docker.io", user +:+ String "/" repo, tag).
Proof.
  intros S H. unfold splitRepo. rewrite SplitN_2, (cut_first _ _ _ S). unfold host_like in H.
  change (Z.of_nat (length [user; repo]) =? 1) with false.
  change (at_index [user; repo] 0) with (Some user).
  change (at_index [user; repo] 1) with (Some repo).
  cbn [mbind option_bind]. rewrite H. reflexivity.
Qed.

Lemma splitRepo_bare (name tag : string) :
  mem_byte "/" name = false ->
  splitRepo name tag = Some ("registry-1.docker.io", "library/" +:+ name, tag).
Proof.
  intros S. unfold splitRepo. rewrite SplitN_2, (cut_absent _ _ S). reflexivity.
Qed.

(** X4. Every reference [isLatestTag] accepts is parsed with the tag
    "latest": the containers [shouldDeletePod] looks up are looked up at the
    manifest of "latest". *)
Theorem accepted_image_tag (image : string) :
  isLatestTag image = Some true ->
  exists reg repo, parseImageRef image = Some (reg, repo, "latest").
Proof.
  intros H. apply isLatestTag_true_iff in H as [A C].
  rewrite parseImageRef_steps, (stripDigest_plain _ A). cbn.
  destruct C as [C|[a ->]].
  - rewrite (splitTag_untagged _ C). cbn.
    destruct (splitRepo_total image "latest") as (reg & repo & E). eauto.
  - change (a +:+ ":latest") with (a +:+ String ":" "latest").
    rewrite (splitTag_colon a "latest" eq_refl). cbn.
    destruct (splitRepo_total a "latest") as (reg & repo & E). eauto.
Qed.

Lemma accepted_image_tag_witness :
  isLatestTag "ghcr.io/org/app:latest" = Some true
  /\ exists reg repo, parseImageRef "ghcr.io/org/app:latest" = Some (reg, repo, "latest").
Proof.
  split; [reflexivity|]. apply accepted_image_tag. reflexivity.
Defined.

(** X5. [parseImageRef] reads nothing after the first ['@']: a reference
    with a digest is parsed as the reference in front of the ['@']. *)
Theorem parseImageRef_drops_digest (ref rest : string) :
  mem_byte "@" ref = false ->
  parseImageRef (ref +:+ "@" +:+ rest) = parseImageRef ref.
Proof.
  intros H. rewrite !parseImageRef_steps.
  rewrite (stripDigest_spec (ref +:+ "@" +:+ rest) ref ("@" +:+ rest) eq_refl H)
    by (right; reflexivity).
  rewrite (stripDigest_plain _ H). reflexivity.
Qed.

Lemma parseImageRef_drops_digest_witness :
  mem_byte "@" "registry.example.com/app:v1" = false
  /\ parseImageRef ("registry.example.com/app:v1" +:+ "@" +:+ "sha256:abc")
     = parseImageRef "registry.example.com/app:v1".
Proof.
  split; [reflexivity|]. apply parseImageRef_drops_digest. reflexivity.
Defined.

(** X6. A reference written as host, ['/'], repository, [':'], tag is
    parsed back into these three parts, when the host has no ['/'] and looks
    like a host (it has a ['.'] or a [':'], or is "localhost"), the tag has
    no [':'] and no ['/'], and there is no ['@']. The host may carry a port
    and the repository may have several segments. *)
Theorem parseImageRef_host_roundtrip (reg repo tag : string) :
  mem_byte "/" reg = false ->
  host_like reg = true ->
  mem_byte "@" reg = false -> mem_byte "@" repo = false -> mem_byte "@" tag = false ->
  mem_byte ":" tag = false -> mem_byte "/" tag = false ->
  parseImageRef (reg +:+ "/" +:+ repo +:+ ":" +:+ tag) = Some (reg, repo, tag).
Proof.
  intros S H A1 A2 A3 C T.
  change (reg +:+ "/" +:+ repo +:+ ":" +:+ tag)
    with (reg +:+ String "/" (repo +:+ String ":" tag)).
  assert (E : reg +:+ String "/" (repo +:+ String ":" tag)
              = (reg +:+ String "/" repo) +:+ String ":" tag).
  { rewrite append_assoc. reflexivity. }
  rewrite E, parseImageRef_steps, stripDigest_plain.
  - cbn. rewrite (splitTag_colon _ _ C), T. cbn. apply splitRepo_host; assumption.
  - rewrite !mem_byte_app, !mem_byte_String, A1, A2, A3. reflexivity.
Qed.

Lemma parseImageRef_host_roundtrip_witness :
  host_like "localhost:5000" = true
  /\ parseImageRef ("localhost:5000" +:+ "/" +:+ "team/app" +:+ ":" +:+ "v2")
     = Some ("localhost:5000", "team/app", "v2").
Proof.
  split; [reflexivity|]. apply parseImageRef_host_roundtrip; reflexivity.
Defined.

(** X7. References on the default registry. A name without ['/'] is put
    under "library/"; a reference whose first segment does not look like a
    host keeps its whole path as the repository. Both go to
    "registry-1.docker.io" and keep their tag. *)
Theorem parseImageRef_default_registry (user name tag : string) :
  mem_byte "/" name = false -> mem_byte "@" name = false ->
  mem_byte "/" user = false -> mem_byte "@" user = false -> host_like user = false ->
  mem_byte "@" tag = false -> mem_byte ":" tag = false -> mem_byte "/" tag = false ->
  parseImageRef (name +:+ ":" +:+ tag)
  = Some ("registry-1.docker.io", "library/" +:+ name, tag)
  /\ parseImageRef (user +:+ "/" +:+ name +:+ ":" +:+ tag)
     = Some ("registry-1.docker.io", user +:+ "/" +:+ name, tag).
Proof.
  intros S A U AU H AT C T. split.
  - change (name +:+ ":" +:+ tag) with (name +:+ String ":" tag).
    rewrite parseImageRef_steps, stripDigest_plain.
    + cbn. rewrite (splitTag_colon _ _ C), T. cbn. apply splitRepo_bare. exact S.
    + rewrite mem_byte_app, mem_byte_String, A, AT. reflexivity.
  - change (user +:+ "/" +:+ name +:+ ":" +:+ tag)
      with (user +:+ String "/" (name +:+ String ":" tag)).
    assert (E : user +:+ String "/" (name +:+ String ":" tag)
                = (user +:+ String "/" name) +:+ String ":" tag).
    { rewrite append_assoc. reflexivity. }
    rewrite E, parseImageRef_steps, stripDigest_plain.
    + cbn. rewrite (splitTag_colon _ _ C), T. cbn. apply splitRepo_hub; assumption.
    + rewrite !mem_byte_app, !mem_byte_String, A, AU, AT. reflexivity.
Qed.

Lemma parseImageRef_default_registry_witness :
  host_like "myuser" = false
  /\ parseImageRef ("nginx" +:+ ":" +:+ "1.25")
     = Some ("registry-1.docker.io", "library/" +:+ "nginx", "1.25")
  /\ parseImageRef ("myuser" +:+ "/" +:+ "nginx" +:+ ":" +:+ "1.25")
     = Some ("registry-1.docker.io", "myuser" +:+ "/" +:+ "nginx", "1.25").
Proof.
  split; [reflexivity|]. apply parseImageRef_default_registry; reflexivity.
Defined.

End MoreParseImageRef.

Section ParseImageRefShape.

Lemma splitRepo_shape (ref tag0 reg repo tag : string) :
  mem_byte "@" ref = false ->
  splitRepo ref tag0 = Some (reg, repo, tag) ->
  tag = tag0 /\ reg <> EmptyString /\ mem_byte "/" reg = false
  /\ mem_byte "@" reg = false /\ mem_byte "@" repo = false.
Proof.
  intros A. unfold splitRepo. rewrite SplitN_2.
  destruct (cut ref "/") as [[a b]|] eqn:C.
  - apply cut_inv in C as [-> S]. rewrite mem_byte_app, mem_byte_String in A.
    apply orb_false_elim in A as [Aa A]. simpl in A.
    change (Z.of_nat (length [a; b]) =? 1) with false.
    change (at_index [a; b] 0) with (Some a). change (at_index [a; b] 1) with (Some b).
    cbn [mbind option_bind]. fold (host_like a).
    destruct (host_like a) eqn:H; intros [= <- <- <-].
    + repeat split; auto. intros ->. discriminate.
    + repeat split; auto; try discriminate.
      rewrite mem_byte_app, mem_byte_String, Aa. exact A.
  - cbn. intros [= <- <- <-]. repeat split; auto; discriminate.
Qed.

(** X8. The parts [parseImageRef] gives are fit for the manifest URL: the
    registry is not empty and has no ['/'], the tag has no ['/'] and no
    [':'], and no part has an ['@']. *)
Theorem parseImageRef_shape (image reg repo tag : string) :
  parseImageRef image = Some (reg, repo, tag) ->
  reg <> EmptyString /\ mem_byte "/" reg = false
  /\ mem_byte "/" tag = false /\ mem_byte ":" tag = false
  /\ mem_byte "@" reg = false /\ mem_byte "@" repo = false /\ mem_byte "@" tag = false.
Proof.
  rewrite parseImageRef_steps.
  destruct (digest_split image) as (ref & rest & E & A & R).
  rewrite (stripDigest_spec _ _ _ E A R). cbn [mbind option_bind].
  clear E R image rest.
  destruct (mem_byte ":" ref) eqn:C.
  - destruct (split_at_last _ _ C) as (a & t & -> & Ht).
    rewrite (splitTag_colon _ _ Ht).
    pose proof A as A'. rewrite mem_byte_app, mem_byte_String in A'.
    apply orb_false_elim in A' as [Aa At]. simpl in At.
    destruct (mem_byte "/" t) eqn:S; cbn [mbind option_bind]; intros H.
    + destruct (splitRepo_shape _ _ _ _ _ A H) as (-> & ? & ? & ? & ?). auto 10.
    + destruct (splitRepo_shape _ _ _ _ _ Aa H) as (-> & ? & ? & ? & ?). auto 10.
  - rewrite (splitTag_untagged _ C). cbn [mbind option_bind]. intros H.
    destruct (splitRepo_shape _ _ _ _ _ A H) as (-> & ? & ? & ? & ?). auto 10.
Qed.

Lemma parseImageRef_shape_witness :
  parseImageRef "localhost:5000/team/app:v2@sha256:abc"
  = Some ("localhost:5000", "team/app", "v2")
  /\ mem_byte "/" "localhost:5000" = false /\ mem_byte ":" "v2" = false.
Proof.
  assert (P : parseImageRef "localhost:5000/team/app:v2@sha256:abc"
              = Some ("localhost:5000", "team/app", "v2")) by reflexivity.
  split; [exact P|].
  destruct (parseImageRef_shape _ _ _ _ P) as (_ & S & _ & C & _). auto.
Defined.

End ParseImageRefShape.

(** ** More on parseWWWAuth *)

Section MoreChallenge.

Lemma rev_string_snoc (x : string) (c : ascii) :
  rev_string (x +:+ String c EmptyString) = String c (rev_string x).
Proof.
  unfold rev_string. rewrite list_ascii_app, rev_app_distr. reflexivity.
Qed.

Lemma TrimSpace_fixed (s : string) :
  leading_space s = None -> trailing_space s = None -> TrimSpace s = s.
Proof.
  intros L T. unfold TrimSpace.
  assert (E : trim_left_space (String.length s) s = s).
  { destruct (String.length s); simpl; [reflexivity|now rewrite L]. }
  rewrite E. destruct (String.length s); simpl; [reflexivity|now rewrite T].
Qed.

(** A text that ends with the double quote has no white space at its end. *)
Lemma trailing_space_quote (x : string) : trailing_space (x +:+ quote) = None.
Proof. unfold trailing_space, quote. rewrite rev_string_snoc. reflexivity. Qed.

Lemma mem_byte_single (x q : ascii) : mem_byte x (String q EmptyString) = Ascii.eqb x q.
Proof. unfold mem_byte. simpl. apply orb_false_r. Qed.

Lemma trim_right_bytes_snoc (v : string) (q : ascii) :
  mem_byte q v = false ->
  trim_right_bytes (v +:+ String q EmptyString) (String q EmptyString) = v.
Proof.
  induction v as [|x v IH]; intros H.
  - rewrite append_nil. cbn [trim_right_bytes]. now rewrite mem_byte_single, Ascii.eqb_refl.
  - rewrite mem_byte_String in H. apply orb_false_elim in H as [H1 H2].
    rewrite append_String. cbn [trim_right_bytes]. rewrite (IH H2).
    destruct v as [|y v]; [|reflexivity].
    now rewrite mem_byte_single, H1.
Qed.

Lemma Trim_between (q : ascii) (v : string) :
  mem_byte q v = false ->
  Trim (String q EmptyString +:+ v +:+ String q EmptyString) (String q EmptyString) = v.
Proof.
  intros H. unfold Trim. rewrite append_String, append_nil.
  cbn [trim_left_bytes]. rewrite mem_byte_single, Ascii.eqb_refl.
  destruct v as [|x v].
  - rewrite append_nil. cbn [trim_left_bytes trim_right_bytes].
    now rewrite mem_byte_single, Ascii.eqb_refl.
  - rewrite append_String. cbn [trim_left_bytes].
    pose proof H as H'. rewrite mem_byte_String in H'. apply orb_false_elim in H' as [H1 H2].
    rewrite mem_byte_single, H1. rewrite <- append_String.
    apply trim_right_bytes_snoc. exact H.
Qed.

(** A value without double quote comes back out of its quotes. *)
Lemma Trim_quoted (v : string) :
  mem_byte (ascii_of_nat 34) v = false -> Trim (quote +:+ v +:+ quote) quote = v.
Proof. apply Trim_between. Qed.

End MoreChallenge.

Section ChallengeRoundTrip.

Lemma auth_param_snoc (key value : string) :
  auth_param key value = (key +:+ "=" +:+ quote +:+ value) +:+ quote.
Proof. unfold auth_param. now rewrite !append_assoc. Qed.

(** A well-formed parameter is stored under its key with its bare value. *)
Lemma parseWWWAuth_part_param (result : gmap string string) (key value : string) :
  leading_space (auth_param key value) = None ->
  cut (auth_param key value) "=" = Some (key, quote +:+ value +:+ quote) ->
  mem_byte (ascii_of_nat 34) value = false ->
  parseWWWAuth_part result (auth_param key value) = Some (<[key := value]> result).
Proof.
  intros L C Q.
  rewrite (parseWWWAuth_part_pair result _ key (quote +:+ value +:+ quote)).
  - now rewrite Trim_quoted.
  - apply TrimSpace_fixed; [exact L|]. rewrite auth_param_snoc. apply trailing_space_quote.
  - exact C.
Qed.

Lemma auth_param_no_comma (key value : string) :
  mem_byte "," key = false -> mem_byte "," value = false ->
  mem_byte "," (auth_param key value) = false.
Proof.
  intros K V. unfold auth_param. rewrite !mem_byte_app, K, V. reflexivity.
Qed.

Lemma parseWWWAuth_range_challenge (realm service scope : string) :
  mem_byte "," realm = false -> mem_byte "," service = false -> mem_byte "," scope = false ->
  mem_byte (ascii_of_nat 34) realm = false ->
  mem_byte (ascii_of_nat 34) service = false ->
  mem_byte (ascii_of_nat 34) scope = false ->
  parseWWWAuth_range (Split (bearer_challenge realm service scope) ",") ∅ =
  Some (<["scope" := scope]> (<["service" := service]> (<["realm" := realm]> ∅))).
Proof.
  intros C1 C2 C3 Q1 Q2 Q3. unfold bearer_challenge.
  change (auth_param "realm" realm +:+ "," +:+ auth_param "service" service
          +:+ "," +:+ auth_param "scope" scope)
    with (auth_param "realm" realm
          +:+ String "," (auth_param "service" service
                          +:+ String "," (auth_param "scope" scope))).
  rewrite !Split_app.
  rewrite !Split_no_sep by (apply auth_param_no_comma; auto).
  cbn [app parseWWWAuth_range].
  rewrite (parseWWWAuth_part_param ∅ "realm" realm eq_refl eq_refl Q1). cbn [mbind option_bind].
  rewrite (parseWWWAuth_part_param _ "service" service eq_refl eq_refl Q2).
  cbn [mbind option_bind].
  rewrite (parseWWWAuth_part_param _ "scope" scope eq_refl eq_refl Q3). reflexivity.
Qed.

(** X9. A challenge with realm, service and scope, each in double quotes
    and without comma or double quote inside, is parsed into exactly these
    three values, whether it starts with "Bearer ", with "bearer " or with
    neither. The values may have spaces, colons, slashes and equal signs. *)
Theorem parseWWWAuth_challenge (realm service scope : string) :
  mem_byte "," realm = false -> mem_byte "," service = false -> mem_byte "," scope = false ->
  mem_byte (ascii_of_nat 34) realm = false ->
  mem_byte (ascii_of_nat 34) service = false ->
  mem_byte (ascii_of_nat 34) scope = false ->
  let parsed :=
    Some (<["scope" := scope]> (<["service" := service]> (<["realm" := realm]> ∅))) in
  parseWWWAuth ("Bearer " +:+ bearer_challenge realm service scope) = parsed
  /\ parseWWWAuth ("bearer " +:+ bearer_challenge realm service scope) = parsed
  /\ parseWWWAuth (bearer_challenge realm service scope) = parsed.
Proof.
  intros C1 C2 C3 Q1 Q2 Q3 parsed.
  pose proof (parseWWWAuth_range_challenge realm service scope C1 C2 C3 Q1 Q2 Q3) as R.
  assert (B : forall p, HasPrefix (bearer_challenge realm service scope) (String "b" p) = false)
    by reflexivity.
  assert (B' : forall p, HasPrefix (bearer_challenge realm service scope) (String "B" p) = false)
    by reflexivity.
  unfold parseWWWAuth. repeat split.
  - rewrite TrimPrefix_cancel. unfold TrimPrefix. rewrite B. exact R.
  - unfold TrimPrefix at 2.
    change (HasPrefix ("bearer " +:+ bearer_challenge realm service scope) "Bearer ")
      with false.
    cbv iota. rewrite TrimPrefix_cancel. exact R.
  - unfold TrimPrefix. rewrite B', B. exact R.
Qed.

Lemma parseWWWAuth_challenge_witness :
  mem_byte "," "repository:library/nginx:pull" = false
  /\ parseWWWAuth
       ("Bearer " +:+ bearer_challenge "https://auth.docker.io/token" "registry.docker.io"
                        "repository:library/nginx:pull")
     = Some (<["scope" := "repository:library/nginx:pull"]>
               (<["service" := "registry.docker.io"]>
                  (<["realm" := "https://auth.docker.io/token"]> ∅))).
Proof.
  split; [reflexivity|].
  apply (parseWWWAuth_challenge "https://auth.docker.io/token" "registry.docker.io"
           "repository:library/nginx:pull"); reflexivity.
Defined.

End ChallengeRoundTrip.

(** ** More on the token exchange and the digest lookup *)

Section MoreDigest.

Variable lib : Library.
Variable w : World.


(** X11. A 401 answer without Www-Authenticate header ends the lookup: the
    error is that of the missing realm, no token is asked for and the
    request is not sent again. *)
Theorem GetRemoteDigest_no_challenge (image : string) (pullSecrets : list Secret)
    (h : History) (reg repo tag : string) (resp : Response) :
  parseImageRef image = Some (reg, repo, tag) ->
  NewRequest_error lib MethodHead (manifestURL reg repo tag) = None ->
  Client_Do w h (firstRequest lib reg (manifestURL reg repo tag) pullSecrets) = Ok resp ->
  StatusCode resp = StatusUnauthorized ->
  RespHeader resp !! "Www-Authenticate" = None ->
  GetRemoteDigest lib w image pullSecrets h =
  (Some (Err (FetchingBearerToken (NoRealm EmptyString))),
   h ++ [Do (firstRequest lib reg (manifestURL reg repo tag) pullSecrets)]).
Proof.
  intros P N D S A.
  rewrite (GetRemoteDigest_steps lib w image pullSecrets h reg repo tag P).
  cbv zeta. rewrite N, D, S. cbn [Z.eqb Pos.eqb StatusUnauthorized].
  unfold Header_Get, map_get. rewrite A. reflexivity.
Qed.

(** What [GetRemoteDigest] did when it comes back. *)
Lemma GetRemoteDigest_outcome (image : string) (pullSecrets : list Secret) (h : History) :
  exists reg repo tag r new,
    parseImageRef image = Some (reg, repo, tag)
    /\ GetRemoteDigest lib w image pullSecrets h = (Some r, h ++ new)
    /\ (length new <= 3)%nat
    /\ forallb is_do new = true
    /\ forall digest,
         r = Ok digest ->
         digest <> EmptyString
         /\ exists h1 req resp,
              h ++ new = h1 ++ [Do req]
              /\ Method req = MethodHead
              /\ URL req = manifestURL reg repo tag
              /\ Client_Do w h1 req = Ok resp
              /\ StatusCode resp = StatusOK
              /\ Header_Get (RespHeader resp) "Docker-Content-Digest" = digest.
Proof.
  destruct (parseImageRef_is_Some image) as (reg & repo & tag & P).
  exists reg, repo, tag.
  rewrite (GetRemoteDigest_steps lib w image pullSecrets h reg repo tag P). cbv zeta.
  set (url := manifestURL reg repo tag). set (req := firstRequest lib reg url pullSecrets).
  assert (Rq : Method req = MethodHead /\ URL req = url).
  { unfold req, firstRequest, with_credential.
    destruct (resolve lib reg pullSecrets) as [[u p]|]; auto. }
  destruct (NewRequest_error lib MethodHead url).
  { eexists _, []. rewrite app_nil_r. repeat split; auto; try discriminate; simpl; lia. }
  destruct (Client_Do w h req) as [resp|err] eqn:D.
  2:{ eexists _, [Do req]. repeat split; auto; try discriminate; simpl; lia. }
  destruct (StatusCode resp =? StatusUnauthorized).
  - destruct (fetchBearerToken_run lib w (Header_Get (RespHeader resp) "Www-Authenticate")
                reg pullSecrets (h ++ [Do req])) as (t & tnew & -> & G).
    assert (Lt : (length tnew <= 1)%nat /\ forallb is_do tnew = true).
    { destruct G as [->|(g & -> & _)]; simpl; split; auto. }
    destruct Lt as [Lt Dt]. destruct t as [token|err].
    + eexists _, ([Do req] ++ tnew ++ [Do (retryRequest url token)]).
      split; [exact P|]. split; [now rewrite <- !app_assoc|]. split.
      { rewrite !length_app. simpl. lia. }
      split. { rewrite !forallb_app, Dt. reflexivity. }
      intros digest E.
      destruct (Client_Do w (h ++ [Do req] ++ tnew) (retryRequest url token))
        as [resp2|err] eqn:D2; [|discriminate E].
      apply digestOf_Ok in E as (S1 & S2 & S3). split; [exact S3|].
      exists (h ++ [Do req] ++ tnew), (retryRequest url token), resp2.
      rewrite <- !app_assoc. auto 10.
    + eexists _, ([Do req] ++ tnew).
      split; [exact P|]. split; [now rewrite <- app_assoc|]. split.
      { rewrite length_app. simpl. lia. }
      split. { rewrite forallb_app, Dt. reflexivity. }
      intros digest E. discriminate E.
  - eexists _, [Do req]. split; [exact P|]. split; [reflexivity|].
    split; [simpl; lia|]. split; [reflexivity|].
    intros digest E. apply digestOf_Ok in E as (S1 & S2 & S3).
    split; [exact S3|]. exists h, req, resp. destruct Rq. auto 10.
Qed.

(** X12. When [GetRemoteDigest] gives a digest, the last thing it did was
    a HEAD request for the manifest URL, whose answer had status 200 and the
    digest, not empty, in its Docker-Content-Digest header. It sends three
    requests at most and nothing but requests. *)
Theorem GetRemoteDigest_success (image : string) (pullSecrets : list Secret) (h : History) :
  exists reg repo tag r new,
    parseImageRef image = Some (reg, repo, tag)
    /\ GetRemoteDigest lib w image pullSecrets h = (Some r, h ++ new)
    /\ (length new <= 3)%nat
    /\ forallb is_do new = true
    /\ forall digest,
         r = Ok digest ->
         digest <> EmptyString
         /\ exists h1 req resp,
              h ++ new = h1 ++ [Do req]
              /\ Method req = MethodHead
              /\ URL req = manifestURL reg repo tag
              /\ Client_Do w h1 req = Ok resp
              /\ StatusCode resp = StatusOK
              /\ Header_Get (RespHeader resp) "Docker-Content-Digest" = digest.
Proof. apply GetRemoteDigest_outcome. Qed.

End MoreDigest.

(** ** More on setAuth *)

Section MoreCredentials.

Variable lib : Library.

Lemma Index_app_found (pre rest substr : string) :
  HasPrefix rest substr = true -> 0 <= Index (pre +:+ rest) substr.
Proof.
  intros H. induction pre as [|c pre IH].
  - rewrite append_nil. destruct rest; cbn [Index]; rewrite H; lia.
  - rewrite append_String. cbn [Index].
    destruct (HasPrefix (String c (pre +:+ rest)) substr); [lia|].
    destruct (Index (pre +:+ rest) substr <? 0) eqn:L; [apply Z.ltb_lt in L; lia|lia].
Qed.

Lemma Contains_middle (pre s post : string) : Contains (pre +:+ s +:+ post) s = true.
Proof. apply Z.leb_le, Index_app_found, HasPrefix_self. Qed.

(** X13. [setAuth] never panics and touches nothing but the Authorization
    header: method, URL and every other header of the request stay, and the
    Authorization header is either left as it was or set to a basic
    credential. *)
Theorem setAuth_only_authorization (req : Request) (registryHost : string)
    (pullSecrets : list Secret) :
  exists req',
    setAuth lib req registryHost pullSecrets = Some req'
    /\ Method req' = Method req
    /\ URL req' = URL req
    /\ (forall key, key <> "Authorization" -> Header req' !! key = Header req !! key)
    /\ (req' = req
        \/ exists username password,
             Header req' !! "Authorization"
             = Some ("Basic " +:+ EncodeToString lib (username +:+ ":" +:+ password))).
Proof.
  rewrite setAuth_resolve.
  destruct (resolve lib registryHost pullSecrets) as [[u p]|]; cbn [with_credential].
  - exists (SetBasicAuth lib req u p). split; [reflexivity|]. repeat split.
    + intros key N. unfold SetBasicAuth, Header_Set. cbn [Header].
      apply lookup_insert_ne. congruence.
    + right. exists u, p. unfold SetBasicAuth, Header_Set. cbn [Header].
      apply lookup_insert_eq.
  - exists req. repeat split; auto.
Qed.

(** X14. A host key matches as soon as it contains the registry host
    somewhere: the credential stored under [pre ++ registryHost ++ post] is
    sent to [registryHost], whatever [pre] and [post] are. *)
Theorem setAuth_substring_match (req : Request) (registryHost pre post : string)
    (data auth username password : string) :
  Unmarshal_config lib data
  = Ok {| Auths := [ (pre +:+ registryHost +:+ post, {| Auth := auth |}) ] |} ->
  auth <> EmptyString ->
  DecodeString lib auth = Ok (username +:+ ":" +:+ password) ->
  mem_byte ":" username = false ->
  setAuth lib req registryHost [config_secret data]
  = Some (SetBasicAuth lib req username password).
Proof.
  intros U A D C. cbn [setAuth config_secret Type_ Data].
  change (negb (String.eqb SecretTypeDockerConfigJson SecretTypeDockerConfigJson)) with false.
  cbv iota. rewrite lookup_singleton_eq, U. cbn [Auths setAuth_auths Auth].
  rewrite Contains_middle. apply String.eqb_neq in A. rewrite A. cbn [negb andb].
  rewrite D, SplitN_2.
  change (username +:+ ":" +:+ password) with (username +:+ String ":" password).
  rewrite (cut_first _ _ _ C). reflexivity.
Qed.

(** X15. When no host key of any secret contains the registry host, the
    request is left as it is, whatever credentials the secrets hold. *)
Theorem setAuth_no_match (req : Request) (registryHost : string)
    (pullSecrets : list Secret) :
  (forall secret host entry,
      In secret pullSecrets -> In (host, entry) (secret_entries lib secret) ->
      Contains host registryHost = false) ->
  setAuth lib req registryHost pullSecrets = Some req.
Proof.
  intros H. rewrite setAuth_resolve. unfold resolve.
  replace (omap (entry_credential lib registryHost)
             (concat (map (secret_entries lib) pullSecrets))) with (@nil (string * string));
    [reflexivity|].
  symmetry. induction pullSecrets as [|secret rest IH]; [reflexivity|].
  cbn [map concat]. rewrite omap_app, IH.
  - rewrite app_nil_r.
    assert (E : forall entries,
               (forall host entry, In (host, entry) entries ->
                  Contains host registryHost = false) ->
               omap (entry_credential lib registryHost) entries = []).
    { induction entries as [|[host entry] entries IHe]; intros He; [reflexivity|].
      cbn [omap list_omap]. unfold entry_credential at 1. cbn [fst snd].
      rewrite (He host entry) by (left; reflexivity). cbn [andb].
      apply IHe. intros host' entry' I. apply (He host' entry'). right. exact I. }
    apply E. intros host entry I. apply (H secret host entry); [left; reflexivity|exact I].
  - intros secret' host entry I1 I2. apply (H secret' host entry); [right; exact I1|exact I2].
Qed.

End MoreCredentials.

Lemma setAuth_substring_match_witness :
  Unmarshal_config docker_login_library "mirror"
  = Ok {| Auths := [ (EmptyString +:+ "ghcr.io" +:+ ".mirror.example.com",
                      {| Auth := "dXNlcjpwYXNz" |}) ] |}
  /\ DecodeString docker_login_library "dXNlcjpwYXNz" = Ok ("user" +:+ ":" +:+ "pass")
  /\ setAuth docker_login_library (head_request nginx_url) "ghcr.io" [config_secret "mirror"]
     = Some (SetBasicAuth docker_login_library (head_request nginx_url) "user" "pass").
Proof.
  split; [reflexivity|]. split; [reflexivity|].
  apply (setAuth_substring_match docker_login_library (head_request nginx_url) "ghcr.io"
           EmptyString ".mirror.example.com" "mirror" "dXNlcjpwYXNz" "user" "pass");
    try reflexivity. discriminate.
Defined.

(** The entry of the default registry is keyed "https://index.docker.io/v1/",
    which does not contain "registry-1.docker.io", the host [parseImageRef]
    gives for an image of the default registry. *)
Lemma setAuth_no_match_witness :
  parseImageRef "nginx" = Some ("registry-1.docker.io", "library/nginx", "latest")
  /\ setAuth docker_login_library (head_request nginx_url) "registry-1.docker.io"
       [config_secret "hub"]
     = Some (head_request nginx_url).
Proof.
  split; [reflexivity|]. apply setAuth_no_match.
  intros secret host entry [<-|[]] [[= <- <-]|[]]. reflexivity.
Defined.

(** ** More on the walk *)

Section MoreReconcile.

Variable lib : Library.
Variable w : World.

Lemma deletions_app (a b : list Event) : deletions (a ++ b) = deletions a ++ deletions b.
Proof. apply omap_app. Qed.

Lemma deletions_requests (events : list Event) :
  forallb is_do events = true -> deletions events = [].
Proof.
  induction events as [|e events IH]; [reflexivity|]. simpl. intros H.
  apply andb_true_iff in H as [H1 H2]. destruct e; try discriminate.
  cbn. apply IH, H2.
Qed.

Lemma deletions_get_secrets (pod : Pod) (refs : list LocalObjectReference) :
  deletions (map (fun ref => GetSecret (Pod_Namespace pod) (Ref_Name ref)) refs) = [].
Proof. induction refs as [|ref refs IH]; [reflexivity|exact IH]. Qed.

Lemma gatherPullSecrets_range_calls (pod : Pod) (refs : list LocalObjectReference)
    (acc : list Secret) (h : History) :
  exists got,
    gatherPullSecrets_range w pod refs acc h
    = (Some (acc ++ got),
       h ++ map (fun ref => GetSecret (Pod_Namespace pod) (Ref_Name ref)) refs)
    /\ (length got <= length refs)%nat
    /\ Forall (fun secret => exists ref h', In ref refs
                 /\ Secrets_Get w h' (Pod_Namespace pod) (Ref_Name ref) = Ok secret) got
    /\ ((forall ref h', In ref refs ->
           is_ok (Secrets_Get w h' (Pod_Namespace pod) (Ref_Name ref)) = true) ->
        length got = length refs).
Proof.
  revert acc h. induction refs as [|ref rest IH]; intros acc h.
  - exists []. rewrite !app_nil_r. repeat split; auto.
  - cbn [gatherPullSecrets_range map]. rewrite run_bind, run_call.
    destruct (Secrets_Get w h (Pod_Namespace pod) (Ref_Name ref)) as [secret|err] eqn:G.
    + destruct (IH (acc ++ [secret]) (h ++ [GetSecret (Pod_Namespace pod) (Ref_Name ref)]))
        as (got & E & L & F & A).
      exists (secret :: got). rewrite E, <- !app_assoc. split; [reflexivity|].
      split; [simpl; lia|]. split.
      * constructor.
        -- exists ref, h. split; [left; reflexivity|exact G].
        -- eapply Forall_impl; [exact F|]. intros s (r & h' & I & E').
           exists r, h'. split; [right; exact I|exact E'].
      * intros Hall. simpl. f_equal. apply A. intros r h' I. apply Hall. right. exact I.
    + destruct (IH acc (h ++ [GetSecret (Pod_Namespace pod) (Ref_Name ref)]))
        as (got & E & L & F & A).
      exists got. rewrite E, <- !app_assoc. split; [reflexivity|].
      split; [simpl; lia|]. split.
      * eapply Forall_impl; [exact F|]. intros s (r & h' & I & E').
        exists r, h'. split; [right; exact I|exact E'].
      * intros Hall. specialize (Hall ref h (or_introl eq_refl)). rewrite G in Hall.
        discriminate.
Qed.


Lemma for_range_idle {A} (body : A -> M unit) (items : list A) (h : History) :
  (forall item h', In item items -> body item h' = (Some tt, h')) ->
  for_range body items h = (Some tt, h).
Proof.
  induction items as [|item rest IH]; intros H; [reflexivity|].
  rewrite for_range_cons, (H item h) by (left; reflexivity).
  apply IH. intros x h' I. apply H. right. exact I.
Qed.

(** X17. Deployments are opted in by the annotation: when none of the
    listed deployments has "kube-restarter.io/enabled" set to "true", the
    pass consists of the listing alone; no pod is listed, no registry is
    asked and nothing is deleted. *)
Theorem Reconcile_opt_in (namespace : string) (h : History)
    (deployments : list appsv1.Deployment) :
  Deployments_List w h namespace = Ok deployments ->
  (forall deploy, In deploy deployments -> enabled deploy = false) ->
  Reconcile lib w namespace h = (Some None, h ++ [ListDeployments namespace]).
Proof.
  intros L H. unfold Reconcile. rewrite run_bind, run_call, L, run_bind.
  rewrite for_range_idle; [reflexivity|].
  intros deploy h' I. rewrite Reconcile_deployment_steps, (H deploy I). reflexivity.
Qed.

End MoreReconcile.

Section MoreStaleness.

Variable lib : Library.
Variable w : World.

Lemma shouldDeletePod_body_requests (pod : Pod) (pullSecrets : list Secret) (i : nat)
    (container : Container) (h : History) :
  exists f new,
    shouldDeletePod_body lib w pod pullSecrets (Z.of_nat i) container h = (Some f, h ++ new)
    /\ forallb is_do new = true
    /\ (length new <= if applicable container then 3 else 0)%nat
    /\ (applicable container = false -> f = Continue).
Proof.
  rewrite shouldDeletePod_body_steps. destruct (applicable container).
  - destruct (GetRemoteDigest_outcome lib w (Image container) pullSecrets h)
      as (reg & repo & tag & r & new & _ & -> & L & D & _).
    destruct r; eexists _, new; repeat split; auto; discriminate.
  - exists Continue, []. rewrite app_nil_r. repeat split; auto.
Qed.

Lemma shouldDeletePod_range_requests (pod : Pod) (pullSecrets : list Secret)
    (containers : list Container) (k : nat) (h : History) :
  exists b new,
    shouldDeletePod_range lib w pod pullSecrets (Z.of_nat k) containers h = (Some b, h ++ new)
    /\ forallb is_do new = true
    /\ (length new <= 3 * length (List.filter applicable containers))%nat
    /\ ((forall container, In container containers -> applicable container = false) ->
        b = false).
Proof.
  revert k h. induction containers as [|c rest IH]; intros k h.
  - exists false, []. rewrite app_nil_r. repeat split; auto.
  - cbn [shouldDeletePod_range List.filter]. rewrite run_bind.
    destruct (shouldDeletePod_body_requests pod pullSecrets k c h)
      as (f & new & -> & D & L & A).
    destruct f as [|b].
    + replace (Z.of_nat k + 1) with (Z.of_nat (Datatypes.S k)) by lia.
      destruct (IH (Datatypes.S k) (h ++ new)) as (b & new' & -> & D' & L' & A').
      exists b, (new ++ new'). rewrite app_assoc. split; [reflexivity|].
      split; [rewrite forallb_app, D, D'; reflexivity|]. split.
      * rewrite length_app. destruct (applicable c); simpl in *; lia.
      * intros H. apply A'. intros x I. apply H. right. exact I.
    + exists b, new. split; [reflexivity|]. split; [exact D|]. split.
      * destruct (applicable c); simpl in *; lia.
      * intros H. specialize (A (H c (or_introl eq_refl))). discriminate.
Qed.

(** X18. [shouldDeletePod] makes nothing but HTTP requests, three at most
    for each container with pull policy Always and an image [isLatestTag]
    accepts, and none for the others: a pod without such a container is
    kept without any request. *)
Theorem shouldDeletePod_requests (pod : Pod) (pullSecrets : list Secret) (h : History) :
  exists b new,
    shouldDeletePod lib w pod pullSecrets h = (Some b, h ++ new)
    /\ forallb is_do new = true
    /\ (length new <= 3 * length (List.filter applicable (Containers (Spec pod))))%nat
    /\ ((forall container, In container (Containers (Spec pod)) ->
           applicable container = false) ->
        b = false /\ new = []).
Proof.
  destruct (shouldDeletePod_range_requests pod pullSecrets (Containers (Spec pod)) O h)
    as (b & new & E & D & L & A).
  exists b, new. split; [exact E|]. split; [exact D|]. split; [exact L|].
  intros H. split; [apply A, H|].
  assert (F : List.filter applicable (Containers (Spec pod)) = []).
  { clear -H. induction (Containers (Spec pod)) as [|c l IH]; [reflexivity|].
    simpl. rewrite (H c) by (left; reflexivity). apply IH. intros x I. apply H. right. exact I. }
  rewrite F in L. simpl in L. destruct new; [reflexivity|simpl in L; lia].
Qed.

Lemma shouldDeletePod_range_stops (pod : Pod) (pullSecrets : list Secret) (h0 : History)
    (i : nat) (hi : History) (container : Container) :
  reaches lib w pod pullSecrets h0 i hi ->
  stale_at lib w pod pullSecrets i hi ->
  Containers (Spec pod) !! i = Some container ->
  forall containers k h,
    reaches lib w pod pullSecrets h0 k h ->
    (k <= i)%nat ->
    (forall j, containers !! j = Containers (Spec pod) !! (k + j)%nat) ->
    shouldDeletePod_range lib w pod pullSecrets (Z.of_nat k) containers h
    = (Some true, snd (GetRemoteDigest lib w (Image container) pullSecrets hi)).
Proof.
  intros Ri St C. induction containers as [|c rest IH]; intros k h Rk L Hcs.
  - specialize (Hcs (i - k)%nat). replace (k + (i - k))%nat with i in Hcs by lia.
    rewrite C in Hcs. discriminate.
  - assert (Ck : Containers (Spec pod) !! k = Some c).
    { rewrite <- (Nat.add_0_r k), <- Hcs. reflexivity. }
    cbn [shouldDeletePod_range]. rewrite run_bind.
    destruct (decide (k = i)) as [->|N].
    + rewrite (reaches_functional lib w _ _ _ _ _ _ Rk Ri) in *.
      rewrite C in Ck. injection Ck as <-.
      rewrite shouldDeletePod_body_steps.
      destruct St as (c' & remote & status & running & C' & P1 & P2 & G & S1 & S2 & S3 & S4).
      rewrite C in C'. injection C' as <-.
      rewrite (proj2 (applicable_true container) (conj P1 P2)).
      destruct (GetRemoteDigest lib w (Image container) pullSecrets hi) as [r h'] eqn:E.
      cbn [fst] in G. subst r.
      rewrite (proj2 (mismatch_true pod i remote)) by eauto 10. reflexivity.
    + assert (Nk : ~ stale_at lib w pod pullSecrets k h).
      { apply (reaches_passed lib w pod pullSecrets h0 i hi Ri k h); [lia|exact Rk]. }
      destruct (shouldDeletePod_body_cases lib w pod pullSecrets k c h Ck)
        as [[Sk _]|[_ [h' B]]]; [contradiction|].
      rewrite B. replace (Z.of_nat k + 1) with (Z.of_nat (Datatypes.S k)) by lia.
      apply IH.
      * eapply reaches_next; eauto.
      * lia.
      * intros j. change (rest !! j) with ((c :: rest) !! Datatypes.S j).
        rewrite Hcs. f_equal. lia.
Qed.

(** X19. [shouldDeletePod] stops at the first stale container: when the
    loop comes to a container with a confirmed mismatch, the answer is true
    and the last thing done is the lookup of that container; the containers
    after it are not looked up. *)
Theorem shouldDeletePod_stops (pod : Pod) (pullSecrets : list Secret) (h0 : History)
    (i : nat) (hi : History) (container : Container) :
  reaches lib w pod pullSecrets h0 i hi ->
  stale_at lib w pod pullSecrets i hi ->
  Containers (Spec pod) !! i = Some container ->
  shouldDeletePod lib w pod pullSecrets h0
  = (Some true, snd (GetRemoteDigest lib w (Image container) pullSecrets hi)).
Proof.
  intros Ri St C.
  apply (shouldDeletePod_range_stops pod pullSecrets h0 i hi container Ri St C
           (Containers (Spec pod)) O h0).
  - constructor.
  - lia.
  - reflexivity.
Qed.

End MoreStaleness.

Section Deletions.

Variable lib : Library.
Variable w : World.

(** A round for a pod asks for at most one deletion, that of the pod, and
    only if the pod is running. *)
Lemma Reconcile_pod_deletions (pullSecrets : list Secret) (pod : Pod) (h : History) :
  exists new,
    Reconcile_pod lib w pullSecrets pod h = (Some tt, h ++ new)
    /\ (deletions new = []
        \/ (deletions new = [(Pod_Namespace pod, Pod_Name pod)] /\ running pod = true)).
Proof.
  unfold Reconcile_pod. fold (running pod).
  destruct (running pod) eqn:P; cbn [negb].
  - rewrite run_bind.
    unfold shouldDeletePod.
    destruct (shouldDeletePod_range_events lib w pod pullSecrets (Containers (Spec pod)) O h)
      as (b & new & E & D).
    change (Z.of_nat 0) with 0 in E. rewrite E.
    apply deletions_requests in D. destruct b.
    + rewrite run_bind, run_call.
      exists (new ++ [DeletePod (Pod_Namespace pod) (Pod_Name pod)]).
      rewrite app_assoc. split; [reflexivity|]. right.
      rewrite deletions_app, D. auto.
    + exists new. auto.
  - exists []. rewrite app_nil_r. auto.
Qed.

Lemma for_range_pods_deletions (pullSecrets : list Secret) (pods : list Pod) (h : History) :
  exists new,
    for_range (Reconcile_pod lib w pullSecrets) pods h = (Some tt, h ++ new)
    /\ (forall ns name, In (ns, name) (deletions new) ->
          exists pod, In pod pods /\ running pod = true
                      /\ Pod_Namespace pod = ns /\ Pod_Name pod = name)
    /\ (length (deletions new) <= length (List.filter running pods))%nat.
Proof.
  revert h. induction pods as [|pod rest IH]; intros h.
  - exists []. rewrite app_nil_r. repeat split; auto. intros ns name [].
  - rewrite for_range_cons.
    destruct (Reconcile_pod_deletions pullSecrets pod h) as (new & -> & D).
    destruct (IH (h ++ new)) as (new' & -> & I & L).
    exists (new ++ new'). rewrite app_assoc. split; [reflexivity|].
    rewrite deletions_app. cbn [List.filter]. split.
    + intros ns name Hin. apply in_app_iff in Hin as [Hin|Hin].
      * destruct D as [D|[D R]]; rewrite D in Hin; [destruct Hin|].
        destruct Hin as [[= <- <-]|[]]. exists pod. repeat split; auto. left. reflexivity.
      * destruct (I ns name Hin) as (p & Ip & Rp). exists p. split; [right; exact Ip|exact Rp].
    + rewrite length_app. destruct D as [D|[D R]]; rewrite D.
      * destruct (running pod); simpl; lia.
      * rewrite R. simpl. lia.
Qed.

(** X20. Whatever a round for a deployment asks to delete is a running pod
    of the listing the round obtained for that deployment, named by its own
    namespace and name; and there are no more deletions than running pods in
    that listing. A deployment that is not enabled has nothing deleted. *)
Theorem Reconcile_deployment_deletions (deploy : appsv1.Deployment) (h : History) :
  exists new,
    Reconcile_deployment lib w deploy h = (Some tt, h ++ new)
    /\ (forall ns name,
          In (ns, name) (deletions new) ->
          enabled deploy = true
          /\ exists selector pods pod,
               LabelSelectorAsSelector lib (appsv1.Selector deploy) = Ok selector
               /\ Pods_List w h (appsv1.Namespace deploy) selector = Ok pods
               /\ In pod pods /\ running pod = true
               /\ Pod_Namespace pod = ns /\ Pod_Name pod = name)
    /\ (forall selector pods,
          LabelSelectorAsSelector lib (appsv1.Selector deploy) = Ok selector ->
          Pods_List w h (appsv1.Namespace deploy) selector = Ok pods ->
          (length (deletions new) <= length (List.filter running pods))%nat).
Proof.
  rewrite Reconcile_deployment_steps.
  assert (Idle : exists new : list Event,
             (Some tt, h) = (Some tt, h ++ new)
             /\ (forall ns name, In (ns, name) (deletions new) ->
                   enabled deploy = true
                   /\ exists selector pods pod,
                        LabelSelectorAsSelector lib (appsv1.Selector deploy) = Ok selector
                        /\ Pods_List w h (appsv1.Namespace deploy) selector = Ok pods
                        /\ In pod pods /\ running pod = true
                        /\ Pod_Namespace pod = ns /\ Pod_Name pod = name)
             /\ (forall selector pods,
                   LabelSelectorAsSelector lib (appsv1.Selector deploy) = Ok selector ->
                   Pods_List w h (appsv1.Namespace deploy) selector = Ok pods ->
                   (length (deletions new) <= length (List.filter running pods))%nat)).
  { exists []. rewrite app_nil_r. split; [reflexivity|]. split.
    - intros ns name [].
    - intros selector pods _ _. simpl. lia. }
  destruct (enabled deploy) eqn:En; [|exact Idle].
  destruct (LabelSelectorAsSelector lib (appsv1.Selector deploy)) as [selector|err] eqn:S;
    [|exact Idle].
  cbv zeta. clear Idle.
  destruct (Pods_List w h (appsv1.Namespace deploy) selector) as [pods|err] eqn:L.
  - set (h1 := h ++ [ListPods (appsv1.Namespace deploy) selector]).
    assert (G : exists pullSecrets new0,
               (if Z.of_nat (length pods) >? 0
                then pod0 ← pure_ (at_index pods 0); gatherPullSecrets w pod0
                else mret []) h1 = (Some pullSecrets, h1 ++ new0)
               /\ deletions new0 = []).
    { destruct pods as [|pod0 pods'].
      - exists [], []. rewrite app_nil_r. split; reflexivity.
      - replace (Z.of_nat (length (pod0 :: pods')) >? 0) with true
          by (symmetry; apply Z.gtb_lt; simpl; lia).
        rewrite run_bind, run_pure.
        cbn [at_index Z.leb Z.compare Z.to_nat lookup list_lookup].
        destruct (gatherPullSecrets_range_calls w pod0 (ImagePullSecrets (Spec pod0)) [] h1)
          as (got & E & _).
        exists ([] ++ got),
          (map (fun ref => GetSecret (Pod_Namespace pod0) (Ref_Name ref))
             (ImagePullSecrets (Spec pod0))).
        split; [exact E|apply deletions_get_secrets]. }
    destruct G as (pullSecrets & new0 & -> & D0).
    destruct (for_range_pods_deletions pullSecrets pods (h1 ++ new0)) as (new & -> & I & B).
    exists ([ListPods (appsv1.Namespace deploy) selector] ++ new0 ++ new).
    unfold h1. rewrite <- !app_assoc. split; [reflexivity|].
    rewrite !deletions_app, D0. cbn [deletions omap list_omap app]. split.
    + intros ns name Hin. split; [reflexivity|].
      destruct (I ns name Hin) as (pod & Ip & Rp). exists selector, pods, pod. auto.
    + intros selector' pods' E1 E2. injection E1 as <-. rewrite L in E2.
      injection E2 as <-. exact B.
  - exists [ListPods (appsv1.Namespace deploy) selector]. split; [reflexivity|]. split.
    + intros ns name [].
    + intros selector' pods' _ _. simpl. lia.
Qed.

End Deletions.

(** ** The further properties at the examples *)

Lemma GetRemoteDigest_no_challenge_witness :
  parseImageRef "nginx" = Some ("registry-1.docker.io", "library/nginx", "latest")
  /\ RespHeader {| StatusCode := 401; RespHeader := ∅; Body := Ok EmptyString |}
       !! "Www-Authenticate" = None
  /\ GetRemoteDigest token_library denying_world "nginx" [] []
     = (Some (Err (FetchingBearerToken (NoRealm EmptyString))), [Do nginx_first]).
Proof.
  split; [reflexivity|]. split; [reflexivity|].
  apply (GetRemoteDigest_no_challenge token_library denying_world "nginx" [] []
           "registry-1.docker.io" "library/nginx" "latest"
           {| StatusCode := 401; RespHeader := ∅; Body := Ok EmptyString |});
    reflexivity.
Defined.

Lemma Reconcile_opt_in_witness :
  enabled shouting_deployment = false
  /\ Reconcile token_library (hub_world "sha256:bbb" [shouting_deployment] [twin_pod])
       "default" []
     = (Some None, [ListDeployments "default"]).
Proof.
  split; [reflexivity|].
  apply (Reconcile_opt_in token_library (hub_world "sha256:bbb" [shouting_deployment] [twin_pod])
           "default" [] [shouting_deployment]).
  - reflexivity.
  - intros deploy [<-|[]]. reflexivity.
Defined.

Lemma shouldDeletePod_stops_witness :
  stale_at token_library example_world twin_pod [] 0 []
  /\ shouldDeletePod token_library example_world twin_pod [] [] = (Some true, nginx_lookup).
Proof.
  assert (S : stale_at token_library example_world twin_pod [] 0 []).
  { exists nginx_container, "sha256:bbb", running_aaa, "sha256:aaa".
    repeat split; try (vm_compute; reflexivity); apply String.eqb_neq; reflexivity. }
  split; [exact S|].
  rewrite (shouldDeletePod_stops token_library example_world twin_pod [] [] O []
             nginx_container (reaches_first _ _ _ _ _) S eq_refl).
  vm_compute. reflexivity.
Defined.

Lemma GetRemoteDigest_success_witness :
  fst (GetRemoteDigest token_library example_world "nginx:latest" [] []) = Some (Ok "sha256:bbb")
  /\ exists h1 req resp,
       nginx_lookup = h1 ++ [Do req]
       /\ Client_Do example_world h1 req = Ok resp
       /\ StatusCode resp = StatusOK.
Proof.
  split; [vm_compute; reflexivity|].
  destruct (GetRemoteDigest_success token_library example_world "nginx:latest" [] [])
    as (reg & repo & tag & r & new & _ & E & _ & _ & T).
  vm_compute in E. injection E as E1 E2. subst r.
  destruct (T "sha256:bbb" eq_refl) as (_ & h1 & req & resp & A & _ & _ & D & S & _).
  exists h1, req, resp. cbn [app] in A. rewrite <- E2 in A. auto.
Defined.

(** ** The start of the process *)

Section Startup.

Variable p : Process.

Hypothesis in_cluster : InClusterConfig_error p = None.
Hypothesis client : NewForConfig_error p = None.

Lemma wrap64_small (x : Z) : - 2 ^ 63 <= x < 2 ^ 63 -> wrap64 x = x.
Proof. intros H. unfold wrap64. rewrite Z.mod_small; lia. Qed.

(** X22. The period of the ticker. In a cluster, without CHECK_INTERVAL the
    loop runs every 21600 seconds; with CHECK_INTERVAL read as a number [n]
    between 1 and 9223372036 it runs every [n] seconds; a value that is not a
    number ends the process with the fatal message; and a number that is zero
    or negative (down to -9223372036) is accepted as interval and then makes
    [time.NewTicker] panic, so the process dies before the first pass. *)
Theorem main_interval :
  (Getenv p "CHECK_INTERVAL" = EmptyString ->
   main_startup p = Looping (21600 * Second) (Getenv p "NAMESPACE"))
  /\ (forall n,
        Getenv p "CHECK_INTERVAL" <> EmptyString ->
        Atoi p (Getenv p "CHECK_INTERVAL") = Ok n ->
        (0 < n <= 9223372036 ->
         main_startup p = Looping (n * Second) (Getenv p "NAMESPACE"))
        /\ (-9223372036 <= n <= 0 -> main_startup p = TickerPanic))
  /\ (forall err,
        Getenv p "CHECK_INTERVAL" <> EmptyString ->
        Atoi p (Getenv p "CHECK_INTERVAL") = Err err ->
        main_startup p = FatalInterval (Getenv p "CHECK_INTERVAL") err).
Proof.
  unfold main_startup. split; [|split].
  - intros ->. cbn [String.eqb negb]. rewrite in_cluster, client. reflexivity.
  - intros n V A. apply String.eqb_neq in V. rewrite V, A. cbn [negb].
    rewrite in_cluster, client. unfold Second. split; intros R.
    + rewrite (wrap64_small n) by lia. rewrite wrap64_small by lia.
      destruct (n * 1000000000 <=? 0) eqn:L; [apply Z.leb_le in L; lia|reflexivity].
    + rewrite (wrap64_small n) by lia. rewrite wrap64_small by lia.
      destruct (n * 1000000000 <=? 0) eqn:L; [reflexivity|apply Z.leb_gt in L; lia].
  - intros err V A. apply String.eqb_neq in V. rewrite V, A. reflexivity.
Qed.

End Startup.

Lemma main_interval_witness :
  Getenv (cluster_process "0" 0) "CHECK_INTERVAL" <> EmptyString
  /\ Atoi (cluster_process "0" 0) (Getenv (cluster_process "0" 0) "CHECK_INTERVAL") = Ok 0
  /\ main_startup (cluster_process "0" 0) = TickerPanic
  /\ main_startup (cluster_process "120" 120) = Looping (120 * Second) "apps".
Proof.
  split; [discriminate|]. split; [reflexivity|]. split.
  - destruct (main_interval (cluster_process "0" 0) eq_refl eq_refl) as (_ & H & _).
    apply (H 0); [discriminate|reflexivity|lia].
  - destruct (main_interval (cluster_process "120" 120) eq_refl eq_refl) as (_ & H & _).
    apply (H 120); [discriminate|reflexivity|lia].
Defined.

(** ** The pull secrets of a deployment *)

Section FirstPod.

Variable lib : Library.
Variable w : World.

Lemma requests_no_secret (events : list Event) :
  forallb is_do events = true -> forallb (fun e => negb (is_get_secret e)) events = true.
Proof.
  induction events as [|e events IH]; [reflexivity|]. simpl. intros H.
  apply andb_true_iff in H as [H1 H2]. destruct e; try discriminate.
  simpl. apply IH, H2.
Qed.

Lemma Reconcile_pod_no_secret (pullSecrets : list Secret) (pod : Pod) (h : History) :
  exists new,
    Reconcile_pod lib w pullSecrets pod h = (Some tt, h ++ new)
    /\ forallb (fun e => negb (is_get_secret e)) new = true.
Proof.
  unfold Reconcile_pod.
  destruct (String.eqb (Phase (Status pod)) PodRunning); cbn [negb].
  - rewrite run_bind.
    unfold shouldDeletePod.
    destruct (shouldDeletePod_range_events lib w pod pullSecrets (Containers (Spec pod)) O h)
      as (b & new & E & D).
    change (Z.of_nat 0) with 0 in E. rewrite E.
    apply requests_no_secret in D. destruct b.
    + rewrite run_bind, run_call.
      exists (new ++ [DeletePod (Pod_Namespace pod) (Pod_Name pod)]).
      rewrite app_assoc. split; [reflexivity|]. rewrite forallb_app, D. reflexivity.
    + exists new. auto.
  - exists []. rewrite app_nil_r. auto.
Qed.

Lemma for_range_pods_no_secret (pullSecrets : list Secret) (pods : list Pod) (h : History) :
  exists new,
    for_range (Reconcile_pod lib w pullSecrets) pods h = (Some tt, h ++ new)
    /\ forallb (fun e => negb (is_get_secret e)) new = true.
Proof.
  revert h. induction pods as [|pod rest IH]; intros h.
  - exists []. rewrite app_nil_r. auto.
  - rewrite for_range_cons.
    destruct (Reconcile_pod_no_secret pullSecrets pod h) as (new & -> & D).
    destruct (IH (h ++ new)) as (new' & -> & D').
    exists (new ++ new'). rewrite app_assoc. split; [reflexivity|].
    rewrite forallb_app, D, D'. reflexivity.
Qed.

(** X21. The pull secrets of a deployment are those the first listed pod
    names, whether or not that pod is running: after the listing, the round
    asks for exactly these secrets, and what follows (the rounds of all the
    pods, with the secrets so obtained) asks for no secret at all. *)
Theorem Reconcile_deployment_first_pod (deploy : appsv1.Deployment) (h : History)
    (selector : string) (pod0 : Pod) (pods : list Pod) :
  enabled deploy = true ->
  LabelSelectorAsSelector lib (appsv1.Selector deploy) = Ok selector ->
  Pods_List w h (appsv1.Namespace deploy) selector = Ok (pod0 :: pods) ->
  exists pullSecrets new,
    let h1 := h ++ ListPods (appsv1.Namespace deploy) selector
                :: map (fun ref => GetSecret (Pod_Namespace pod0) (Ref_Name ref))
                     (ImagePullSecrets (Spec pod0)) in
    gatherPullSecrets w pod0 (h ++ [ListPods (appsv1.Namespace deploy) selector])
    = (Some pullSecrets, h1)
    /\ for_range (Reconcile_pod lib w pullSecrets) (pod0 :: pods) h1 = (Some tt, h1 ++ new)
    /\ Reconcile_deployment lib w deploy h = (Some tt, h1 ++ new)
    /\ forallb (fun e => negb (is_get_secret e)) new = true.
Proof.
  intros En S L. rewrite Reconcile_deployment_steps, En, S. cbv zeta. rewrite L.
  destruct (gatherPullSecrets_range_calls w pod0 (ImagePullSecrets (Spec pod0)) []
              (h ++ [ListPods (appsv1.Namespace deploy) selector])) as (got & E & _).
  rewrite <- app_assoc in E. cbn [app] in E.
  destruct (for_range_pods_no_secret got (pod0 :: pods)
              (h ++ ListPods (appsv1.Namespace deploy) selector
                 :: map (fun ref => GetSecret (Pod_Namespace pod0) (Ref_Name ref))
                      (ImagePullSecrets (Spec pod0)))) as (new & F & D).
  exists got, new. split; [exact E|]. split; [exact F|]. split; [|exact D].
  change (match gatherPullSecrets_range w pod0 (ImagePullSecrets (Spec pod0)) []
                  (h ++ [ListPods (appsv1.Namespace deploy) selector]) with
          | (Some pullSecrets, h2) =>
              for_range (Reconcile_pod lib w pullSecrets) (pod0 :: pods) h2
          | (None, h2) => (None, h2)
          end
          = (Some tt,
             (h ++ ListPods (appsv1.Namespace deploy) selector
                :: map (fun ref => GetSecret (Pod_Namespace pod0) (Ref_Name ref))
                     (ImagePullSecrets (Spec pod0))) ++ new)).
  rewrite E. exact F.
Qed.

End FirstPod.

Lemma Reconcile_deployment_first_pod_witness :
  enabled web_deployment = true
  /\ Pods_List pending_first_world [] "default" "app=web"
     = Ok [pending_pod; nginx_pod "web-1" [running_aaa]]
  /\ exists new,
       Reconcile_deployment token_library pending_first_world web_deployment []
       = (Some tt, ([] ++ ListPods "default" "app=web" :: [GetSecret "default" "regcred"]) ++ new)
       /\ forallb (fun e => negb (is_get_secret e)) new = true.
Proof.
  split; [reflexivity|]. split; [reflexivity|].
  destruct (Reconcile_deployment_first_pod token_library pending_first_world web_deployment []
              "app=web" pending_pod [nginx_pod "web-1" [running_aaa]]
              eq_refl eq_refl eq_refl) as (pullSecrets & new & _ & _ & R & D).
  exists new. split; [exact R|exact D].
Defined.
